(** * Rank-approximate neighbour search utilities

    A shallow embedding of [src/mlpack/methods/rann/ra_util.cpp] (mlpack 2.0.1):
    [RAUtil::SuccessProbability], [RAUtil::MinimumSamplesReqd] and
    [RAUtil::ObtainDistinctSamples].

    - [size_t] is a 64-bit unsigned integer: a [Z] in [0, 2^64) whose
      arithmetic wraps around ([SizeT]).
    - [double] is IEEE-754 binary64: Rocq's primitive [float], whose
      operations are specified by [FloatAxioms] ([Double]).
    - [std::pow] belongs to the C library, not to the repository: the
      functions take it as a parameter [pow].  Closed examples instantiate it
      with [pow_ref].  Where a property is one of the power itself, it
      is stated for [power], the power that the specification writes.
    - The random source behind [math::RandInt] is a parameter too: the
      sequence of values its successive calls return. *)

From Stdlib Require Import ZArith List Bool Lia Floats Sorted.
From stdpp Require Import base list.
Import ListNotations.
Local Open Scope Z_scope.

#[local] Set Warnings "-inexact-float".

(** ** [size_t] *)

Module SizeT.

Definition modulus : Z := 2 ^ 64.

Definition wrap (z : Z) : Z := z mod modulus.

Definition add (a b : Z) : Z := wrap (a + b).
Definition sub (a b : Z) : Z := wrap (a - b).
Definition mul (a b : Z) : Z := wrap (a * b).

End SizeT.

(** ** [double] *)

Module Double.

(** [(double) z] for a [size_t] value [z]: rounding to nearest, ties to even. *)
Definition of_size_t (z : Z) : float :=
  SF2Prim (binary_normalize prec emax z 0 false).

(** [std::ceil]: exact on every double, the sign kept on a zero result. *)
Definition ceil (x : float) : float :=
  match Prim2SF x with
  | S754_finite s mx e =>
      if 0 <=? e then x
      else
        let v := cond_Zopp s (Zpos mx) in
        SF2Prim (binary_normalize prec emax (- ((- v) / 2 ^ (- e))) 0 s)
  | _ => x
  end.

(** The integer part of a finite double (truncation toward zero). *)
Definition trunc (x : float) : option Z :=
  match Prim2SF x with
  | S754_zero _ => Some 0
  | S754_finite s mx e =>
      Some (cond_Zopp s (if 0 <=? e then Zpos mx * 2 ^ e else Zpos mx / 2 ^ (- e)))
  | _ => None
  end.

(** [(size_t) x].  C++ defines the conversion only when the truncated value
    fits the type; elsewhere (too large, negative, infinite, NaN) the value
    the platform produces is [oor x]. *)
Definition to_size_t (oor : float -> Z) (x : float) : Z :=
  match trunc x with
  | Some z => if (0 <=? z) && (z <? SizeT.modulus) then z else SizeT.wrap (oor x)
  | None => SizeT.wrap (oor x)
  end.

(** The value taken for [oor] in closed examples; their conversions are all
    in range. *)
Definition oor_ref (x : float) : Z := 0.

(** [x^p] by binary exponentiation in double arithmetic. *)
Fixpoint pow_pos (x : float) (p : positive) : float :=
  match p with
  | xH => x
  | xO q => let y := pow_pos x q in (y * y)%float
  | xI q => let y := pow_pos x q in (x * (y * y))%float
  end.

(** A reference [pow] for the calls the source makes, whose exponent is a
    [size_t] converted to [double]: [pow x 0 = 1] for every [x] (C11 F.10.4.4),
    and [x^p] for an integer [p > 0].  It returns the exact power wherever
    every product of [pow_pos] is exact, and overflows to infinity or
    underflows to zero with it.  Other exponents are outside its domain. *)
Definition pow_ref (x y : float) : float :=
  match trunc y with
  | Some 0 => 1%float
  | Some (Zpos p) => if (y =? of_size_t (Zpos p))%float then pow_pos x p else nan
  | _ => nan
  end.

(** The whole number a double holds, when it holds one that is not
    negative: the exponents that the source passes to [std::pow]. *)
Definition whole (y : float) : option Z :=
  match Prim2SF y with
  | S754_zero _ => Some 0
  | S754_finite false m e =>
      if 0 <=? e then Some (Zpos m * 2 ^ e)
      else if Zpos m mod 2 ^ (- e) =? 0 then Some (Zpos m / 2 ^ (- e))
      else None
  | _ => None
  end.

(** The power [x^p] of a double, [p >= 1], computed exactly and rounded once
    to the nearest double, ties to even; a zero result is [+0]. *)
Definition exact_power (x : spec_float) (p : positive) : spec_float :=
  match x with
  | S754_zero _ => S754_zero false
  | S754_finite s m e =>
      binary_normalize prec emax (cond_Zopp s (Zpos m) ^ Zpos p) (e * Zpos p) false
  | S754_infinity s => S754_infinity (s && Z.odd (Zpos p))
  | S754_nan => S754_nan
  end.

(** Modelled from the spec: [std::pow] (the C library's, not among the
    sources) computes the power that the specification writes, as in
    "return 1 - (1 - eps)^m", in standard double precision: the mathematical
    power of the double [x] to the whole number [y], rounded once to the
    nearest double, with [x^0 = 1].  Other exponents are outside its
    domain. *)
Definition power (x y : float) : float :=
  match whole y with
  | Some 0 => 1%float
  | Some (Zpos p) => SF2Prim (exact_power (Prim2SF x) p)
  | _ => nan
  end.

End Double.

Import Double.

(** ** Loops *)

(** [for (size_t j = lo; j < hi; j++) acc = body(j, acc);] run for [cnt]
    iterations from [j].  The counter never wraps: [j < hi <= 2^64 - 1]
    whenever the body runs. *)
Fixpoint for_upto {A : Type} (cnt : nat) (j : Z) (body : Z -> A -> A) (acc : A) : A :=
  match cnt with
  | O => acc
  | S c => for_upto c (j + 1) body (body j acc)
  end.

Definition for_range {A : Type} (lo hi : Z) (body : Z -> A -> A) (acc : A) : A :=
  for_upto (Z.to_nat (hi - lo)) lo body acc.

(** ** ProbabilityModel and SampleSizeSolver *)

Section RAUtil.

Variable pow : float -> float -> float.
Variable oor : float -> Z.

(** The inner loop of [SuccessProbability] (lines 148-162):
    [for (size_t i = 2; i <= jTrans; i++)].  The source loop would not end
    for [jTrans = 2^64 - 1]; it is only reached with [jTrans <= m - 1] or
    [jTrans < k] when [k >= 1]. *)
Definition Choose (m jTrans : Z) : float :=
  for_range 2 (jTrans + 1)
    (fun i mCj => (mCj * of_size_t (SizeT.sub m (SizeT.sub i 1)) / of_size_t i)%float)
    (of_size_t m).

(** One pass of the summation loop (lines 145-166). *)
Definition sum_step (m : Z) (eps : float) (topHalf : bool) (j : Z) (sum : float) : float :=
  let jTrans := if topHalf then j else SizeT.sub m j in
  let mCj := Choose m jTrans in
  (sum + mCj * pow eps (of_size_t j) * pow (1 - eps) (of_size_t (SizeT.sub m j)))%float.

Definition SuccessProbability (n k m t : Z) : float :=
  if k =? 1 then
    if SizeT.sub n t <? m then 1%float
    else
      let eps := (of_size_t t / of_size_t n)%float in
      (1 - pow (1 - eps) (of_size_t m))%float
  else
    if m <? k then 0%float
    else if SizeT.sub (SizeT.add (SizeT.sub n t) k) 1 <? m then 1%float
    else
      let eps := (of_size_t t / of_size_t n)%float in
      let '(lb, ub, topHalf, sum) :=
        if SizeT.mul 2 k <? m
        then (1, k, true, pow (1 - eps) (of_size_t m))
        else (k, m, false, pow eps (of_size_t m)) in
      let sum := for_range lb ub (sum_step m eps topHalf) sum in
      if topHalf then (1 - sum)%float else sum.

(** The variables of [MinimumSamplesReqd] that its loop updates. *)
Record search_state : Type := mk_search
  { s_lb : Z; s_ub : Z; s_m : Z; s_done : bool }.

(** How one pass through the body of the [do ... while] leaves it. *)
Inductive control : Type :=
| Break (s : search_state)       (* [break] *)
| Continue (s : search_state)    (* [continue]: straight to the loop test *)
| Normal (s : search_state).     (* falls through to [m = (ub + lb) / 2] *)

(** Lines 45-73: the body of the loop up to, and without, line 74. *)
Definition loop_body (n k t : Z) (alpha : float) (s : search_state) : control :=
  let prob := SuccessProbability n k (s_m s) t in
  if (alpha <? prob)%float then
    if (prob - alpha <? 0.001)%float || (s_ub s <? SizeT.add (s_lb s) 2)
    then Break (mk_search (s_lb s) (s_ub s) (s_m s) true)
    else Normal (mk_search (s_lb s) (s_m s) (s_m s) (s_done s))
  else
    if (prob <? alpha)%float then
      if s_m s =? s_lb s
      then Continue (mk_search (s_lb s) (s_ub s) (SizeT.add (s_m s) 1) (s_done s))
      else Normal (mk_search (s_m s) (s_ub s) (s_m s) (s_done s))
    else Break (mk_search (s_lb s) (s_ub s) (s_m s) true).

(** Line 74. *)
Definition midpoint (s : search_state) : search_state :=
  mk_search (s_lb s) (s_ub s) (SizeT.add (s_ub s) (s_lb s) / 2) (s_done s).

(** One pass of the [do ... while (!done)] loop, lines 43-76: the state it
    leaves, and whether the loop goes round again. *)
Definition loop_pass (n k t : Z) (alpha : float) (s : search_state)
  : search_state * bool :=
  match loop_body n k t alpha s with
  | Break s' => (s', false)
  | Continue s' => (s', negb (s_done s'))
  | Normal s' => let s'' := midpoint s' in (s'', negb (s_done s''))
  end.

(** The loop; [None] when [fuel] passes do not reach its end. *)
Fixpoint do_while (fuel : nat) (n k t : Z) (alpha : float) (s : search_state)
  : option search_state :=
  match fuel with
  | O => None
  | S fuel' =>
      let (s', again) := loop_pass n k t alpha s in
      if again then do_while fuel' n k t alpha s' else Some s'
  end.

(** What a call of [MinimumSamplesReqd] comes to. *)
Inductive outcome : Type :=
| Returned (r : Z)
| AssertFailed
| OutOfFuel.

(** Modelled from the spec: [Log::Assert] (mlpack's core/util/log.hpp, not
    among the sources) is a fatal assertion: when its condition is false the
    operation aborts and produces no result. *)
Definition Log_Assert (condition : bool) (rest : outcome) : outcome :=
  if condition then rest else AssertFailed.

(** Line 30. *)
Definition rank_window (n : Z) (tau : float) : Z :=
  to_size_t oor (ceil (tau * of_size_t n / 100)%float).

Definition MinimumSamplesReqd (fuel : nat) (n k : Z) (tau alpha : float) : outcome :=
  let ub := n in
  let lb := k in
  let m := lb in
  let t := rank_window n tau in
  Log_Assert (alpha <=? 1)%float
    match do_while fuel n k t alpha (mk_search lb ub m false) with
    | Some s => Returned (Z.min (SizeT.add (s_m s) 1) n)
    | None => OutOfFuel
    end.

End RAUtil.

(** ** The operations as the specification words them

    Integers are the mathematical ones here: nothing wraps. *)

Section Specification.

Variable pow : float -> float -> float.
Variable oor : float -> Z.

(** [C(m, j)]: "an incremental multiplicative running product over
    [min(j, m - j)] terms". *)
Definition binomial_spec (m j : Z) : float :=
  fold_left
    (fun c i => (c * of_size_t (m - (i - 1)) / of_size_t i)%float)
    (seqZ 2 (Z.min j (m - j) - 1))
    (of_size_t m).

(** The term [C(m,j) eps^j (1 - eps)^(m-j)] of the binomial tail. *)
Definition tail_term (m : Z) (eps : float) (j : Z) : float :=
  (binomial_spec m j * pow eps (of_size_t j) * pow (1 - eps) (of_size_t (m - j)))%float.

(** The terms [j = lo .. hi - 1] added, in this order, to [first]. *)
Definition tail_sum (m : Z) (eps : float) (lo hi : Z) (first : float) : float :=
  fold_left (fun sum j => (sum + tail_term m eps j)%float) (seqZ lo (hi - lo)) first.

Definition SuccessProbability_spec (n k m t : Z) : float :=
  let eps := (of_size_t t / of_size_t n)%float in
  if k =? 1 then
    if n - t <? m then 1%float
    else (1 - pow (1 - eps) (of_size_t m))%float
  else
    if m <? k then 0%float
    else if n - t + k - 1 <? m then 1%float
    else if 2 * k <? m
      then (1 - tail_sum m eps 1 k (pow (1 - eps) (of_size_t m)))%float
      else tail_sum m eps k m (pow eps (of_size_t m)).

(** The test of the step "if prob == alpha, exit", read literally. *)
Definition equal_exit (prob alpha : float) : bool := (prob =? alpha)%float.


(** The same step as the source has it: an [else] after [prob > alpha] and
    [prob < alpha], taken as well when the two do not compare (a NaN). *)
Definition else_exit (prob alpha : float) : bool :=
  negb (alpha <? prob)%float && negb (prob <? alpha)%float.

(** The search loop in the specification's words, on [lb], [ub] and [m];
    [exit_test] is the test of its step "if prob == alpha, exit". *)
Fixpoint search_spec (exit_test : float -> float -> bool) (fuel : nat)
    (n k t : Z) (alpha : float) (lb ub m : Z) : option Z :=
  match fuel with
  | O => None
  | S fuel' =>
      let prob := SuccessProbability pow n k m t in
      if (alpha <? prob)%float then
        if (prob - alpha <? 0.001)%float || (ub <? lb + 2) then Some m
        else search_spec exit_test fuel' n k t alpha lb m ((m + lb) / 2)
      else if (prob <? alpha)%float then
        if m =? lb then search_spec exit_test fuel' n k t alpha lb ub (m + 1)
        else search_spec exit_test fuel' n k t alpha m ub ((ub + m) / 2)
      else if exit_test prob alpha then Some m
      else search_spec exit_test fuel' n k t alpha lb ub ((ub + lb) / 2)
  end.

Definition MinimumSamplesReqd_spec (exit_test : float -> float -> bool) (fuel : nat)
    (n k : Z) (tau alpha : float) : outcome :=
  match search_spec exit_test fuel n k (rank_window oor n tau) alpha k n k with
  | Some m => Returned (Z.min (m + 1) n)
  | None => OutOfFuel
  end.

End Specification.

(** ** The binomial coefficient

    [C(m, j)] by Pascal's rule: the number that the running product of
    [Choose] is compared with. *)

Fixpoint binomial (m j : nat) {struct m} : Z :=
  match j, m with
  | O, _ => 1
  | S _, O => 0
  | S j', S m' => binomial m' j' + binomial m' j
  end.

(** The binomial tail with the coefficients themselves, converted to
    [double]: the term [C(m,j) eps^j (1 - eps)^(m-j)], and the terms
    [j = lo .. hi - 1] added, in this order, to [first]. *)

Section Binomial_tail.

Variable pow : float -> float -> float.

Definition exact_term (m : Z) (eps : float) (j : Z) : float :=
  (of_size_t (binomial (Z.to_nat m) (Z.to_nat j))
   * pow eps (of_size_t j) * pow (1 - eps) (of_size_t (m - j)))%float.

Definition exact_sum (m : Z) (eps : float) (lo hi : Z) (first : float) : float :=
  fold_left (fun sum j => (sum + exact_term m eps j)%float) (seqZ lo (hi - lo)) first.

End Binomial_tail.

(** ** Invariants of the search loop *)

Section Invariants.

Variable pow : float -> float -> float.
Variables (n k t : Z) (alpha : float).

(** What keeps the [size_t] arithmetic of the loop from wrapping: nothing
    exceeds [max n k + 1], and a bound is that large only with the probability
    there on its side of [alpha]. *)
Definition search_inv (lb ub m : Z) : Prop :=
  let B := Z.max n k in
  0 <= lb <= B + 1 /\ 0 <= ub <= B + 1 /\ 0 <= m <= B + 1
  /\ (m = B + 1 -> lb = B)
  /\ (lb = B + 1 -> (SuccessProbability pow n k (B + 1) t <? alpha)%float = true)
  /\ (ub = B + 1 -> (alpha <? SuccessProbability pow n k (B + 1) t)%float = true).

(** The bisection proper: [m] between the bounds, strictly below [ub] while
    the interval is open, and [ub] either [n] or a candidate found above
    [alpha]. *)
Definition bisect_inv (lb ub m : Z) : Prop :=
  k <= lb <= m /\ m <= ub <= n
  /\ (m < ub \/ ub <= lb + 1)
  /\ (ub = n \/ (alpha <? SuccessProbability pow n k ub t)%float = true).

(** It decreases at every pass that does not leave the loop. *)
Definition bisect_measure (lb ub m : Z) : nat :=
  Z.to_nat (2 * (ub - lb) + (if m =? lb then 1 else 0)).

(** What the bounds record: [lb] is [k] or a candidate found below [alpha],
    which it is whenever [m] has left it; and [m] lies between the bounds, or
    one past [lb], or, after the step past [lb = ub], at [ub] below
    [lb = ub + 1]. *)
Definition tight_inv (lb ub m : Z) : Prop :=
  (lb = k \/ (SuccessProbability pow n k lb t <? alpha)%float = true)
  /\ (m <> lb -> (SuccessProbability pow n k lb t <? alpha)%float = true)
  /\ ((lb <= m /\ lb <= ub /\ (m <= ub \/ m = lb + 1))
      \/ (lb = ub + 1 /\ m = ub
          /\ (SuccessProbability pow n k m t <? alpha)%float = true)).

(** How close to the least sufficient candidate the loop ends: at [m] it
    left by the [else], or within the tolerance, or [m] is the first
    candidate, or the candidate before [m] is below [alpha]. *)
Definition tight (m : Z) : Prop :=
  (alpha <? SuccessProbability pow n k m t)%float = false
  \/ (SuccessProbability pow n k m t - alpha <? 0.001)%float = true
  \/ m = k
  \/ (SuccessProbability pow n k (m - 1) t <? alpha)%float = true.

End Invariants.

(** ** Sampler *)

(** Modelled from the spec: [math::RandInt] (mlpack's core/math/random.hpp,
    not among the sources) draws a uniform random integer in
    [[0, hiExclusive)].  [RandInt i hi] is the value its [i]-th call returns
    when called with [hi]. *)
Definition RandInt_contract (RandInt : nat -> Z -> Z) : Prop :=
  forall (i : nat) (hi : Z), 0 < hi -> 0 <= RandInt i hi < hi.

Section Sampler.

Variable RandInt : nat -> Z -> Z.

(** [v.zeros(len)]. *)
Definition zeros (len : Z) : list Z := replicate (Z.to_nat len) 0.

(** [v[idx]++] on a vector of [size_t]; [None] where [idx] is outside the
    vector (armadillo's [operator[]] checks no bounds: the write is
    undefined). *)
Definition increment (idx : Z) (v : list Z) : option (list Z) :=
  match v !! Z.to_nat idx with
  | Some c => Some (<[Z.to_nat idx := SizeT.add c 1]> v)
  | None => None
  end.

(** Lines 184-185: [cnt] passes of the loop from its [i]-th. *)
Fixpoint tally (rangeUpperBound : Z) (cnt i : nat) (sampledPoints : list Z)
  : option (list Z) :=
  match cnt with
  | O => Some sampledPoints
  | S cnt' =>
      match increment (SizeT.wrap (RandInt i rangeUpperBound)) sampledPoints with
      | Some v => tally rangeUpperBound cnt' (S i) v
      | None => None
      end
  end.

(** [arma::find(v > 0)]: the indices of the positive elements, ascending;
    [i] is the index of the head of [v]. *)
Fixpoint find_positive (i : Z) (v : list Z) : list Z :=
  match v with
  | [] => []
  | c :: v' => if 0 <? c then i :: find_positive (i + 1) v' else find_positive (i + 1) v'
  end.

(** [distinctSamples] is the vector the caller passes by reference; the
    result is its contents after the call. *)
Definition ObtainDistinctSamples (numSamples rangeUpperBound : Z)
    (distinctSamples : list Z) : option (list Z) :=
  let sampledPoints := zeros rangeUpperBound in
  match tally rangeUpperBound (Z.to_nat numSamples) 0 sampledPoints with
  | Some sampledPoints =>
      let distinctSamples := find_positive 0 sampledPoints in
      Some distinctSamples
  | None => None
  end.

(** The tallies after [i] draws: each counts at most [i], and is positive
    exactly at the indices drawn. *)
Definition tallied (rangeUpperBound : Z) (i : nat) (v : list Z) : Prop :=
  length v = Z.to_nat rangeUpperBound
  /\ forall (x : nat) (c : Z), v !! x = Some c ->
       0 <= c <= Z.of_nat i
       /\ (0 < c <->
           exists j : nat, (j < i)%nat /\ Z.to_nat (RandInt j rangeUpperBound) = x).

End Sampler.

(** ** Rounding to nearest, ties to even

    The integers behind the proofs about double subtraction: a finite double
    [m * 2^e] is the integer [m * 2^(e + 1074)] in units of the smallest
    subnormal. *)

(** [N / 2^k] rounded to the nearest integer, ties to even. *)
Definition rne (N k : Z) : Z :=
  let q := N / 2 ^ k in
  let r := N mod 2 ^ k in
  if 2 * r <? 2 ^ k then q
  else if 2 ^ k <? 2 * r then q + 1
  else if Z.even q then q else q + 1.

(** The low bits that do not fit the 53 of a double. *)
Definition dropped (N : Z) : Z := Z.max (Z.log2 N + 1 - 53) 0.

(** [N] rounded to 53 significant bits. *)
Definition RNE (N : Z) : Z := rne N (dropped N) * 2 ^ dropped N.

Definition scaled (m : positive) (e : Z) : Z := Zpos m * 2 ^ (e + 1074).

(** The low bits dropped from [N] when the last bit kept is not below bit [c]. *)
Definition dropped_at (c N : Z) : Z := Z.max (Z.log2 N + 1 - 53) c.

(** [N] rounded to 53 significant bits and to a multiple of [2^c]. *)
Definition RNE_at (c N : Z) : Z := rne N (dropped_at c N) * 2 ^ dropped_at c N.

(** A double that is [+0] or positive, with its value [V] in units of
    [2^(-1074 - c)]. *)
Definition valued (x : float) (c V : Z) : Prop :=
  (Prim2SF x = S754_zero false /\ V = 0)
  \/ (exists (m : positive) (e : Z),
        Prim2SF x = S754_finite false m e /\ scaled m e * 2 ^ c = V).

(** What [k] shifts of [M] leave in a [shr_record]: the quotient, and in the
    round and sticky bits how the remainder compares with half of [2^k]. *)
Definition shifted (M k : Z) (mrs : shr_record) : Prop :=
  0 <= k
  /\ shr_m mrs = M / 2 ^ k
  /\ (shr_r mrs = true <-> 2 ^ k <= 2 * (M mod 2 ^ k))
  /\ (shr_s mrs = true <-> M mod 2 ^ k <> 0 /\ 2 * (M mod 2 ^ k) <> 2 ^ k).

(** The two bits below a truncated quotient that a [location] stands for:
    nothing, less than a half, a half, more than a half. *)
Definition loc_bits (l : location) : Z :=
  match l with
  | loc_Exact => 0
  | loc_Inexact Lt => 1
  | loc_Inexact Eq => 2
  | loc_Inexact Gt => 3
  end.

(** * Properties *)

(** ** [size_t] arithmetic that stays in range *)

Lemma modulus_eq : SizeT.modulus = 18446744073709551616.
Proof. reflexivity. Qed.

Lemma wrap_small (z : Z) : 0 <= z < SizeT.modulus -> SizeT.wrap z = z.
Proof. intros Hz. apply Z.mod_small. exact Hz. Qed.

(** [lia] with the quotients by constants spelled out. *)
Ltac div_lia := Z.to_euclidean_division_equations; lia.

(** Rewrites every wrapped operation whose exact result [lia] finds in range. *)
Ltac unwrap :=
  unfold SizeT.add, SizeT.sub, SizeT.mul;
  repeat match goal with
    | |- context [SizeT.wrap ?z] =>
        rewrite (wrap_small z) by (pose proof modulus_eq; lia)
    end.

(** The saturation bound of line 101, [n - t + k - 1]. *)
Lemma saturation_bound_exact (n t k : Z) :
  0 <= n - t < SizeT.modulus -> 1 <= n - t + k <= SizeT.modulus ->
  SizeT.sub (SizeT.add (SizeT.sub n t) k) 1 = n - t + k - 1.
Proof.
  intros Hnt Hk. unfold SizeT.sub at 2. rewrite (wrap_small (n - t)) by exact Hnt.
  unfold SizeT.sub, SizeT.add, SizeT.wrap.
  rewrite Zminus_mod_idemp_l. apply Z.mod_small. lia.
Qed.

(** ** Loops as folds *)

Lemma for_upto_fold {A : Type} (body : Z -> A -> A) (cnt : nat) :
  forall (j : Z) (acc : A),
    for_upto cnt j body acc
    = fold_left (fun a i => body i a) (seqZ j (Z.of_nat cnt)) acc.
Proof.
  induction cnt as [|cnt IH]; intros j acc.
  - rewrite seqZ_nil by lia. reflexivity.
  - rewrite seqZ_cons by lia. cbn [for_upto fold_left]. rewrite IH.
    do 2 f_equal; lia.
Qed.

Lemma for_range_fold {A : Type} (body : Z -> A -> A) (lo hi : Z) (acc : A) :
  for_range lo hi body acc
  = fold_left (fun a i => body i a) (seqZ lo (hi - lo)) acc.
Proof.
  unfold for_range. rewrite for_upto_fold.
  destruct (Z.le_gt_cases 0 (hi - lo)) as [Hle|Hgt].
  - rewrite Z2Nat.id by exact Hle. reflexivity.
  - rewrite (seqZ_nil lo (hi - lo)) by lia.
    rewrite seqZ_nil by lia. reflexivity.
Qed.

Lemma fold_left_seqZ_ext {A : Type} (f g : A -> Z -> A) (lo len : Z) (acc : A) :
  (forall a j, lo <= j < lo + len -> f a j = g a j) ->
  fold_left f (seqZ lo len) acc = fold_left g (seqZ lo len) acc.
Proof.
  intros Hfg.
  assert (Hin : Forall (fun j => lo <= j < lo + len) (seqZ lo len))
    by (apply Forall_seqZ; auto).
  revert acc. induction Hin as [|j l Hj _ IH]; intros acc; cbn [fold_left].
  - reflexivity.
  - rewrite (Hfg acc j Hj). apply IH.
Qed.

Lemma for_range_split {A : Type} (body : Z -> A -> A) (lo mid hi : Z) (acc : A) :
  lo <= mid <= hi ->
  for_range lo hi body acc = for_range mid hi body (for_range lo mid body acc).
Proof.
  intros Hm. rewrite !for_range_fold.
  replace (hi - lo) with ((mid - lo) + (hi - mid)) by lia.
  rewrite seqZ_app by lia. rewrite fold_left_app.
  replace (lo + (mid - lo)) with mid by lia.
  replace (mid - lo + (hi - mid) - (mid - lo)) with (hi - mid) by lia.
  reflexivity.
Qed.

(** ** Comparisons of doubles *)

Lemma SFcompare_antisym (x y : spec_float) :
  SFcompare y x = option_map CompOpp (SFcompare x y).
Proof.
  destruct x as [sx|sx| |sx mx ex], y as [sy|sy| |sy my ey]; cbn;
    repeat match goal with b : bool |- _ => destruct b end;
    cbn; try reflexivity.
  all: rewrite (Z.compare_antisym ex ey); destruct (ex ?= ey); cbn; try reflexivity.
  all: change (Pos.compare_cont Eq my mx) with (Pos.compare my mx);
    change (Pos.compare_cont Eq mx my) with (Pos.compare mx my);
    rewrite (Pos.compare_antisym mx my);
    destruct (Pos.compare mx my); reflexivity.
Qed.

Lemma ltb_asym (x y : float) : (x <? y)%float = true -> (y <? x)%float = false.
Proof.
  rewrite !ltb_spec. unfold SFltb. rewrite (SFcompare_antisym (Prim2SF x)).
  destruct (SFcompare (Prim2SF x) (Prim2SF y)) as [[]|]; cbn; congruence.
Qed.

Lemma leb_not_gt (x y : float) : (x <=? y)%float = true -> (y <? x)%float = false.
Proof.
  rewrite leb_spec, ltb_spec. unfold SFleb, SFltb.
  rewrite (SFcompare_antisym (Prim2SF x)).
  destruct (SFcompare (Prim2SF x) (Prim2SF y)) as [[]|]; cbn; congruence.
Qed.

Lemma ltb_not_ge (x y : float) : (x <? y)%float = true -> (y <=? x)%float = false.
Proof.
  rewrite leb_spec, ltb_spec. unfold SFleb, SFltb.
  rewrite (SFcompare_antisym (Prim2SF x)).
  destruct (SFcompare (Prim2SF x) (Prim2SF y)) as [[]|]; cbn; congruence.
Qed.

Lemma Prim2SF_one : Prim2SF 1 = S754_finite false 4503599627370496 (-52).
Proof. reflexivity. Qed.

Lemma Prim2SF_zero : Prim2SF 0 = S754_zero false.
Proof. reflexivity. Qed.

Lemma leb_nonneg_trans (x y : float) :
  (0 <=? x)%float = true -> (x <=? y)%float = true -> (0 <=? y)%float = true.
Proof.
  rewrite !leb_spec, Prim2SF_zero. unfold SFleb.
  destruct (Prim2SF x) as [sx|sx| |sx mx ex], (Prim2SF y) as [sy|sy| |sy my ey];
    cbn; repeat match goal with b : bool |- _ => destruct b end; cbn; congruence.
Qed.

(** ** Double subtraction from 1

    [1 - y] rounds the exact difference to nearest; the development below
    follows [SpecFloat]'s [binary_round] through its shifts to show that the
    result is antitone in [y] on [[0, 1]]. *)

(** *** Rounding of integers *)

Lemma pow2_pos (k : Z) : 0 <= k -> 0 < 2 ^ k.
Proof. intros. apply Z.pow_pos_nonneg; lia. Qed.

Lemma rne_bounds (N k : Z) : 0 <= k -> N / 2 ^ k <= rne N k <= N / 2 ^ k + 1.
Proof.
  intros Hk. unfold rne.
  destruct (2 * (N mod 2 ^ k) <? 2 ^ k); [lia|].
  destruct (2 ^ k <? 2 * (N mod 2 ^ k)); [lia|].
  destruct (Z.even (N / 2 ^ k)); lia.
Qed.

Lemma rne_mono (N1 N2 k : Z) : 0 <= k -> N1 <= N2 -> rne N1 k <= rne N2 k.
Proof.
  intros Hk Hle. pose proof (pow2_pos k Hk) as Hp.
  assert (Hq : N1 / 2 ^ k <= N2 / 2 ^ k) by (apply Z.div_le_mono; lia).
  destruct (Z.eq_dec (N1 / 2 ^ k) (N2 / 2 ^ k)) as [E|E].
  - assert (Hr : N1 mod 2 ^ k <= N2 mod 2 ^ k).
    { rewrite !Z.mod_eq by lia. rewrite E. lia. }
    unfold rne. rewrite E.
    destruct (Z.ltb_spec (2 * (N1 mod 2 ^ k)) (2 ^ k)),
             (Z.ltb_spec (2 * (N2 mod 2 ^ k)) (2 ^ k)),
             (Z.ltb_spec (2 ^ k) (2 * (N1 mod 2 ^ k))),
             (Z.ltb_spec (2 ^ k) (2 * (N2 mod 2 ^ k)));
      destruct (Z.even (N2 / 2 ^ k)); lia.
  - pose proof (rne_bounds N1 k Hk). pose proof (rne_bounds N2 k Hk). lia.
Qed.

Lemma rne_exact (N k : Z) : 0 <= k -> N mod 2 ^ k = 0 -> rne N k = N / 2 ^ k.
Proof.
  intros Hk Hr. pose proof (pow2_pos k Hk). unfold rne. rewrite Hr.
  destruct (Z.ltb_spec (2 * 0) (2 ^ k)); [reflexivity | lia].
Qed.

Lemma rne_scale (N k a : Z) : 0 <= k -> 0 <= a -> rne (N * 2 ^ a) (k + a) = rne N k.
Proof.
  intros Hk Ha. pose proof (pow2_pos k Hk). pose proof (pow2_pos a Ha).
  unfold rne. rewrite Z.pow_add_r by lia.
  rewrite Z.div_mul_cancel_r by lia.
  rewrite Z.mul_mod_distr_r by lia.
  replace (2 * (N mod 2 ^ k * 2 ^ a)) with ((2 * (N mod 2 ^ k)) * 2 ^ a) by ring.
  assert (E1 : ((2 * (N mod 2 ^ k)) * 2 ^ a <? 2 ^ k * 2 ^ a) = (2 * (N mod 2 ^ k) <? 2 ^ k)).
  { destruct (Z.ltb_spec (2 * (N mod 2 ^ k)) (2 ^ k)), (Z.ltb_spec ((2 * (N mod 2 ^ k)) * 2 ^ a) (2 ^ k * 2 ^ a)); try reflexivity; nia. }
  assert (E2 : (2 ^ k * 2 ^ a <? (2 * (N mod 2 ^ k)) * 2 ^ a) = (2 ^ k <? 2 * (N mod 2 ^ k))).
  { destruct (Z.ltb_spec (2 ^ k) (2 * (N mod 2 ^ k))), (Z.ltb_spec (2 ^ k * 2 ^ a) ((2 * (N mod 2 ^ k)) * 2 ^ a)); try reflexivity; nia. }
  rewrite E1, E2. reflexivity.
Qed.

Lemma rne_0 (N : Z) : rne N 0 = N.
Proof. rewrite rne_exact by (try lia; apply Z.mod_1_r). apply Z.div_1_r. Qed.

(** The rounded value of [N] lies in the binade of [N]. *)
Lemma RNE_binade (N : Z) :
  0 < N -> 2 ^ Z.log2 N <= RNE N <= 2 ^ (Z.log2 N + 1).
Proof.
  intros HN. pose proof (Z.log2_spec N HN) as [Hlo Hhi].
  pose proof (Z.log2_nonneg N) as HL.
  unfold RNE, dropped.
  destruct (Z.max_spec (Z.log2 N + 1 - 53) 0) as [[Hs ->]|[Hs ->]].
  - rewrite rne_0, Z.pow_0_r, Z.mul_1_r. unfold Z.succ in Hhi. lia.
  - set (s := Z.log2 N + 1 - 53) in *.
    pose proof (pow2_pos s Hs) as Hp.
    pose proof (rne_bounds N s Hs) as [Hq Hq'].
    assert (E1 : 2 ^ Z.log2 N = 2 ^ 52 * 2 ^ s)
      by (rewrite <- Z.pow_add_r by lia; f_equal; unfold s; lia).
    assert (E2 : 2 ^ (Z.log2 N + 1) = 2 ^ 53 * 2 ^ s)
      by (rewrite <- Z.pow_add_r by lia; f_equal; unfold s; lia).
    assert (Hq1 : 2 ^ 52 <= N / 2 ^ s)
      by (apply Z.div_le_lower_bound; lia).
    assert (Hq2 : N / 2 ^ s < 2 ^ 53).
    { apply Z.div_lt_upper_bound; [lia|]. unfold Z.succ in Hhi. lia. }
    rewrite E1, E2. split; apply Z.mul_le_mono_nonneg_r; lia.
Qed.

Lemma RNE_mono (N1 N2 : Z) : 0 < N1 -> N1 <= N2 -> RNE N1 <= RNE N2.
Proof.
  intros H1 Hle.
  pose proof (Z.log2_le_mono N1 N2 Hle) as HL.
  destruct (Z.eq_dec (Z.log2 N1) (Z.log2 N2)) as [E|E].
  - unfold RNE, dropped. rewrite E.
    apply Z.mul_le_mono_nonneg_r; [apply Z.lt_le_incl, pow2_pos; lia|].
    apply rne_mono; lia.
  - pose proof (RNE_binade N1 H1) as [_ Hup].
    pose proof (RNE_binade N2 ltac:(lia)) as [Hlow _].
    assert (2 ^ (Z.log2 N1 + 1) <= 2 ^ Z.log2 N2)
      by (apply Z.pow_le_mono_r; lia).
    lia.
Qed.

(** *** The shift with round and sticky bits *)

Lemma shr_1_nonneg (m : Z) (r s : bool) :
  0 <= m ->
  shr_1 (Build_shr_record m r s) = Build_shr_record (m / 2) (Z.odd m) (r || s).
Proof.
  intros Hm. destruct m as [|[p|p|]|p]; try lia; cbn [shr_1 Z.odd].
  - reflexivity.
  - f_equal. rewrite Pos2Z.inj_xI. div_lia.
  - f_equal. rewrite Pos2Z.inj_xO. div_lia.
  - reflexivity.
Qed.

Lemma shifted_0 (M : Z) : shifted M 0 (Build_shr_record M false false).
Proof.
  unfold shifted. cbn [shr_m shr_r shr_s]. rewrite Z.pow_0_r, Z.div_1_r, Z.mod_1_r.
  repeat split; try lia; intros; try discriminate; lia.
Qed.

Lemma shifted_step (M k : Z) (mrs : shr_record) :
  0 <= M -> shifted M k mrs -> shifted M (k + 1) (shr_1 mrs).
Proof.
  intros HM (Hk & Hm & Hr & Hs). destruct mrs as [m r s]. cbn [shr_m shr_r shr_s] in *.
  pose proof (pow2_pos k Hk) as Hp.
  assert (Hm0 : 0 <= m) by (subst m; apply Z.div_pos; lia).
  rewrite (shr_1_nonneg m r s Hm0). unfold shifted. cbn [shr_m shr_r shr_s].
  assert (Epow : 2 ^ (k + 1) = 2 ^ k * 2) by (rewrite Z.pow_add_r by lia; reflexivity).
  assert (Erem : M mod 2 ^ (k + 1) = M mod 2 ^ k + 2 ^ k * (m mod 2))
    by (rewrite Epow, Z.rem_mul_r by lia; subst m; reflexivity).
  pose proof (Z.mod_pos_bound M (2 ^ k) Hp) as Hrem.
  assert (Hbit : m mod 2 = 0 \/ m mod 2 = 1) by div_lia.
  assert (Hodd : Z.odd m = true <-> m mod 2 = 1).
  { rewrite Zodd_mod. destruct (Z.eqb_spec (m mod 2) 1); split; congruence. }
  split; [lia|]. split; [|split].
  - subst m. rewrite Epow, Z.div_div by lia. reflexivity.
  - rewrite Hodd, Erem, Epow. destruct Hbit as [-> | ->]; nia.
  - rewrite orb_true_iff, Hr, Hs, Erem, Epow. destruct Hbit as [-> | ->]; nia.
Qed.

Lemma shifted_iter (M : Z) (p : positive) :
  0 <= M ->
  forall (k : Z) (mrs : shr_record),
    shifted M k mrs -> shifted M (k + Zpos p) (SpecFloat.iter_pos shr_1 p mrs).
Proof.
  intros HM. induction p as [p IH|p IH|]; intros k mrs Hk; cbn [SpecFloat.iter_pos].
  - replace (k + Zpos p~1) with (k + 1 + Zpos p + Zpos p) by lia.
    apply IH, IH, shifted_step; assumption.
  - replace (k + Zpos p~0) with (k + Zpos p + Zpos p) by lia.
    apply IH, IH; assumption.
  - apply shifted_step; assumption.
Qed.

Lemma round_shifted (M k : Z) (mrs : shr_record) :
  shifted M k mrs ->
  round_nearest_even (shr_m mrs) (loc_of_shr_record mrs) = rne M k.
Proof.
  intros (Hk & Hm & Hr & Hs). destruct mrs as [m r s]. cbn [shr_m shr_r shr_s] in *.
  unfold rne. rewrite <- Hm.
  pose proof (pow2_pos k Hk) as Hp.
  pose proof (Z.mod_pos_bound M (2 ^ k) Hp) as Hrem.
  destruct (Z.ltb_spec (2 * (M mod 2 ^ k)) (2 ^ k)) as [Hlt|Hge].
  - assert (r = false) as -> by (destruct r; [|reflexivity]; lia).
    destruct s; reflexivity.
  - assert (r = true) as -> by (apply Hr; lia).
    destruct (Z.ltb_spec (2 ^ k) (2 * (M mod 2 ^ k))) as [Hgt|Hle].
    + assert (s = true) as -> by (apply Hs; lia). reflexivity.
    + assert (s = false) as -> by (destruct s; [|reflexivity]; lia).
      reflexivity.
Qed.

(** [shr] from an exact record. *)
Lemma shr_shifted (M e n : Z) :
  0 <= M ->
  shifted M (Z.max n 0) (fst (shr (Build_shr_record M false false) e n))
  /\ snd (shr (Build_shr_record M false false) e n) = e + Z.max n 0.
Proof.
  intros HM. destruct n as [|p|p]; cbn [shr fst snd].
  - split; [apply shifted_0 | lia].
  - replace (Z.max (Zpos p) 0) with (0 + Zpos p) by lia.
    split; [apply shifted_iter; [exact HM | apply shifted_0] | lia].
  - split; [apply shifted_0 | lia].
Qed.

Lemma shr_shifted_from (M k0 : Z) (mrs : shr_record) (e n : Z) :
  0 <= M -> shifted M k0 mrs ->
  shifted M (k0 + Z.max n 0) (fst (shr mrs e n))
  /\ snd (shr mrs e n) = e + Z.max n 0.
Proof.
  intros HM Hsh. destruct n as [|p|p]; cbn [shr fst snd].
  - rewrite Z.add_0_r. split; [exact Hsh | lia].
  - replace (Z.max (Zpos p) 0) with (Zpos p) by lia.
    split; [apply shifted_iter; assumption | reflexivity].
  - replace (Z.max (Z.neg p) 0) with 0 by lia. rewrite Z.add_0_r.
    split; [exact Hsh | lia].
Qed.

(** A location, as two more shifts of the mantissa it was cut from. *)
Lemma shifted_of_loc (Q : Z) (l : location) :
  shifted (4 * Q + loc_bits l) 2 (shr_record_of_loc Q l).
Proof.
  assert (H : forall c : Z, 0 <= c < 4 ->
                (4 * Q + c) / 2 ^ 2 = Q /\ (4 * Q + c) mod 2 ^ 2 = c)
    by (intros c Hc; change (2 ^ 2) with 4; div_lia).
  unfold shifted. change (2 ^ 2) with 4 in *.
  destruct l as [|[| |]]; cbn [loc_bits shr_record_of_loc shr_m shr_r shr_s].
  - destruct (H 0 ltac:(lia)) as [-> ->].
    repeat split; try lia; intros; try discriminate; lia.
  - destruct (H 2 ltac:(lia)) as [-> ->].
    repeat split; try lia; intros; try discriminate; lia.
  - destruct (H 1 ltac:(lia)) as [-> ->].
    repeat split; try lia; intros; try discriminate; lia.
  - destruct (H 3 ltac:(lia)) as [-> ->].
    repeat split; try lia; intros; try discriminate; lia.
Qed.

(** *** Digits and alignment *)

Lemma digits2_size (p : positive) : digits2_pos p = Pos.size p.
Proof. induction p as [p IH|p IH|]; cbn; congruence. Qed.

Lemma digits2_log2 (p : positive) : Zpos (digits2_pos p) = Z.log2 (Zpos p) + 1.
Proof.
  rewrite digits2_size. destruct p as [p|p|]; cbn [Pos.size Z.log2]; lia.
Qed.

Lemma fexp64 (z : Z) : fexp prec emax z = Z.max (z - 53) (-1074).
Proof. reflexivity. Qed.

Lemma iter_xO (m d : positive) : Zpos (Pos.iter xO m d) = Zpos m * 2 ^ Zpos d.
Proof.
  induction d as [|d IH] using Pos.peano_ind.
  - cbn [Pos.iter]. rewrite Pos2Z.inj_xO. lia.
  - rewrite Pos.iter_succ, Pos2Z.inj_xO, IH, Pos2Z.inj_succ, Z.pow_succ_r by lia. ring.
Qed.

Lemma shl_align_spec (m : positive) (e e' : Z) :
  snd (shl_align m e e') = Z.min e e'
  /\ Zpos (fst (shl_align m e e')) = Zpos m * 2 ^ (e - Z.min e e').
Proof.
  unfold shl_align. destruct (e' - e) as [|d|d] eqn:E; cbn [fst snd].
  - replace (Z.min e e') with e by lia. rewrite Z.sub_diag. split; lia.
  - replace (Z.min e e') with e by lia. rewrite Z.sub_diag. split; lia.
  - replace (Z.min e e') with e' by lia. split; [reflexivity|].
    rewrite iter_xO. do 2 f_equal. lia.
Qed.

Lemma log2_shift (M k : Z) : 0 < M -> 0 <= k -> Z.log2 (M * 2 ^ k) = Z.log2 M + k.
Proof. intros. rewrite Z.log2_mul_pow2 by lia. lia. Qed.

(** *** [binary_round] *)

(** [binary_round_aux] from a truncated mantissa [mx] whose record is what
    [k0] shifts leave of the exact positive mantissa [M]: a valid double,
    the value of [M] rounded to nearest even. *)
Lemma binary_round_aux_shifted (mx ex : Z) (lx : location) (M : positive) (e k0 : Z) :
  shifted (Zpos M) k0 (shr_record_of_loc mx lx) ->
  ex = e + k0 ->
  Zdigits2 mx + ex = Z.log2 (Zpos M) + 1 + e ->
  -1074 <= e ->
  ex <= Z.max (Z.log2 (Zpos M) + 1 + e - 53) (-1074) ->
  Z.log2 (Zpos M) + e <= 1022 ->
  exists (m' : positive) (e' : Z),
    binary_round_aux prec emax false mx ex lx = S754_finite false m' e'
    /\ valid_binary (S754_finite false m' e') = true
    /\ -1074 <= e'
    /\ scaled m' e' = RNE (scaled M e).
Proof.
  intros Hsh0 Hex Hdig He Hfe HL1.
  pose proof (Z.log2_nonneg (Zpos M)) as HL0.
  assert (Hk0 : 0 <= k0) by (destruct Hsh0; assumption).
  assert (HlogN : Z.log2 (scaled M e) = Z.log2 (Zpos M) + (e + 1074))
    by (apply log2_shift; lia).
  unfold binary_round_aux, shr_fexp.
  rewrite Hdig, fexp64.
  set (L := Z.log2 (Zpos M)) in *.
  set (fe := Z.max (L + 1 + e - 53) (-1074)) in *.
  destruct (shr_shifted_from (Zpos M) k0 (shr_record_of_loc mx lx) ex (fe - ex)
              ltac:(lia) Hsh0) as [Hsh1 He1].
  destruct (shr (shr_record_of_loc mx lx) ex (fe - ex)) as [mrs' e'].
  cbn [fst snd] in Hsh1, He1.
  replace (k0 + Z.max (fe - ex) 0) with (fe - e) in Hsh1 by lia.
  rewrite (round_shifted _ _ _ Hsh1).
  assert (He' : e' = fe) by lia. clear He1. subst e'.
  set (q := rne (Z.pos M) (fe - e)).
  set (j := L + 1 + e - fe).
  assert (Hj : 1 <= j <= 53) by (unfold j; lia).
  assert (Hqval : q * 2 ^ (fe + 1074) = RNE (scaled M e)).
  { unfold RNE, dropped. rewrite HlogN.
    replace (Z.max (L + (e + 1074) + 1 - 53) 0) with (fe + 1074) by lia.
    f_equal. unfold scaled.
    replace (fe + 1074) with ((fe - e) + (e + 1074)) by lia.
    rewrite rne_scale by lia. reflexivity. }
  assert (Hqb : 2 ^ (j - 1) <= q <= 2 ^ j).
  { pose proof (RNE_binade (scaled M e)) as Hb. rewrite <- Hqval, HlogN in Hb.
    assert (Hpos : 0 < scaled M e) by (unfold scaled; pose proof (pow2_pos (e + 1074)); nia).
    specialize (Hb Hpos).
    pose proof (pow2_pos (fe + 1074) ltac:(lia)) as Hp.
    replace (L + (e + 1074)) with ((j - 1) + (fe + 1074)) in Hb by (unfold j; lia).
    replace (j - 1 + (fe + 1074) + 1) with (j + (fe + 1074)) in Hb by lia.
    rewrite (Z.pow_add_r 2 (j - 1) (fe + 1074)), (Z.pow_add_r 2 j (fe + 1074)) in Hb by lia.
    nia. }
  pose proof (pow2_pos (j - 1) ltac:(lia)) as Hpj.
  destruct q as [|qp|qp] eqn:Eq; try lia.
  cbn [shr_record_of_loc Zdigits2]. rewrite fexp64, digits2_log2.
  assert (Hcases :
    exists n2 : Z,
      Z.max (Z.log2 (Z.pos qp) + 1 + fe - 53) (-1074) - fe = n2
      /\ ((n2 = 0) \/ (n2 = 1 /\ Z.pos qp = 2 ^ 53))).
  { eexists. split; [reflexivity|].
    destruct (Z.eq_dec (Z.pos qp) (2 ^ j)) as [E|E].
    - rewrite E, Z.log2_pow2 by lia.
      destruct (Z.eq_dec j 53) as [E53|E53].
      + right. split; [unfold j in *; lia | rewrite E53; reflexivity].
      + left. unfold j in *. lia.
    - left. rewrite (Z.log2_unique (Z.pos qp) (j - 1)); [unfold j in *; lia | lia |].
      replace (Z.succ (j - 1)) with j by lia. lia. }
  destruct Hcases as (n2 & Hn2eq & Hn2).
  rewrite Hn2eq.
  destruct (shr_shifted (Z.pos qp) fe n2 ltac:(lia)) as [Hsh2 He2].
  destruct (shr (Build_shr_record (Z.pos qp) false false) fe n2) as [mrs'' e''].
  cbn [fst snd] in Hsh2, He2. destruct Hsh2 as (_ & Hm2 & _).
  rewrite Hm2. subst e''.
  destruct Hn2 as [-> | [-> Eqp]].
  - cbn [Z.max Z.compare]. rewrite Z.pow_0_r, Z.div_1_r, Z.add_0_r.
    replace (fe <=? emax - prec) with true
      by (symmetry; apply Z.leb_le; unfold emax, prec; lia).
    exists qp, fe. split; [reflexivity|]. split; [|split; [lia | exact Hqval]].
    cbn [valid_binary]. unfold bounded, canonical_mantissa.
    rewrite fexp64, digits2_log2.
    apply andb_true_iff. split; [apply Z.eqb_eq; lia|].
    apply Z.leb_le. unfold emax, prec. lia.
  - rewrite Eqp. change (2 ^ 53 / 2 ^ Z.max 1 0) with (Z.pos 4503599627370496).
    change (Z.max 1 0) with 1.
    replace (fe + 1 <=? emax - prec) with true
      by (symmetry; apply Z.leb_le; unfold emax, prec; lia).
    exists 4503599627370496%positive, (fe + 1). split; [reflexivity|].
    split; [|split; [lia|]].
    + cbn [valid_binary]. unfold bounded, canonical_mantissa.
      rewrite fexp64, digits2_log2.
      change (Z.log2 (Z.pos 4503599627370496)) with 52.
      apply andb_true_iff. split; [apply Z.eqb_eq; lia|].
      apply Z.leb_le. unfold emax, prec. lia.
    + rewrite <- Hqval, Eqp. unfold scaled.
      replace (fe + 1 + 1074) with (1 + (fe + 1074)) by lia.
      rewrite Z.pow_add_r by lia. change (2 ^ 53) with (4503599627370496 * 2 ^ 1). ring.
Qed.

(** From an exact mantissa. *)
Lemma binary_round_aux_RNE (M : positive) (e : Z) :
  -1074 <= e ->
  e <= fexp prec emax (Zpos (digits2_pos M) + e) ->
  Z.log2 (Zpos M) + e <= 1022 ->
  exists (m' : positive) (e' : Z),
    binary_round_aux prec emax false (Zpos M) e loc_Exact = S754_finite false m' e'
    /\ valid_binary (S754_finite false m' e') = true
    /\ -1074 <= e'
    /\ scaled m' e' = RNE (scaled M e).
Proof.
  intros He Hfe HL. rewrite fexp64, digits2_log2 in Hfe.
  apply (binary_round_aux_shifted (Zpos M) e loc_Exact M e 0).
  - apply shifted_0.
  - lia.
  - cbn [Zdigits2]. rewrite digits2_log2. reflexivity.
  - exact He.
  - exact Hfe.
  - exact HL.
Qed.

(** From a truncated quotient [Q] and the location of what was cut off. *)
Lemma binary_round_aux_loc (Q : positive) (e : Z) (l : location) (M : positive) :
  Zpos M = 4 * Zpos Q + loc_bits l ->
  -1072 <= e ->
  e <= fexp prec emax (Zpos (digits2_pos Q) + e) ->
  Z.log2 (Zpos Q) + e <= 1022 ->
  exists (m' : positive) (e' : Z),
    binary_round_aux prec emax false (Zpos Q) e l = S754_finite false m' e'
    /\ valid_binary (S754_finite false m' e') = true
    /\ scaled m' e' = RNE (scaled M (e - 2)).
Proof.
  intros HM He Hfe HL. rewrite fexp64, digits2_log2 in Hfe.
  assert (Hbits : 0 <= loc_bits l <= 3) by (destruct l as [|[| |]]; cbn; lia).
  assert (HlogM : Z.log2 (Zpos M) = Z.log2 (Zpos Q) + 2).
  { rewrite HM. apply Z.log2_unique; [pose proof (Z.log2_nonneg (Zpos Q)); lia|].
    pose proof (Z.log2_spec (Zpos Q) ltac:(lia)) as [Hlo Hhi].
    rewrite Z.pow_add_r by (try apply Z.log2_nonneg; lia).
    replace (Z.succ (Z.log2 (Z.pos Q) + 2)) with (Z.succ (Z.log2 (Z.pos Q)) + 2) by lia.
    rewrite Z.pow_add_r by (pose proof (Z.log2_nonneg (Zpos Q)); lia).
    change (2 ^ 2) with 4. lia. }
  destruct (binary_round_aux_shifted (Zpos Q) e l M (e - 2) 2)
    as (m' & e' & Hr & Hv & _ & Hs).
  - rewrite HM. apply shifted_of_loc.
  - lia.
  - cbn [Zdigits2]. rewrite digits2_log2, HlogM. lia.
  - lia.
  - rewrite HlogM. lia.
  - rewrite HlogM. lia.
  - exists m', e'. repeat split; assumption.
Qed.

Lemma binary_round_aux_scaled (M : positive) (e : Z) :
  -1074 <= e ->
  e <= fexp prec emax (Zpos (digits2_pos M) + e) ->
  scaled M e <= 2 ^ 1074 ->
  exists (m' : positive) (e' : Z),
    binary_round_aux prec emax false (Zpos M) e loc_Exact = S754_finite false m' e'
    /\ -1074 <= e' /\ scaled m' e' = RNE (scaled M e).
Proof.
  intros He Hfe Hle.
  pose proof (Z.log2_nonneg (Zpos M)) as HL0.
  assert (HL1 : Z.log2 (Zpos M) + e <= 1022).
  { apply Z.log2_le_mono in Hle.
    unfold scaled in Hle. rewrite log2_shift, Z.log2_pow2 in Hle; lia. }
  destruct (binary_round_aux_RNE M e He Hfe HL1) as (m' & e' & Hr & _ & He' & Hs).
  exists m', e'. repeat split; assumption.
Qed.

Lemma binary_round_scaled (M : positive) (e : Z) :
  -1074 <= e ->
  scaled M e <= 2 ^ 1074 ->
  exists (m' : positive) (e' : Z),
    binary_round prec emax false M e = S754_finite false m' e'
    /\ -1074 <= e' /\ scaled m' e' = RNE (scaled M e).
Proof.
  intros He Hle. unfold binary_round.
  destruct (shl_align_spec M e (fexp prec emax (Zpos (digits2_pos M) + e)))
    as [Hsnd Hfst].
  destruct (shl_align M e (fexp prec emax (Zpos (digits2_pos M) + e))) as [M1 e1].
  cbn [fst snd] in Hsnd, Hfst.
  rewrite fexp64, digits2_log2 in Hsnd, Hfst.
  pose proof (Z.log2_nonneg (Zpos M)) as HL0.
  assert (Hsame : scaled M1 e1 = scaled M e).
  { unfold scaled. rewrite Hfst, <- Z.mul_assoc, <- Z.pow_add_r by lia.
    do 2 f_equal. lia. }
  rewrite <- Hsame. apply binary_round_aux_scaled; [lia | | rewrite Hsame; exact Hle].
  rewrite fexp64, digits2_log2, Hfst, log2_shift by lia. lia.
Qed.

Lemma binary_round_RNE (M : positive) (e : Z) :
  -1074 <= e ->
  Z.log2 (Zpos M) + e <= 1022 ->
  exists (m' : positive) (e' : Z),
    binary_round prec emax false M e = S754_finite false m' e'
    /\ valid_binary (S754_finite false m' e') = true
    /\ -1074 <= e'
    /\ scaled m' e' = RNE (scaled M e).
Proof.
  intros He Hle. unfold binary_round.
  destruct (shl_align_spec M e (fexp prec emax (Zpos (digits2_pos M) + e)))
    as [Hsnd Hfst].
  destruct (shl_align M e (fexp prec emax (Zpos (digits2_pos M) + e))) as [M1 e1].
  cbn [fst snd] in Hsnd, Hfst.
  rewrite fexp64, digits2_log2 in Hsnd, Hfst.
  pose proof (Z.log2_nonneg (Zpos M)) as HL0.
  assert (Hsame : scaled M1 e1 = scaled M e).
  { unfold scaled. rewrite Hfst, <- Z.mul_assoc, <- Z.pow_add_r by lia.
    do 2 f_equal. lia. }
  rewrite <- Hsame. apply binary_round_aux_RNE; [lia | | ].
  - rewrite fexp64, digits2_log2, Hfst, log2_shift by lia. lia.
  - rewrite Hfst, log2_shift by lia. lia.
Qed.

(** *** Values below the smallest subnormal *)

(** Without a grid, [RNE]. *)
Lemma RNE_at_0 (N : Z) : RNE_at 0 N = RNE N.
Proof. reflexivity. Qed.

Lemma RNE_at_shift (c j N : Z) :
  0 <= c -> 0 <= j -> 0 < N -> RNE_at (c + j) (N * 2 ^ j) = RNE_at c N * 2 ^ j.
Proof.
  intros Hc Hj HN. unfold RNE_at, dropped_at. rewrite log2_shift by lia.
  replace (Z.max (Z.log2 N + j + 1 - 53) (c + j))
    with (Z.max (Z.log2 N + 1 - 53) c + j) by lia.
  rewrite rne_scale by lia. rewrite Z.pow_add_r by lia. ring.
Qed.

Lemma RNE_at_mono (c N1 N2 : Z) :
  0 <= c -> 0 < N1 -> N1 <= N2 -> RNE_at c N1 <= RNE_at c N2.
Proof.
  intros Hc H1 Hle.
  pose proof (Z.log2_le_mono N1 N2 Hle) as HL.
  pose proof (Z.log2_nonneg N1) as HL1.
  unfold RNE_at, dropped_at.
  set (d1 := Z.max (Z.log2 N1 + 1 - 53) c).
  set (d2 := Z.max (Z.log2 N2 + 1 - 53) c).
  destruct (Z.eq_dec d1 d2) as [E|E].
  - rewrite E. apply Z.mul_le_mono_nonneg_r; [apply Z.lt_le_incl, pow2_pos; lia|].
    apply rne_mono; lia.
  - assert (Hd : d1 < d2 /\ d2 = Z.log2 N2 - 52 /\ Z.log2 N1 < Z.log2 N2)
      by (unfold d1, d2 in *; lia).
    destruct Hd as (Hlt & Hd2 & Hlog).
    set (L2 := Z.log2 N2) in *.
    pose proof (Z.log2_spec N2 ltac:(lia)) as [Hlo2 _]. fold L2 in Hlo2.
    pose proof (Z.log2_spec N1 ltac:(lia)) as [_ Hhi1].
    assert (Hbelow : N1 <= 2 ^ L2).
    { assert (2 ^ Z.succ (Z.log2 N1) <= 2 ^ L2) by (apply Z.pow_le_mono_r; lia). lia. }
    assert (Hd1 : 0 <= d1) by (unfold d1; lia).
    pose proof (pow2_pos d1 Hd1) as Hp1. pose proof (pow2_pos d2 ltac:(lia)) as Hp2.
    assert (Esplit1 : 2 ^ L2 = 2 ^ (L2 - d1) * 2 ^ d1)
      by (rewrite <- Z.pow_add_r by lia; f_equal; lia).
    assert (Esplit2 : 2 ^ L2 = 2 ^ 52 * 2 ^ d2)
      by (rewrite <- Z.pow_add_r by lia; f_equal; lia).
    apply Z.le_trans with (2 ^ L2).
    + pose proof (rne_mono N1 (2 ^ L2) d1 Hd1 Hbelow) as Hr.
      rewrite (rne_exact (2 ^ L2) d1) in Hr;
        [| lia | rewrite Esplit1; apply Z.mod_mul; lia].
      rewrite Esplit1, Z.div_mul in Hr by lia.
      rewrite Esplit1. apply Z.mul_le_mono_nonneg_r; lia.
    + pose proof (rne_bounds N2 d2 ltac:(lia)) as [Hq _].
      assert (2 ^ 52 <= N2 / 2 ^ d2) by (apply Z.div_le_lower_bound; lia).
      rewrite Esplit2. apply Z.mul_le_mono_nonneg_r; lia.
Qed.

(** A power of two is not rounded. *)
Lemma RNE_at_pow2 (c G : Z) : 0 <= c -> c <= G -> RNE_at c (2 ^ G) = 2 ^ G.
Proof.
  intros Hc HG. unfold RNE_at, dropped_at. rewrite Z.log2_pow2 by lia.
  set (d := Z.max (G + 1 - 53) c).
  assert (Hd : 0 <= d <= G) by (unfold d; lia).
  pose proof (pow2_pos d ltac:(lia)) as Hp.
  assert (E : 2 ^ G = 2 ^ (G - d) * 2 ^ d)
    by (rewrite <- Z.pow_add_r by lia; f_equal; lia).
  rewrite rne_exact; [| lia | rewrite E; apply Z.mod_mul; lia].
  rewrite E at 1. rewrite Z.div_mul by lia. symmetry. exact E.
Qed.

(** [binary_round_aux] from an exact mantissa whose unit lies at or below
    the smallest subnormal: zero, or a valid double, the value rounded to
    nearest even on the grid of the doubles. *)
Lemma binary_round_aux_below (M : positive) (e : Z) :
  e <= -1074 ->
  Z.log2 (Zpos M) + e <= 1022 ->
  (RNE_at (-1074 - e) (Zpos M) = 0
   /\ binary_round_aux prec emax false (Zpos M) e loc_Exact = S754_zero false)
  \/ (exists (m' : positive) (e' : Z),
        binary_round_aux prec emax false (Zpos M) e loc_Exact = S754_finite false m' e'
        /\ valid_binary (S754_finite false m' e') = true
        /\ scaled m' e' * 2 ^ (-1074 - e) = RNE_at (-1074 - e) (Zpos M)).
Proof.
  intros He HL1.
  pose proof (Z.log2_nonneg (Zpos M)) as HL0.
  pose proof (Z.log2_spec (Zpos M) ltac:(lia)) as [HMlo HMhi].
  unfold binary_round_aux, shr_fexp. cbn [Zdigits2 shr_record_of_loc].
  rewrite digits2_log2, fexp64.
  unfold RNE_at, dropped_at.
  set (L := Z.log2 (Zpos M)) in *.
  set (fe := Z.max (L + 1 + e - 53) (-1074)).
  replace (Z.max (L + 1 - 53) (-1074 - e)) with (fe - e) by (unfold fe; lia).
  assert (Hd : 0 <= fe - e) by (unfold fe; lia).
  destruct (shr_shifted (Zpos M) e (fe - e) ltac:(lia)) as [Hsh1 He1].
  destruct (shr (Build_shr_record (Zpos M) false false) e (fe - e)) as [mrs' e'].
  cbn [fst snd] in Hsh1, He1.
  replace (Z.max (fe - e) 0) with (fe - e) in Hsh1, He1 by lia.
  rewrite (round_shifted _ _ _ Hsh1).
  assert (He' : e' = fe) by lia. clear He1. subst e'.
  set (q := rne (Z.pos M) (fe - e)).
  pose proof (pow2_pos (fe - e) Hd) as Hpd.
  pose proof (rne_bounds (Zpos M) (fe - e) Hd) as [Hq1 Hq2]. fold q in Hq1, Hq2.
  assert (Hquot : 0 <= Z.pos M / 2 ^ (fe - e) < 2 ^ 53).
  { split; [apply Z.div_pos; lia|]. apply Z.div_lt_upper_bound; [lia|].
    eapply Z.lt_le_trans; [exact HMhi|].
    rewrite <- Z.pow_add_r by lia. apply Z.pow_le_mono_r; unfold fe; lia. }
  assert (Hnormal : -1074 < fe -> 2 ^ 52 <= q).
  { intros Hfe. eapply Z.le_trans; [|exact Hq1]. apply Z.div_le_lower_bound; [lia|].
    eapply Z.le_trans; [|exact HMlo].
    rewrite <- Z.pow_add_r by lia. apply Z.pow_le_mono_r; unfold fe in *; lia. }
  assert (Hscale : forall x : Z, x * 2 ^ (fe + 1074) * 2 ^ (-1074 - e) = x * 2 ^ (fe - e)).
  { intros x. rewrite <- Z.mul_assoc, <- Z.pow_add_r by (unfold fe; lia).
    do 2 f_equal. lia. }
  destruct q as [|qp|qp] eqn:Eq; try lia.
  - (* the value is rounded to zero *)
    left. split; [reflexivity|].
    cbn [Zdigits2]. rewrite fexp64.
    destruct (shr_shifted 0 fe (Z.max (0 + fe - 53) (-1074) - fe) ltac:(lia)) as [Hsh2 _].
    destruct (shr (Build_shr_record 0 false false) fe (Z.max (0 + fe - 53) (-1074) - fe))
      as [mrs'' e''].
    cbn [fst] in Hsh2. destruct Hsh2 as (_ & Hm2 & _). rewrite Hm2.
    rewrite Z.div_0_l by (apply Z.pow_nonzero; lia). reflexivity.
  - right. cbn [Zdigits2]. rewrite fexp64, digits2_log2.
    assert (Hcases :
      exists n2 : Z,
        Z.max (Z.log2 (Z.pos qp) + 1 + fe - 53) (-1074) - fe = n2
        /\ ((n2 = 0 /\ Z.pos qp < 2 ^ 53) \/ (n2 = 1 /\ Z.pos qp = 2 ^ 53))).
    { eexists. split; [reflexivity|].
      destruct (Z.eq_dec (Z.pos qp) (2 ^ 53)) as [E|E].
      - right. rewrite E, Z.log2_pow2 by lia. split; [unfold fe; lia | reflexivity].
      - left. assert (Hlt : Z.pos qp < 2 ^ 53) by lia. split; [|exact Hlt].
        assert (Z.log2 (Z.pos qp) < 53) by (apply Z.log2_lt_pow2; lia).
        destruct (Z_le_gt_dec fe (-1074)) as [Hsub|Hnorm]; [unfold fe in *; lia|].
        specialize (Hnormal ltac:(lia)).
        assert (52 <= Z.log2 (Z.pos qp)) by (apply Z.log2_le_pow2; lia).
        lia. }
    destruct Hcases as (n2 & Hn2eq & Hn2).
    rewrite Hn2eq.
    destruct (shr_shifted (Z.pos qp) fe n2 ltac:(lia)) as [Hsh2 He2].
    destruct (shr (Build_shr_record (Z.pos qp) false false) fe n2) as [mrs'' e''].
    cbn [fst snd] in Hsh2, He2. destruct Hsh2 as (_ & Hm2 & _).
    rewrite Hm2. subst e''.
    destruct Hn2 as [[-> Hlt] | [-> Eqp]].
    + cbn [Z.max Z.compare]. rewrite Z.pow_0_r, Z.div_1_r, Z.add_0_r.
      replace (fe <=? emax - prec) with true
        by (symmetry; apply Z.leb_le; unfold emax, prec, fe; lia).
      exists qp, fe. split; [reflexivity|]. split; [|unfold scaled; apply Hscale].
      cbn [valid_binary]. unfold bounded, canonical_mantissa.
      rewrite fexp64, digits2_log2.
      apply andb_true_iff. split; [apply Z.eqb_eq; lia|].
      apply Z.leb_le. unfold emax, prec, fe. lia.
    + rewrite Eqp. change (2 ^ 53 / 2 ^ Z.max 1 0) with (Z.pos 4503599627370496).
      change (Z.max 1 0) with 1.
      replace (fe + 1 <=? emax - prec) with true
        by (symmetry; apply Z.leb_le; unfold emax, prec, fe; lia).
      exists 4503599627370496%positive, (fe + 1). split; [reflexivity|]. split.
      * cbn [valid_binary]. unfold bounded, canonical_mantissa.
        rewrite fexp64, digits2_log2.
        change (Z.log2 (Z.pos 4503599627370496)) with 52.
        apply andb_true_iff. split; [apply Z.eqb_eq; unfold fe; lia|].
        apply Z.leb_le. unfold emax, prec, fe. lia.
      * rewrite <- Hscale. unfold scaled. f_equal.
        replace (fe + 1 + 1074) with (1 + (fe + 1074)) by lia.
        rewrite Z.pow_add_r by (unfold fe; lia).
        change (2 ^ 53) with (4503599627370496 * 2 ^ 1). ring.
Qed.

(** [binary_round] of any positive value below the overflow threshold, in
    units of [2^(-G)] fine enough for the value and for the doubles. *)
Lemma binary_round_at (M : positive) (e G : Z) :
  1074 <= G -> 0 <= e + G ->
  Z.log2 (Zpos M) + e <= 1022 ->
  (RNE_at (G - 1074) (Zpos M * 2 ^ (e + G)) = 0
   /\ binary_round prec emax false M e = S754_zero false)
  \/ (exists (m' : positive) (e' : Z),
        binary_round prec emax false M e = S754_finite false m' e'
        /\ valid_binary (S754_finite false m' e') = true
        /\ scaled m' e' * 2 ^ (G - 1074) = RNE_at (G - 1074) (Zpos M * 2 ^ (e + G))).
Proof.
  intros HG HeG HL.
  destruct (Z_le_gt_dec (-1074) e) as [He|He].
  - right. destruct (binary_round_RNE M e He HL) as (m' & e' & Hr & Hv & _ & Hs).
    exists m', e'. split; [exact Hr|]. split; [exact Hv|].
    rewrite Hs, <- RNE_at_0.
    rewrite <- (RNE_at_shift 0 (G - 1074)) by
      (try lia; unfold scaled; pose proof (pow2_pos (e + 1074)); nia).
    f_equal. unfold scaled.
    rewrite <- Z.mul_assoc, <- Z.pow_add_r by lia. do 2 f_equal. lia.
  - assert (Eshift : RNE_at (G - 1074) (Zpos M * 2 ^ (e + G))
                     = RNE_at (-1074 - e) (Zpos M) * 2 ^ (e + G)).
    { rewrite <- RNE_at_shift by lia. f_equal. lia. }
    assert (Epow : 2 ^ (-1074 - e) * 2 ^ (e + G) = 2 ^ (G - 1074))
      by (rewrite <- Z.pow_add_r by lia; f_equal; lia).
    unfold binary_round.
    destruct (shl_align_spec M e (fexp prec emax (Zpos (digits2_pos M) + e)))
      as [Hsnd Hfst].
    destruct (shl_align M e (fexp prec emax (Zpos (digits2_pos M) + e))) as [M1 e1].
    cbn [fst snd] in Hsnd, Hfst.
    rewrite fexp64, digits2_log2 in Hsnd, Hfst.
    pose proof (Z.log2_nonneg (Zpos M)) as HL0.
    assert (e1 = e) as -> by lia.
    assert (M1 = M) as ->.
    { replace (Z.min e (Z.max (Z.log2 (Z.pos M) + 1 + e - 53) (-1074))) with e in Hfst by lia.
      rewrite Z.sub_diag, Z.pow_0_r, Z.mul_1_r in Hfst. congruence. }
    destruct (binary_round_aux_below M e ltac:(lia) HL)
      as [[Hz Hr] | (m' & e' & Hr & Hv & Hs)].
    + left. split; [|exact Hr]. rewrite Eshift, Hz. reflexivity.
    + right. exists m', e'. split; [exact Hr|]. split; [exact Hv|].
      rewrite Eshift, <- Hs, <- Epow. ring.
Qed.

(** *** Valid doubles and their order *)

Lemma valid_finite (s : bool) (m : positive) (e : Z) :
  valid_binary (S754_finite s m e) = true ->
  Z.max (Z.log2 (Zpos m) + 1 + e - 53) (-1074) = e /\ e <= 971.
Proof.
  cbn [SpecFloat.valid_binary]. unfold bounded, canonical_mantissa.
  rewrite andb_true_iff, Z.eqb_eq, Z.leb_le, fexp64, digits2_log2.
  unfold emax, prec. lia.
Qed.

Lemma scaled_bounds (s : bool) (m : positive) (e : Z) :
  valid_binary (S754_finite s m e) = true ->
  scaled m e < 2 ^ 53 * 2 ^ (e + 1074)
  /\ (-1074 < e -> 2 ^ 52 * 2 ^ (e + 1074) <= scaled m e).
Proof.
  intros Hv. apply valid_finite in Hv. destruct Hv as [Hcanon _].
  pose proof (Z.log2_spec (Zpos m) ltac:(lia)) as [Hlo Hhi].
  pose proof (Z.log2_nonneg (Zpos m)) as HL.
  pose proof (pow2_pos (e + 1074) ltac:(lia)) as Hp.
  unfold scaled. split.
  - apply Z.mul_lt_mono_pos_r; [exact Hp|].
    eapply Z.lt_le_trans; [exact Hhi|]. apply Z.pow_le_mono_r; lia.
  - intros Hnormal. apply Z.mul_le_mono_nonneg_r; [lia|].
    eapply Z.le_trans; [|exact Hlo]. apply Z.pow_le_mono_r; lia.
Qed.

Lemma scaled_lt (m1 m2 : positive) (e1 e2 : Z) :
  valid_binary (S754_finite false m1 e1) = true ->
  valid_binary (S754_finite false m2 e2) = true ->
  e1 < e2 -> scaled m1 e1 < scaled m2 e2.
Proof.
  intros H1 H2 Hlt.
  pose proof (valid_finite _ _ _ H1) as [Hc1 _].
  pose proof (scaled_bounds _ _ _ H1) as [Hup _].
  pose proof (scaled_bounds _ _ _ H2) as [_ Hlow].
  specialize (Hlow ltac:(lia)).
  assert (2 ^ 53 * 2 ^ (e1 + 1074) <= 2 ^ 52 * 2 ^ (e2 + 1074)).
  { change (2 ^ 53) with (2 ^ 52 * 2 ^ 1). rewrite <- Z.mul_assoc, <- Z.pow_add_r by lia.
    apply Z.mul_le_mono_nonneg_l; [lia|]. apply Z.pow_le_mono_r; lia. }
  lia.
Qed.

Lemma compare_scaled (m1 m2 : positive) (e1 e2 : Z) :
  valid_binary (S754_finite false m1 e1) = true ->
  valid_binary (S754_finite false m2 e2) = true ->
  SFcompare (S754_finite false m1 e1) (S754_finite false m2 e2)
  = Some (scaled m1 e1 ?= scaled m2 e2).
Proof.
  intros H1 H2. cbn [SFcompare]. f_equal.
  destruct (Z.compare_spec e1 e2) as [E|Hlt|Hgt].
  - subst e2. pose proof (valid_finite _ _ _ H1) as [Hc1 _].
    unfold scaled. pose proof (pow2_pos (e1 + 1074) ltac:(lia)) as Hp.
    change (Pos.compare_cont Eq m1 m2) with (Z.pos m1 ?= Z.pos m2).
    destruct (Z.compare_spec (Z.pos m1) (Z.pos m2)) as [E|Hlt|Hgt]; symmetry.
    + rewrite E. apply Z.compare_refl.
    + apply Z.compare_lt_iff. nia.
    + apply Z.compare_gt_iff. nia.
  - symmetry. apply Z.compare_lt_iff, scaled_lt; assumption.
  - symmetry. apply Z.compare_gt_iff, scaled_lt; assumption.
Qed.

(** *** Subtraction from 1 *)

Lemma scaled_one : scaled 4503599627370496 (-52) = 2 ^ 1074.
Proof. vm_compute. reflexivity. Qed.

Lemma RNE_one : RNE (2 ^ 1074) = 2 ^ 1074.
Proof. vm_compute. reflexivity. Qed.

Lemma valid_Prim2SF (x : float) (s : bool) (m : positive) (e : Z) :
  Prim2SF x = S754_finite s m e -> valid_binary (S754_finite s m e) = true.
Proof. intros <-. apply Prim2SF_valid. Qed.

(** The doubles of the interval [[0, 1]]. *)
Lemma unit_interval_cases (y : float) :
  (0 <=? y)%float = true -> (y <=? 1)%float = true ->
  (exists s : bool, Prim2SF y = S754_zero s)
  \/ (exists (m : positive) (e : Z),
        Prim2SF y = S754_finite false m e /\ scaled m e <= 2 ^ 1074).
Proof.
  rewrite !leb_spec, Prim2SF_zero, Prim2SF_one. unfold SFleb.
  destruct (Prim2SF y) as [s|s| |s m e] eqn:Ey.
  - intros _ _. left. exists s. reflexivity.
  - cbn. destruct s; discriminate.
  - cbn. discriminate.
  - intros H0 H1. destruct s; [cbn in H0; discriminate|].
    right. exists m, e. split; [reflexivity|].
    rewrite compare_scaled in H1;
      [| apply (valid_Prim2SF y), Ey | apply (valid_Prim2SF 1), Prim2SF_one].
    rewrite scaled_one in H1.
    destruct (Z.compare_spec (scaled m e) (2 ^ 1074)); [lia | lia | discriminate].
Qed.

Lemma sub_one_zero (y : float) (s : bool) :
  Prim2SF y = S754_zero s -> (1 - y)%float = 1%float.
Proof.
  intros Ey. apply Prim2SF_inj. rewrite sub_spec, Ey, Prim2SF_one. reflexivity.
Qed.

Lemma sub_one_finite (y : float) (m : positive) (e : Z) :
  Prim2SF y = S754_finite false m e ->
  scaled m e <= 2 ^ 1074 ->
  (scaled m e = 2 ^ 1074 /\ Prim2SF (1 - y) = S754_zero false)
  \/ (scaled m e < 2 ^ 1074
      /\ exists (m' : positive) (e' : Z),
           Prim2SF (1 - y) = S754_finite false m' e'
           /\ scaled m' e' = RNE (2 ^ 1074 - scaled m e)).
Proof.
  intros Ey Hle. pose proof (valid_Prim2SF y _ _ _ Ey) as Hv.
  pose proof (valid_finite _ _ _ Hv) as [Hcanon _].
  pose proof (scaled_bounds _ _ _ Hv) as [_ Hnormal].
  assert (He : -1074 <= e <= -52).
  { split; [lia|]. destruct (Z_le_gt_dec e (-52)) as [|Hbig]; [assumption|exfalso].
    specialize (Hnormal ltac:(lia)).
    assert (2 ^ 52 * 2 ^ (-51 + 1074) <= 2 ^ 52 * 2 ^ (e + 1074)).
    { apply Z.mul_le_mono_nonneg_l; [lia|]. apply Z.pow_le_mono_r; lia. }
    assert (2 ^ 1074 < 2 ^ 52 * 2 ^ (-51 + 1074)) by (vm_compute; reflexivity).
    lia. }
  rewrite sub_spec, Ey, Prim2SF_one. unfold SF64sub, SFsub.
  replace (Z.min (-52) e) with e by lia.
  destruct (shl_align_spec 4503599627370496 (-52) e) as [_ Hone].
  destruct (shl_align_spec m e e) as [_ Hm].
  replace (Z.min (-52) e) with e in Hone by lia.
  replace (Z.min e e) with e in Hm by lia.
  rewrite Z.sub_diag, Z.pow_0_r, Z.mul_1_r in Hm.
  cbn [cond_Zopp]. rewrite Hone, Hm.
  pose proof (pow2_pos (e + 1074) ltac:(lia)) as Hp.
  assert (Hscale : (Z.pos 4503599627370496 * 2 ^ (-52 - e) - Z.pos m) * 2 ^ (e + 1074)
                   = 2 ^ 1074 - scaled m e).
  { unfold scaled. rewrite Z.mul_sub_distr_r, <- Z.mul_assoc, <- Z.pow_add_r by lia.
    replace (-52 - e + (e + 1074)) with 1022 by lia. reflexivity. }
  destruct (Z.pos 4503599627370496 * 2 ^ (-52 - e) - Z.pos m) as [|M|M] eqn:EM.
  - left. split; [lia | reflexivity].
  - right. split; [lia|]. cbn [binary_normalize].
    destruct (binary_round_scaled M e ltac:(lia)) as (m' & e' & Hr & _ & Hval).
    + unfold scaled in *. lia.
    + exists m', e'. split; [exact Hr|]. rewrite Hval. f_equal. exact Hscale.
  - exfalso. nia.
Qed.

(** The rounded subtraction [1 - y] is antitone in [y] on [[0, 1]]. *)
Lemma sub_one_antitone (x y : float) :
  (0 <=? x)%float = true -> (x <=? y)%float = true -> (y <=? 1)%float = true ->
  (1 - y <=? 1 - x)%float = true.
Proof.
  intros Hx Hxy Hy.
  assert (Hy0 : (0 <=? y)%float = true).
  { revert Hx Hxy. rewrite !leb_spec, Prim2SF_zero. unfold SFleb.
    destruct (Prim2SF x) as [sx|sx| |sx mx ex], (Prim2SF y) as [sy|sy| |sy my ey];
      cbn; repeat match goal with b : bool |- _ => destruct b end; cbn; congruence. }
  destruct (unit_interval_cases y Hy0 Hy) as [[sy Ey] | (my & ey & Ey & Hley)].
  - (* y is a zero, and so is x *)
    assert (Ex : exists sx, Prim2SF x = S754_zero sx).
    { revert Hx Hxy. rewrite !leb_spec, Prim2SF_zero, Ey. unfold SFleb.
      destruct (Prim2SF x) as [sx|sx| |sx mx ex]; cbn;
        repeat match goal with b : bool |- _ => destruct b end; cbn;
        try congruence; eauto. }
    destruct Ex as [sx Ex].
    rewrite (sub_one_zero y sy Ey), (sub_one_zero x sx Ex). reflexivity.
  - assert (Hxcases :
      (exists sx, Prim2SF x = S754_zero sx)
      \/ (exists mx ex, Prim2SF x = S754_finite false mx ex
                        /\ scaled mx ex <= scaled my ey)).
    { revert Hx Hxy. rewrite !leb_spec, Prim2SF_zero, Ey. unfold SFleb.
      destruct (Prim2SF x) as [sx|sx| |sx mx ex] eqn:Ex.
      - intros _ _. left. eauto.
      - cbn. destruct sx; discriminate.
      - cbn. discriminate.
      - destruct sx; [cbn; discriminate|]. intros _ Hc. right. exists mx, ex.
        split; [reflexivity|].
        rewrite compare_scaled in Hc;
          [| apply (valid_Prim2SF x), Ex | apply (valid_Prim2SF y), Ey].
        destruct (Z.compare_spec (scaled mx ex) (scaled my ey)); [lia | lia | discriminate]. }
    rewrite leb_spec. unfold SFleb.
    destruct (sub_one_finite y my ey Ey Hley)
      as [[Hfull Ry] | (Hpart & my' & ey' & Ry & Vy)].
    + (* 1 - y = 0 *)
      rewrite Ry.
      destruct Hxcases as [[sx Ex] | (mx & ex & Ex & Hlex)].
      * rewrite (sub_one_zero x sx Ex), Prim2SF_one. reflexivity.
      * destruct (sub_one_finite x mx ex Ex ltac:(lia))
          as [[_ ->] | (_ & mx' & ex' & -> & _)]; reflexivity.
    + rewrite Ry.
      assert (Hpos : 0 < 2 ^ 1074 - scaled my ey) by lia.
      destruct Hxcases as [[sx Ex] | (mx & ex & Ex & Hlex)].
      * rewrite (sub_one_zero x sx Ex), Prim2SF_one.
        rewrite compare_scaled;
          [| apply (valid_Prim2SF (1 - y)), Ry | apply (valid_Prim2SF 1), Prim2SF_one].
        rewrite scaled_one, Vy.
        assert (Hle : RNE (2 ^ 1074 - scaled my ey) <= RNE (2 ^ 1074)).
        { apply RNE_mono; [exact Hpos|].
          pose proof (valid_finite _ _ _ (valid_Prim2SF y _ _ _ Ey)) as [Hcanon _].
          pose proof (pow2_pos (ey + 1074) ltac:(lia)) as Hp.
          unfold scaled. nia. }
        rewrite RNE_one in Hle.
        destruct (Z.compare_spec (RNE (2 ^ 1074 - scaled my ey)) (2 ^ 1074));
          [reflexivity | reflexivity | lia].
      * destruct (sub_one_finite x mx ex Ex ltac:(lia))
          as [[Hfull _] | (_ & mx' & ex' & Rx & Vx)]; [lia|].
        rewrite Rx.
        rewrite compare_scaled;
          [| apply (valid_Prim2SF (1 - y)), Ry | apply (valid_Prim2SF (1 - x)), Rx].
        rewrite Vy, Vx.
        assert (Hle : RNE (2 ^ 1074 - scaled my ey) <= RNE (2 ^ 1074 - scaled mx ex))
          by (apply RNE_mono; lia).
        destruct (Z.compare_spec (RNE (2 ^ 1074 - scaled my ey))
                                 (RNE (2 ^ 1074 - scaled mx ex)));
          [reflexivity | reflexivity | lia].
Qed.

(** ** Integers as doubles

    Products and quotients of integers that fit 53 bits are exact; a product
    with an integer is the exact product rounded, and a quotient by an
    integer stays between the doubles that bound it.  This is the arithmetic
    of line 30 and of the inner loop of [SuccessProbability]. *)

Lemma log2_le_53 (N : Z) : N <= 2 ^ 53 -> Z.log2 N <= 53.
Proof. intros H. apply Z.log2_le_mono in H. rewrite Z.log2_pow2 in H; lia. Qed.

(** A value of at most 53 significant bits is not rounded. *)
Lemma RNE_exact (N a : Z) : 0 < N <= 2 ^ 53 -> 0 <= a -> RNE (N * 2 ^ a) = N * 2 ^ a.
Proof.
  intros HN Ha. unfold RNE, dropped. rewrite log2_shift by lia.
  set (d := Z.max (Z.log2 N + a + 1 - 53) 0).
  assert (HL : Z.log2 N <= 53).
  { destruct HN as [H0 H53]. apply Z.log2_le_mono in H53.
    rewrite Z.log2_pow2 in H53; lia. }
  assert (Hd : 0 <= d) by (unfold d; lia).
  destruct (Z.eq_dec d 0) as [E|E].
  - rewrite E, rne_0, Z.pow_0_r. ring.
  - assert (Hda : d <= a \/ (d = a + 1 /\ N = 2 ^ 53)).
    { destruct (Z.eq_dec (Z.log2 N) 53) as [E53|E53]; [right | left; unfold d; lia].
      split; [unfold d; lia|].
      pose proof (Z.log2_spec N ltac:(lia)) as [Hlo _]. rewrite E53 in Hlo. lia. }
    destruct Hda as [Hda | [Hda ->]].
    + assert (Hsplit : N * 2 ^ a = (N * 2 ^ (a - d)) * 2 ^ d).
      { rewrite <- Z.mul_assoc, <- Z.pow_add_r by lia. do 2 f_equal. lia. }
      rewrite rne_exact; [| lia | rewrite Hsplit; apply Z.mod_mul; pose proof (pow2_pos d); lia].
      rewrite Hsplit at 1. rewrite Z.div_mul by (pose proof (pow2_pos d Hd); lia).
      symmetry. exact Hsplit.
    + assert (Hsplit : 2 ^ 53 * 2 ^ a = 2 ^ 52 * 2 ^ d).
      { rewrite Hda, <- !Z.pow_add_r by lia. f_equal. lia. }
      rewrite Hsplit.
      rewrite rne_exact; [| lia | apply Z.mod_mul; pose proof (pow2_pos d); lia].
      rewrite Z.div_mul by (pose proof (pow2_pos d Hd); lia). reflexivity.
Qed.

(** A valid double is determined by its sign and value. *)
Lemma scaled_inj (m1 m2 : positive) (e1 e2 : Z) :
  valid_binary (S754_finite false m1 e1) = true ->
  valid_binary (S754_finite false m2 e2) = true ->
  scaled m1 e1 = scaled m2 e2 -> m1 = m2 /\ e1 = e2.
Proof.
  intros H1 H2 E.
  assert (He : e1 = e2).
  { destruct (Z.lt_total e1 e2) as [Hlt | [Heq | Hgt]]; [exfalso | exact Heq | exfalso].
    - pose proof (scaled_lt _ _ _ _ H1 H2 Hlt). lia.
    - pose proof (scaled_lt _ _ _ _ H2 H1 Hgt). lia. }
  subst e2. split; [|reflexivity].
  pose proof (valid_finite _ _ _ H1) as [Hc _].
  pose proof (pow2_pos (e1 + 1074) ltac:(lia)). unfold scaled in E.
  apply Z.mul_cancel_r in E; [congruence | lia].
Qed.

(** [(double) N] for a positive integer: the integer rounded to 53 bits. *)
Lemma of_size_t_RNE (N : Z) :
  0 < N < 2 ^ 1023 ->
  exists (m : positive) (e : Z),
    Prim2SF (of_size_t N) = S754_finite false m e
    /\ scaled m e = RNE (N * 2 ^ 1074).
Proof.
  intros HN. unfold of_size_t. destruct N as [|p|p]; try lia.
  cbn [binary_normalize].
  destruct (binary_round_RNE p 0) as (m & e & Hr & Hv & _ & Hs); [lia | |].
  - assert (Z.log2 (Z.pos p) < 1023) by (apply Z.log2_lt_pow2; lia). lia.
  - exists m, e. rewrite Hr, Prim2SF_SF2Prim by exact Hv. split; [reflexivity|].
    rewrite Hs. reflexivity.
Qed.

Lemma of_size_t_exact (N : Z) :
  0 < N <= 2 ^ 53 ->
  exists (m : positive) (e : Z),
    Prim2SF (of_size_t N) = S754_finite false m e
    /\ scaled m e = N * 2 ^ 1074.
Proof.
  intros HN. destruct (of_size_t_RNE N) as (m & e & Hm & Hs).
  - assert (2 ^ 53 < 2 ^ 1023) by (apply Z.pow_lt_mono_r; lia). lia.
  - exists m, e. split; [exact Hm|]. rewrite Hs. apply RNE_exact; lia.
Qed.

(** The double of value [N], however it was computed. *)
Lemma of_size_t_unique (x : float) (N : Z) (m : positive) (e : Z) :
  0 < N <= 2 ^ 53 ->
  Prim2SF x = S754_finite false m e -> scaled m e = N * 2 ^ 1074 ->
  x = of_size_t N.
Proof.
  intros HN Hx Hs. destruct (of_size_t_exact N HN) as (m' & e' & Hm' & Hs').
  apply Prim2SF_inj. rewrite Hx, Hm'.
  destruct (scaled_inj m m' e e') as [-> ->]; [| | congruence | reflexivity].
  - apply (valid_Prim2SF x), Hx.
  - apply (valid_Prim2SF (of_size_t N)), Hm'.
Qed.

(** The double of a positive integer of at most 53 bits is normal: a 53-bit
    mantissa [m] and the exponent that places its leading bit. *)
Lemma integer_double (N : Z) (m : positive) (e : Z) :
  0 < N <= 2 ^ 53 ->
  valid_binary (S754_finite false m e) = true ->
  scaled m e = N * 2 ^ 1074 ->
  e = Z.log2 N - 52 /\ Z.log2 (Zpos m) = 52 /\ Zpos m * 2 ^ (e + 52) = N * 2 ^ 52.
Proof.
  intros HN Hv Hs.
  pose proof (valid_finite _ _ _ Hv) as [Hcanon _].
  pose proof (scaled_bounds _ _ _ Hv) as [Hup Hlow].
  pose proof (pow2_pos 1074 ltac:(lia)) as Hp.
  assert (Hlo : -52 <= e).
  { destruct (Z_le_gt_dec (-52) e) as [|Hsmall]; [assumption | exfalso].
    assert (2 ^ 53 * 2 ^ (e + 1074) <= 2 ^ 1074).
    { rewrite <- Z.pow_add_r by lia. apply Z.pow_le_mono_r; lia. }
    nia. }
  assert (Hl : Z.log2 (Zpos m) = 52) by lia.
  assert (Hval : Zpos m * 2 ^ (e + 52) = N * 2 ^ 52).
  { unfold scaled in Hs.
    replace (e + 1074) with ((e + 52) + 1022) in Hs by lia.
    rewrite Z.pow_add_r, Z.mul_assoc in Hs by lia.
    change (2 ^ 1074) with (2 ^ 52 * 2 ^ 1022) in Hs. rewrite Z.mul_assoc in Hs.
    apply Z.mul_cancel_r in Hs; [exact Hs | lia]. }
  split; [|split; assumption].
  apply (f_equal Z.log2) in Hval. rewrite !log2_shift in Hval by lia. lia.
Qed.

(** [(double) N] again, with its exponent. *)
Lemma of_size_t_normal (N : Z) :
  0 < N <= 2 ^ 53 ->
  exists m : positive,
    Prim2SF (of_size_t N) = S754_finite false m (Z.log2 N - 52)
    /\ Z.log2 (Zpos m) = 52
    /\ Zpos m * 2 ^ Z.log2 N = N * 2 ^ 52.
Proof.
  intros HN. destruct (of_size_t_exact N HN) as (m & e & Hm & Hs).
  destruct (integer_double N m e HN) as (-> & Hl & Hval);
    [apply (valid_Prim2SF (of_size_t N)), Hm | exact Hs |].
  exists m. split; [exact Hm|]. split; [exact Hl|].
  rewrite <- Hval. do 2 f_equal. lia.
Qed.

Lemma new_location_bits (nb_steps r : Z) :
  0 <= r < nb_steps ->
  (r = 0 -> loc_bits (new_location nb_steps r) = 0)
  /\ 0 <= loc_bits (new_location nb_steps r) <= 3.
Proof.
  intros Hr. unfold new_location, new_location_even, new_location_odd.
  destruct (Z.even nb_steps); destruct (Z.eqb_spec r 0) as [E|E]; cbn [loc_bits];
    (split; [intros; try reflexivity; try contradiction|]);
    try lia.
  - destruct (2 * r ?= nb_steps); cbn [loc_bits]; lia.
  - destruct (2 * r + 1 ?= nb_steps); cbn [loc_bits]; lia.
Qed.

(** The quotient of a normal double [x = ma 2^(ua - 52)] by a positive
    integer [b] of at most 53 bits: what lies between two doubles
    [lo / 2^s <= x / b <= hi / 2^s] is rounded to a double between them. *)
Lemma div_normal_between (x : float) (ma : positive) (ua b lo hi s : Z) :
  Prim2SF x = S754_finite false ma (ua - 52) ->
  Z.log2 (Zpos ma) = 52 -> 0 <= ua <= 53 ->
  0 < b <= 2 ^ 53 ->
  0 < lo <= 2 ^ 53 -> 0 < hi <= 2 ^ 53 ->
  0 <= s -> s + ua - Z.log2 b <= 53 ->
  (lo * b) * 2 ^ 52 <= (Zpos ma * 2 ^ ua) * 2 ^ s ->
  (Zpos ma * 2 ^ ua) * 2 ^ s <= (hi * b) * 2 ^ 52 ->
  exists (m : positive) (e : Z),
    Prim2SF (x / of_size_t b) = S754_finite false m e
    /\ lo * 2 ^ (1074 - s) <= scaled m e <= hi * 2 ^ (1074 - s).
Proof.
  intros Ea Hla Hua Hb Hlo Hhi Hs Hgran Hlow Hhigh.
  destruct (of_size_t_normal b Hb) as (mb & Eb & Hlb & Vb).
  pose proof (Z.log2_nonneg b) as Hlb0.
  assert (Hlb53 : Z.log2 b <= 53).
  { destruct Hb as [_ Hb]. apply Z.log2_le_mono in Hb. rewrite Z.log2_pow2 in Hb; lia. }
  set (ub := Z.log2 b) in *.
  set (E := 53 - ua + ub).
  assert (HE : s <= E) by (unfold E; lia).
  assert (Hmb : 2 ^ 52 <= Z.pos mb < 2 ^ 53).
  { split; [rewrite <- Hlb; apply Z.log2_spec; lia | apply Z.log2_lt_pow2; lia]. }
  assert (Hma : 2 ^ 52 <= Z.pos ma < 2 ^ 53).
  { split; [rewrite <- Hla; apply Z.log2_spec; lia | apply Z.log2_lt_pow2; lia]. }
  (* the quotient and the remainder *)
  pose proof (Z_div_mod (Z.pos ma * 2 ^ 53) (Z.pos mb) ltac:(lia)) as Hdm.
  destruct (Z.div_eucl (Z.pos ma * 2 ^ 53) (Z.pos mb)) as [Q r] eqn:Hqr.
  destruct Hdm as [Hdm Hr].
  assert (Hcore : SFdiv_core_binary prec emax (Z.pos ma) (ua - 52) (Z.pos mb) (ub - 52)
                  = (Q, - E, new_location (Z.pos mb) r)).
  { unfold SFdiv_core_binary. cbn [Zdigits2]. rewrite !digits2_log2, Hla, Hlb, fexp64.
    replace (Z.min (Z.max (52 + 1 + (ua - 52) - (52 + 1 + (ub - 52)) - 53) (-1074))
                   (ua - 52 - (ub - 52)))
      with (- E) by (unfold E; lia).
    replace (ua - 52 - (ub - 52) - - E) with 53 by (unfold E; lia).
    rewrite Z.shiftl_mul_pow2 by lia. rewrite Hqr. reflexivity. }
  assert (HQ : 2 ^ 52 <= Q < 2 ^ 55).
  { assert (EQ : Q = Z.pos ma * 2 ^ 53 / Z.pos mb)
      by (apply (Z.div_unique _ _ Q r); [left; lia | lia]).
    rewrite EQ.
    change (2 ^ 52) with 4503599627370496 in *.
    change (2 ^ 53) with 9007199254740992 in *.
    change (2 ^ 55) with 36028797018963968.
    split.
    - apply Z.div_le_lower_bound; lia.
    - apply Z.div_lt_upper_bound; lia. }
  assert (HlQ : 52 <= Z.log2 Q <= 54).
  { split; [apply Z.log2_le_pow2; lia|].
    assert (Z.log2 Q < 55) by (apply Z.log2_lt_pow2; lia). lia. }
  destruct (new_location_bits (Z.pos mb) r Hr) as [Hexact Hbits].
  set (l := new_location (Z.pos mb) r) in *.
  destruct Q as [|Qp|Qp] eqn:EQ; try lia.
  assert (HM : exists M : positive, Zpos M = 4 * Zpos Qp + loc_bits l).
  { destruct (4 * Zpos Qp + loc_bits l) as [|M|M] eqn:EM; try lia. exists M. reflexivity. }
  destruct HM as [M HM].
  destruct (binary_round_aux_loc Qp (- E) l M HM) as (m & e & Hround & Hv & Hval).
  - unfold E. lia.
  - rewrite fexp64, digits2_log2. lia.
  - unfold E. lia.
  - exists m, e. split.
    + rewrite div_spec, Ea, Eb. unfold SF64div, SFdiv. rewrite Hcore. exact Hround.
    + (* the bounds, in units of [2^(1074 - E)] *)
      assert (Hscale : forall N : Z,
                N * 2 ^ (1074 - s) = (4 * (N * 2 ^ (E - s))) * 2 ^ (- E - 2 + 1074)).
      { intros N.
        replace (1074 - s) with (2 + (E - s) + (- E - 2 + 1074)) by lia.
        rewrite !Z.pow_add_r by (unfold E; lia). change (2 ^ 2) with 4. ring. }
      assert (Hp : 0 < 2 ^ (- E - 2 + 1074)) by (apply pow2_pos; unfold E; lia).
      assert (Hps : 0 < 2 ^ (E - s)) by (apply pow2_pos; lia).
      (* [N * b <= a * 2^s] in terms of the mantissas *)
      assert (Hk : 0 < 2 ^ (s + ua)) by (apply pow2_pos; lia).
      assert (Hleft : forall N : Z,
                N * 2 ^ (E - s) * Z.pos mb * 2 ^ (s + ua) = (N * b) * (2 ^ 52 * 2 ^ 53)).
      { intros N.
        replace (N * 2 ^ (E - s) * Z.pos mb * 2 ^ (s + ua))
          with (N * Z.pos mb * (2 ^ (E - s) * 2 ^ (s + ua))) by ring.
        rewrite <- Z.pow_add_r by lia.
        replace (E - s + (s + ua)) with (ub + 53) by (unfold E; lia).
        rewrite Z.pow_add_r by lia.
        replace (N * Z.pos mb * (2 ^ ub * 2 ^ 53))
          with (N * (Z.pos mb * 2 ^ ub) * 2 ^ 53) by ring.
        rewrite Vb. ring. }
      assert (Hright : Z.pos ma * 2 ^ 53 * 2 ^ (s + ua)
                       = (Z.pos ma * 2 ^ ua * 2 ^ s) * 2 ^ 53).
      { rewrite Z.pow_add_r by lia. ring. }
      assert (Hc : 0 < 2 ^ 52 * 2 ^ 53) by lia.
      assert (HloQ : lo * 2 ^ (E - s) <= Z.pos Qp).
      { assert (lo * 2 ^ (E - s) * Z.pos mb <= Z.pos ma * 2 ^ 53).
        { apply (Z.mul_le_mono_pos_r _ _ (2 ^ (s + ua)) Hk).
          rewrite Hleft, Hright, Z.mul_assoc. apply Z.mul_le_mono_nonneg_r; lia. }
        nia. }
      assert (HhiQ : 4 * Z.pos Qp + loc_bits l <= 4 * (hi * 2 ^ (E - s))).
      { assert (Hle : Z.pos ma * 2 ^ 53 <= hi * 2 ^ (E - s) * Z.pos mb).
        { apply (Z.mul_le_mono_pos_r _ _ (2 ^ (s + ua)) Hk).
          rewrite Hleft, Hright, Z.mul_assoc. apply Z.mul_le_mono_nonneg_r; lia. }
        destruct (Z.eq_dec r 0) as [Er|Er].
        - rewrite (Hexact Er). nia.
        - assert (Z.pos Qp < hi * 2 ^ (E - s)) by nia. lia. }
      rewrite Hval. unfold scaled. rewrite HM. split.
      * rewrite <- (RNE_exact lo (1074 - s)) by lia.
        apply RNE_mono; [pose proof (pow2_pos (1074 - s)); nia|].
        rewrite Hscale. apply Z.mul_le_mono_nonneg_r; lia.
      * rewrite <- (RNE_exact hi (1074 - s)) by lia.
        apply RNE_mono; [nia|].
        rewrite Hscale. apply Z.mul_le_mono_nonneg_r; lia.
Qed.

(** The quotient of two positive integers of at most 53 bits. *)
Lemma div_between (a b lo hi s : Z) :
  0 < a <= 2 ^ 53 -> 0 < b <= 2 ^ 53 ->
  0 < lo <= 2 ^ 53 -> 0 < hi <= 2 ^ 53 ->
  0 <= s -> s + Z.log2 a - Z.log2 b <= 53 ->
  lo * b <= a * 2 ^ s -> a * 2 ^ s <= hi * b ->
  exists (m : positive) (e : Z),
    Prim2SF (of_size_t a / of_size_t b) = S754_finite false m e
    /\ lo * 2 ^ (1074 - s) <= scaled m e <= hi * 2 ^ (1074 - s).
Proof.
  intros Ha Hb Hlo Hhi Hs Hgran Hlow Hhigh.
  destruct (of_size_t_normal a Ha) as (ma & Ea & Hla & Va).
  pose proof (Z.log2_nonneg a) as Hla0.
  pose proof (log2_le_53 a ltac:(lia)) as Hla53.
  apply (div_normal_between _ ma (Z.log2 a)); try assumption; try lia;
    rewrite Va; replace (a * 2 ^ 52 * 2 ^ s) with (a * 2 ^ s * 2 ^ 52) by ring;
    apply Z.mul_le_mono_nonneg_r; lia.
Qed.

(** The product of two integers is exact when it has at most 53 bits. *)
Lemma mul_exact (a b : Z) :
  0 < a -> 0 < b -> a * b <= 2 ^ 53 ->
  (of_size_t a * of_size_t b)%float = of_size_t (a * b).
Proof.
  intros Ha Hb Hab.
  destruct (of_size_t_normal a) as (ma & Ea & Hla & Va); [nia|].
  destruct (of_size_t_normal b) as (mb & Eb & Hlb & Vb); [nia|].
  pose proof (Z.log2_nonneg a) as Hla0. pose proof (Z.log2_nonneg b) as Hlb0.
  pose proof (log2_le_53 a ltac:(nia)) as Hla53.
  pose proof (log2_le_53 b ltac:(nia)) as Hlb53.
  pose proof (Z.log2_mul_below (Zpos ma) (Zpos mb) ltac:(lia) ltac:(lia)) as Hbelow.
  pose proof (Z.log2_mul_above (Zpos ma) (Zpos mb) ltac:(lia) ltac:(lia)) as Habove.
  pose proof (Z.log2_mul_above a b ltac:(lia) ltac:(lia)) as Hab_above.
  pose proof (log2_le_53 (a * b) Hab) as Hlab.
  pose proof (Z.log2_mul_below a b ltac:(lia) ltac:(lia)) as Hab_below.
  destruct (binary_round_aux_RNE (ma * mb) (Z.log2 a - 52 + (Z.log2 b - 52)))
    as (m & e & Hr & Hv & _ & Hs).
  - lia.
  - rewrite fexp64, digits2_log2, Pos2Z.inj_mul. lia.
  - rewrite Pos2Z.inj_mul. lia.
  - assert (Hval : scaled (ma * mb) (Z.log2 a - 52 + (Z.log2 b - 52)) = (a * b) * 2 ^ 1074).
    { unfold scaled. rewrite Pos2Z.inj_mul.
      replace (Z.log2 a - 52 + (Z.log2 b - 52) + 1074)
        with (Z.log2 a + Z.log2 b + 970) by lia.
      rewrite !Z.pow_add_r by lia.
      replace (Z.pos ma * Z.pos mb * (2 ^ Z.log2 a * 2 ^ Z.log2 b * 2 ^ 970))
        with ((Z.pos ma * 2 ^ Z.log2 a) * (Z.pos mb * 2 ^ Z.log2 b) * 2 ^ 970) by ring.
      rewrite Va, Vb. change (2 ^ 1074) with (2 ^ 52 * 2 ^ 52 * 2 ^ 970). ring. }
    apply (of_size_t_unique _ (a * b) m e); [nia | |].
    + rewrite mul_spec, Ea, Eb. exact Hr.
    + rewrite Hs, Hval. apply RNE_exact; nia.
Qed.

(** The quotient of two integers is exact when the division is. *)
Lemma div_exact (b c : Z) :
  0 < b -> 0 < c -> c * b <= 2 ^ 53 ->
  (of_size_t (c * b) / of_size_t b)%float = of_size_t c.
Proof.
  intros Hb Hc Hcb.
  pose proof (Z.log2_mul_above c b ltac:(lia) ltac:(lia)) as Habove.
  pose proof (log2_le_53 (c * b) Hcb) as Hl.
  pose proof (Z.log2_nonneg b) as Hlb0.
  destruct (div_between (c * b) b c c 0) as (m & e & Hm & Hlo & Hhi);
    try rewrite Z.pow_0_r; try nia.
  apply (of_size_t_unique _ c m e); [nia | exact Hm |].
  rewrite Z.sub_0_r in Hlo, Hhi. lia.
Qed.

(** [(size_t) ceil (x)] for a positive double [x] in [(q, q + 1]]. *)
Lemma to_size_t_ceil (oor : float -> Z) (x : float) (m : positive) (e q : Z) :
  Prim2SF x = S754_finite false m e ->
  0 <= q -> q + 1 < SizeT.modulus ->
  q * 2 ^ 1074 < scaled m e <= (q + 1) * 2 ^ 1074 ->
  to_size_t oor (ceil x) = q + 1.
Proof.
  intros Hx Hq Hfit Hbetween.
  pose proof (valid_finite _ _ _ (valid_Prim2SF x _ _ _ Hx)) as [Hcanon _].
  assert (He : -1074 <= e) by lia.
  unfold scaled in Hbetween.
  assert (Hrange : (0 <=? q + 1) && (q + 1 <? SizeT.modulus) = true).
  { apply andb_true_iff. split; [apply Z.leb_le | apply Z.ltb_lt]; lia. }
  unfold ceil. rewrite Hx.
  destruct (Z.leb_spec 0 e) as [Hpos|Hneg].
  - (* an integer *)
    assert (Hval : Zpos m * 2 ^ e = q + 1).
    { replace (e + 1074) with (e + 1074) in Hbetween by lia.
      rewrite Z.pow_add_r, Z.mul_assoc in Hbetween by lia.
      pose proof (pow2_pos 1074 ltac:(lia)). nia. }
    unfold to_size_t, trunc. rewrite Hx.
    destruct (Z.leb_spec 0 e) as [_|]; [|lia].
    cbn [cond_Zopp]. rewrite Hval, Hrange. reflexivity.
  - cbn [cond_Zopp].
    assert (Hval : - (- Z.pos m / 2 ^ (- e)) = q + 1).
    { pose proof (pow2_pos (- e) ltac:(lia)) as Hp.
      pose proof (pow2_pos (e + 1074) ltac:(lia)) as Hp'.
      assert (Hsplit : 2 ^ 1074 = 2 ^ (- e) * 2 ^ (e + 1074))
        by (rewrite <- Z.pow_add_r by lia; f_equal; lia).
      rewrite Hsplit in Hbetween.
      assert (q * 2 ^ (- e) < Z.pos m <= (q + 1) * 2 ^ (- e)) by nia.
      assert (- Z.pos m / 2 ^ (- e) = - (q + 1)); [|lia].
      symmetry. apply (Z.div_unique _ _ _ ((q + 1) * 2 ^ (- e) - Z.pos m)); [left; lia | ring]. }
    rewrite Hval. fold (of_size_t (q + 1)).
    destruct (Z.eq_dec q 0) as [->|Hq0].
    + vm_compute. reflexivity.
    + assert (H53 : q + 1 <= 2 ^ 53).
      { (* the value is below 2^53: it has a negative exponent *)
        pose proof (scaled_bounds _ _ _ (valid_Prim2SF x _ _ _ Hx)) as [Hup _].
        unfold scaled in Hup.
        assert (2 ^ 53 * 2 ^ (e + 1074) <= 2 ^ 52 * 2 ^ 1074).
        { rewrite <- !Z.pow_add_r by lia. apply Z.pow_le_mono_r; lia. }
        pose proof (pow2_pos 1074 ltac:(lia)).
        pose proof (pow2_pos (e + 1074) ltac:(lia)).
        assert (q * 2 ^ 1074 < 2 ^ 52 * 2 ^ 1074) by lia.
        assert (q < 2 ^ 52) by nia. lia. }
      destruct (of_size_t_normal (q + 1)) as (m' & Hm' & Hl' & Hv'); [lia|].
      unfold to_size_t, trunc. rewrite Hm'. cbn [cond_Zopp].
      pose proof (Z.log2_nonneg (q + 1)) as HL0.
      pose proof (log2_le_53 (q + 1) H53) as HL53.
      assert (Htr : (if 0 <=? Z.log2 (q + 1) - 52
                     then Z.pos m' * 2 ^ (Z.log2 (q + 1) - 52)
                     else Z.pos m' / 2 ^ (- (Z.log2 (q + 1) - 52))) = q + 1).
      { destruct (Z.leb_spec 0 (Z.log2 (q + 1) - 52)) as [Hbig|Hsmall].
        - replace (Z.log2 (q + 1)) with ((Z.log2 (q + 1) - 52) + 52) in Hv' at 1 by lia.
          rewrite Z.pow_add_r, Z.mul_assoc in Hv' by lia.
          apply Z.mul_cancel_r in Hv'; [exact Hv' | lia].
        - assert (Hm'' : Z.pos m' = (q + 1) * 2 ^ (- (Z.log2 (q + 1) - 52))).
          { apply (Z.mul_cancel_r _ _ (2 ^ Z.log2 (q + 1))); [pose proof (pow2_pos (Z.log2 (q + 1))); lia|].
            rewrite Hv', <- Z.mul_assoc, <- Z.pow_add_r by lia. do 2 f_equal. lia. }
          rewrite Hm''. apply Z.div_mul. pose proof (pow2_pos (- (Z.log2 (q + 1) - 52))); lia. }
      rewrite Htr, Hrange. reflexivity.
Qed.

Lemma of_size_t_100 : of_size_t 100 = 100%float.
Proof. reflexivity. Qed.

(** A size_t converts to a double that is [+0] or positive. *)
Lemma of_size_t_nonneg (N : Z) :
  0 <= N < 2 ^ 1023 ->
  Prim2SF (of_size_t N) = S754_zero false
  \/ exists (m : positive) (e : Z), Prim2SF (of_size_t N) = S754_finite false m e.
Proof.
  intros HN. destruct (Z.eq_dec N 0) as [->|Hpos].
  - left. reflexivity.
  - right. destruct (of_size_t_RNE N ltac:(lia)) as (m & e & Hm & _). eauto.
Qed.

(** [(size_t) ceil (x / 100)] for a zero [x]. *)
Lemma window_of_zero (oor : float -> Z) (x : float) (s : bool) :
  Prim2SF x = S754_zero s -> to_size_t oor (ceil (x / 100)) = 0.
Proof.
  intros Hx.
  assert (Hq : Prim2SF (x / 100) = S754_zero s).
  { rewrite div_spec, Hx. destruct s; reflexivity. }
  unfold ceil. rewrite Hq. unfold to_size_t, trunc. rewrite Hq. reflexivity.
Qed.

Lemma modulus_lt_overflow : SizeT.modulus < 2 ^ 1023.
Proof. rewrite modulus_eq. apply Z.ltb_lt. vm_compute. reflexivity. Qed.

(** Line 30 for a whole percentage. *)
Lemma whole_percent_window (oor : float -> Z) (n T : Z) :
  0 <= n < SizeT.modulus -> 0 <= T <= 2 ^ 52 -> T * n <= 2 ^ 52 ->
  to_size_t oor (ceil (of_size_t T * of_size_t n / 100)) = (T * n + 99) / 100.
Proof.
  intros Hn HT Hfit. pose proof modulus_eq as Hmod.
  pose proof modulus_lt_overflow as Hover.
  destruct (Z.eq_dec (T * n) 0) as [E0|Hpos].
  - rewrite E0. change ((0 + 99) / 100) with 0.
    apply (window_of_zero oor _ false).
    rewrite mul_spec.
    assert (HT' : 0 <= T < 2 ^ 1023).
    { split; [lia|]. eapply Z.le_lt_trans; [apply HT|]. apply Z.pow_lt_mono_r; lia. }
    destruct (Z.eq_dec T 0) as [->|HT0].
    + destruct (of_size_t_nonneg n ltac:(lia)) as [-> | (m & e & ->)]; reflexivity.
    + assert (n = 0) as -> by nia.
      destruct (of_size_t_nonneg T HT') as [-> | (m & e & ->)]; reflexivity.
  - assert (Hn0 : 0 < n) by nia. assert (HT0 : 0 < T) by nia.
    rewrite mul_exact by lia.
    set (X := T * n) in *.
    set (q := (X - 1) / 100).
    assert (Hq : 100 * q + 1 <= X <= 100 * (q + 1)) by (unfold q; div_lia).
    assert (Hq0 : 0 <= q) by (unfold q; div_lia).
    replace ((X + 99) / 100) with (q + 1) by (unfold q; div_lia).
    assert (HlX : Z.log2 X <= 52).
    { apply Z.log2_le_mono in Hfit. rewrite Z.log2_pow2 in Hfit; lia. }
    rewrite <- of_size_t_100.
    destruct (div_between X 100 (128 * q + 1) (128 * (q + 1)) 7)
      as (m & e & Hm & Hlo & Hhi);
      change (2 ^ 53) with 9007199254740992;
      change (2 ^ 52) with 4503599627370496 in Hfit;
      change (2 ^ 7) with 128; change (Z.log2 100) with 6; try lia.
    apply (to_size_t_ceil oor _ m e q Hm Hq0); [lia|].
    change (2 ^ 1074) with (128 * 2 ^ (1074 - 7)).
    pose proof (pow2_pos (1074 - 7) ltac:(lia)). split; nia.
Qed.

(** A [tau] in [[0, 100]] is a zero or a positive finite double. *)
Lemma percentage_cases (tau : float) :
  (0 <=? tau)%float = true -> (tau <=? 100)%float = true ->
  (exists s : bool, Prim2SF tau = S754_zero s)
  \/ (exists (m : positive) (e : Z), Prim2SF tau = S754_finite false m e).
Proof.
  rewrite !leb_spec, Prim2SF_zero. unfold SFleb.
  destruct (Prim2SF tau) as [s|s| |s m e].
  - intros _ _. left. eauto.
  - cbn. destruct s; discriminate.
  - cbn. discriminate.
  - intros H0 _. destruct s; [cbn in H0; discriminate|]. right. eauto.
Qed.

(** A double of value between 1 and [2^53] is normal. *)
Lemma normal_range (m : positive) (e : Z) :
  valid_binary (S754_finite false m e) = true ->
  2 ^ 1074 <= scaled m e <= 2 ^ 53 * 2 ^ 1074 ->
  -52 <= e <= 1 /\ Z.log2 (Zpos m) = 52.
Proof.
  intros Hv [Hge Hle].
  pose proof (valid_finite _ _ _ Hv) as [Hcanon _].
  pose proof (scaled_bounds _ _ _ Hv) as [Hup Hlow].
  pose proof (pow2_pos 1074 ltac:(lia)) as Hp.
  assert (Hlo : -52 <= e).
  { destruct (Z_le_gt_dec (-52) e) as [|Hsmall]; [assumption | exfalso].
    assert (2 ^ 53 * 2 ^ (e + 1074) <= 2 ^ 1074).
    { rewrite <- Z.pow_add_r by lia. apply Z.pow_le_mono_r; lia. }
    lia. }
  specialize (Hlow ltac:(lia)).
  split; [|lia]. split; [exact Hlo|].
  destruct (Z_le_gt_dec e 1) as [|Hbig]; [assumption | exfalso].
  assert (2 ^ 54 * 2 ^ 1074 <= 2 ^ 52 * 2 ^ (e + 1074)).
  { rewrite <- !Z.pow_add_r by lia. apply Z.pow_le_mono_r; lia. }
  assert (2 ^ 53 * 2 ^ 1074 < 2 ^ 54 * 2 ^ 1074) by (apply Z.mul_lt_mono_pos_r; lia).
  lia.
Qed.

(** The doubles from 1 to 100. *)
Lemma percentage_range (tau : float) :
  (1 <=? tau)%float = true -> (tau <=? 100)%float = true ->
  exists (m : positive) (e : Z),
    Prim2SF tau = S754_finite false m e
    /\ 2 ^ 1074 <= scaled m e <= 100 * 2 ^ 1074.
Proof.
  rewrite !leb_spec, Prim2SF_one. unfold SFleb.
  assert (H100 : Prim2SF 100 = S754_finite false 7036874417766400 (-46)) by reflexivity.
  rewrite H100.
  destruct (Prim2SF tau) as [s|s| |s m e] eqn:Etau.
  - cbn. discriminate.
  - cbn. destruct s; discriminate.
  - cbn. discriminate.
  - intros H1 Hhi. destruct s; [cbn in H1; discriminate|].
    exists m, e. split; [reflexivity|].
    pose proof (valid_Prim2SF tau _ _ _ Etau) as Hv.
    rewrite compare_scaled in H1, Hhi;
      [| exact Hv | rewrite <- H100; apply Prim2SF_valid
       | apply (valid_Prim2SF 1), Prim2SF_one | exact Hv].
    rewrite scaled_one in H1.
    assert (S100 : scaled 7036874417766400 (-46) = 100 * 2 ^ 1074)
      by (vm_compute; reflexivity).
    rewrite S100 in Hhi.
    destruct (Z.compare_spec (2 ^ 1074) (scaled m e));
      destruct (Z.compare_spec (scaled m e) (100 * 2 ^ 1074)); try discriminate; lia.
Qed.

(** The product of a double in [[1, 2^53]] and a positive integer: the exact
    product, rounded. *)
Lemma mul_integer_RNE (x : float) (mx : positive) (ex n : Z) :
  Prim2SF x = S754_finite false mx ex ->
  2 ^ 1074 <= scaled mx ex <= 2 ^ 53 * 2 ^ 1074 ->
  0 < n <= 2 ^ 53 ->
  exists (m : positive) (e : Z),
    Prim2SF (x * of_size_t n) = S754_finite false m e
    /\ scaled m e = RNE (scaled mx ex * n).
Proof.
  intros Hx Hrange Hn.
  destruct (normal_range mx ex (valid_Prim2SF x _ _ _ Hx) Hrange) as [Hex Hlx].
  destruct (of_size_t_normal n Hn) as (mn & En & Hln & Vn).
  pose proof (Z.log2_nonneg n) as Hl0. pose proof (log2_le_53 n ltac:(lia)) as Hl53.
  pose proof (Z.log2_mul_below (Zpos mx) (Zpos mn) ltac:(lia) ltac:(lia)) as Hbelow.
  pose proof (Z.log2_mul_above (Zpos mx) (Zpos mn) ltac:(lia) ltac:(lia)) as Habove.
  destruct (binary_round_aux_RNE (mx * mn) (ex + (Z.log2 n - 52)))
    as (m & e & Hr & Hv & _ & Hs).
  - lia.
  - rewrite fexp64, digits2_log2, Pos2Z.inj_mul. lia.
  - rewrite Pos2Z.inj_mul. lia.
  - exists m, e. split; [rewrite mul_spec, Hx, En; exact Hr|].
    rewrite Hs. f_equal. unfold scaled. rewrite Pos2Z.inj_mul.
    apply (Z.mul_cancel_r _ _ (2 ^ 52)); [lia|].
    replace (ex + (Z.log2 n - 52) + 1074) with ((ex + 1074 - 52) + Z.log2 n) by lia.
    rewrite Z.pow_add_r by lia.
    replace (Z.pos mx * Z.pos mn * (2 ^ (ex + 1074 - 52) * 2 ^ Z.log2 n) * 2 ^ 52)
      with (Z.pos mx * (2 ^ (ex + 1074 - 52) * 2 ^ 52) * (Z.pos mn * 2 ^ Z.log2 n)) by ring.
    rewrite Vn, <- Z.pow_add_r by lia.
    replace (ex + 1074 - 52 + 52) with (ex + 1074) by lia. ring.
Qed.

(** [(size_t) ceil (x)] for a positive double [x <= n]. *)
Lemma to_size_t_ceil_le (oor : float -> Z) (x : float) (m : positive) (e n : Z) :
  Prim2SF x = S754_finite false m e ->
  scaled m e <= n * 2 ^ 1074 -> n < SizeT.modulus ->
  1 <= to_size_t oor (ceil x) <= n.
Proof.
  intros Hx Hle Hn.
  pose proof (valid_finite _ _ _ (valid_Prim2SF x _ _ _ Hx)) as [Hcanon _].
  pose proof (pow2_pos 1074 ltac:(lia)) as Hp.
  assert (Hpos : 0 < scaled m e)
    by (unfold scaled; pose proof (pow2_pos (e + 1074) ltac:(lia)); nia).
  set (q := (scaled m e - 1) / 2 ^ 1074).
  assert (Hq : q * 2 ^ 1074 < scaled m e <= (q + 1) * 2 ^ 1074).
  { pose proof (Z.div_mod (scaled m e - 1) (2 ^ 1074) ltac:(lia)) as Hdm.
    pose proof (Z.mod_pos_bound (scaled m e - 1) (2 ^ 1074) Hp) as Hr.
    fold q in Hdm. nia. }
  assert (Hq0 : 0 <= q) by (unfold q; apply Z.div_pos; lia).
  assert (Hqn : q + 1 <= n) by nia.
  rewrite (to_size_t_ceil oor x m e q Hx Hq0 ltac:(lia) Hq). lia.
Qed.

(** Line 30 for a percentage between 1 and 100. *)
Lemma percentage_window (oor : float -> Z) (n : Z) (tau : float) :
  0 < n -> 100 * n <= 2 ^ 52 ->
  (1 <=? tau)%float = true -> (tau <=? 100)%float = true ->
  1 <= to_size_t oor (ceil (tau * of_size_t n / 100)) <= n.
Proof.
  intros Hn Hfit H1 H100. pose proof modulus_eq as Hmod.
  change (2 ^ 52) with 4503599627370496 in Hfit.
  destruct (percentage_range tau H1 H100) as (mt & et & Ht & Hlo & Hhi).
  pose proof (pow2_pos 1074 ltac:(lia)) as Hp.
  destruct (mul_integer_RNE tau mt et n Ht) as (mp & ep & Hprod & Sp).
  { split; [exact Hlo|]. change (2 ^ 53) with 9007199254740992. lia. }
  { change (2 ^ 53) with 9007199254740992. lia. }
  (* the product lies between [n] and [100 n] *)
  assert (Sp_lo : n * 2 ^ 1074 <= scaled mp ep).
  { rewrite Sp, <- (RNE_exact n 1074) by (change (2 ^ 53) with 9007199254740992; lia).
    apply RNE_mono; nia. }
  assert (Sp_hi : scaled mp ep <= (100 * n) * 2 ^ 1074).
  { rewrite Sp, <- (RNE_exact (100 * n) 1074) by (change (2 ^ 53) with 9007199254740992; lia).
    apply RNE_mono; nia. }
  pose proof (valid_Prim2SF _ _ _ _ Hprod) as Hvp.
  destruct (normal_range mp ep Hvp) as [Hep Hlp].
  { change (2 ^ 53) with 9007199254740992. nia. }
  assert (Hep0 : ep <= 0).
  { destruct (Z_le_gt_dec ep 0) as [|Hbig]; [assumption | exfalso].
    pose proof (scaled_bounds _ _ _ Hvp) as [_ Hlow]. specialize (Hlow ltac:(lia)).
    assert (2 ^ 53 * 2 ^ 1074 <= 2 ^ 52 * 2 ^ (ep + 1074)).
    { rewrite <- !Z.pow_add_r by lia. apply Z.pow_le_mono_r; lia. }
    change (2 ^ 53) with 9007199254740992 in *. nia. }
  (* divided by 100, at most [n] *)
  assert (Hval : Zpos mp * 2 ^ (ep + 52) * 2 ^ 1022 = scaled mp ep).
  { unfold scaled. rewrite <- Z.mul_assoc, <- Z.pow_add_r by lia. do 2 f_equal. lia. }
  pose proof (pow2_pos 1022 ltac:(lia)) as Hp'.
  assert (Hv_lo : n * 2 ^ 52 <= Zpos mp * 2 ^ (ep + 52)).
  { apply (Z.mul_le_mono_pos_r _ _ (2 ^ 1022) Hp'). rewrite Hval.
    replace (n * 2 ^ 52 * 2 ^ 1022) with (n * 2 ^ 1074); [exact Sp_lo|].
    change (2 ^ 1074) with (2 ^ 52 * 2 ^ 1022). ring. }
  assert (Hv_hi : Zpos mp * 2 ^ (ep + 52) <= (100 * n) * 2 ^ 52).
  { apply (Z.mul_le_mono_pos_r _ _ (2 ^ 1022) Hp'). rewrite Hval.
    replace (100 * n * 2 ^ 52 * 2 ^ 1022) with (100 * n * 2 ^ 1074); [exact Sp_hi|].
    change (2 ^ 1074) with (2 ^ 52 * 2 ^ 1022). ring. }
  rewrite <- of_size_t_100.
  destruct (div_normal_between (tau * of_size_t n) mp (ep + 52) 100 1 (128 * n) 7)
    as (m & e & Hm & _ & Hq);
    change (2 ^ 7) with 128; change (Z.log2 100) with 6;
    try (change (2 ^ 53) with 9007199254740992; change (2 ^ 52) with 4503599627370496 in *; lia).
  - rewrite Hprod. do 2 f_equal. lia.
  - apply (to_size_t_ceil_le oor _ m e n Hm); [|lia].
    change (2 ^ 1074) with (128 * 2 ^ (1074 - 7)). lia.
Qed.

(** A rounded multiple of [2^a] is a multiple of [2^a]. *)
Lemma RNE_multiple (N a : Z) :
  0 < N -> 0 <= a -> exists z : Z, RNE (N * 2 ^ a) = z * 2 ^ a.
Proof.
  intros HN Ha. unfold RNE, dropped. rewrite log2_shift by lia.
  set (d := Z.max (Z.log2 N + a + 1 - 53) 0).
  assert (Hd : 0 <= d) by (unfold d; lia).
  destruct (Z_le_gt_dec a d) as [Hle|Hgt].
  - exists (rne (N * 2 ^ a) d * 2 ^ (d - a)).
    rewrite <- Z.mul_assoc, <- Z.pow_add_r by lia. do 2 f_equal. lia.
  - exists N.
    assert (Hsplit : N * 2 ^ a = (N * 2 ^ (a - d)) * 2 ^ d).
    { rewrite <- Z.mul_assoc, <- Z.pow_add_r by lia. do 2 f_equal. lia. }
    pose proof (pow2_pos d Hd) as Hp.
    rewrite rne_exact; [| lia | rewrite Hsplit; apply Z.mod_mul; lia].
    rewrite Hsplit at 1. rewrite Z.div_mul by lia. symmetry. exact Hsplit.
Qed.

(** The double of a positive [size_t] is normal. *)
Lemma of_size_t_wide (N : Z) :
  0 < N < SizeT.modulus ->
  exists (m : positive) (e : Z),
    Prim2SF (of_size_t N) = S754_finite false m e
    /\ Z.log2 (Zpos m) = 52 /\ -52 <= e <= 12
    /\ scaled m e = RNE (N * 2 ^ 1074).
Proof.
  intros HN. pose proof modulus_lt_overflow as Hover. pose proof modulus_eq as Hmod.
  destruct (of_size_t_RNE N ltac:(lia)) as (m & e & Hm & Hs).
  exists m, e. split; [exact Hm|].
  pose proof (valid_Prim2SF _ _ _ _ Hm) as Hv.
  pose proof (valid_finite _ _ _ Hv) as [Hcanon _].
  pose proof (scaled_bounds _ _ _ Hv) as [Hup Hlow].
  pose proof (pow2_pos 1074 ltac:(lia)) as Hp.
  assert (Hge : 2 ^ 1074 <= scaled m e).
  { rewrite Hs.
    pose proof (RNE_mono (2 ^ 1074) (N * 2 ^ 1074) Hp ltac:(nia)) as H.
    rewrite RNE_one in H. exact H. }
  assert (Hle : scaled m e <= 2 ^ 1138).
  { rewrite Hs. change (2 ^ 1138) with (1 * 2 ^ 1138).
    rewrite <- (RNE_exact 1 1138) by lia.
    apply RNE_mono; [lia|]. change (1 * 2 ^ 1138) with (2 ^ 64 * 2 ^ 1074).
    apply Z.mul_le_mono_nonneg_r; [lia|]. change (2 ^ 64) with 18446744073709551616. lia. }
  assert (Hlo : -52 <= e).
  { destruct (Z_le_gt_dec (-52) e) as [|Hsmall]; [assumption | exfalso].
    assert (2 ^ 53 * 2 ^ (e + 1074) <= 2 ^ 1074).
    { rewrite <- Z.pow_add_r by lia. apply Z.pow_le_mono_r; lia. }
    lia. }
  specialize (Hlow ltac:(lia)).
  split; [lia|]. split; [|exact Hs]. split; [exact Hlo|].
  destruct (Z_le_gt_dec e 12) as [|Hbig]; [assumption | exfalso].
  assert (2 ^ 52 * 2 ^ (13 + 1074) <= 2 ^ 52 * 2 ^ (e + 1074)).
  { apply Z.mul_le_mono_nonneg_l; [lia|]. apply Z.pow_le_mono_r; lia. }
  assert (2 ^ 1138 < 2 ^ 52 * 2 ^ (13 + 1074)) by (apply Z.ltb_lt; vm_compute; reflexivity).
  lia.
Qed.

(** The quotient of two normal doubles [0 < x <= y] is at most 1. *)
Lemma div_le_one (x y : float) (ma mb : positive) (ea eb : Z) :
  Prim2SF x = S754_finite false ma ea ->
  Prim2SF y = S754_finite false mb eb ->
  Z.log2 (Zpos ma) = 52 -> Z.log2 (Zpos mb) = 52 ->
  -1074 <= ea -> eb - ea <= 1019 ->
  scaled ma ea <= scaled mb eb ->
  exists (m : positive) (e : Z),
    Prim2SF (x / y) = S754_finite false m e /\ scaled m e <= 2 ^ 1074.
Proof.
  intros Ea Eb Hla Hlb Hea Hgap Hle.
  assert (Hexp : ea <= eb).
  { destruct (Z_le_gt_dec ea eb) as [|Hgt]; [assumption | exfalso].
    pose proof (scaled_lt mb ma eb ea (valid_Prim2SF _ _ _ _ Eb)
                  (valid_Prim2SF _ _ _ _ Ea) ltac:(lia)). lia. }
  set (E := 53 - ea + eb).
  assert (Hmb : 2 ^ 52 <= Z.pos mb < 2 ^ 53).
  { split; [rewrite <- Hlb; apply Z.log2_spec; lia | apply Z.log2_lt_pow2; lia]. }
  assert (Hma : 2 ^ 52 <= Z.pos ma < 2 ^ 53).
  { split; [rewrite <- Hla; apply Z.log2_spec; lia | apply Z.log2_lt_pow2; lia]. }
  pose proof (Z_div_mod (Z.pos ma * 2 ^ 53) (Z.pos mb) ltac:(lia)) as Hdm.
  destruct (Z.div_eucl (Z.pos ma * 2 ^ 53) (Z.pos mb)) as [Q r] eqn:Hqr.
  destruct Hdm as [Hdm Hr].
  assert (Hcore : SFdiv_core_binary prec emax (Z.pos ma) ea (Z.pos mb) eb
                  = (Q, - E, new_location (Z.pos mb) r)).
  { unfold SFdiv_core_binary. cbn [Zdigits2]. rewrite !digits2_log2, Hla, Hlb, fexp64.
    replace (Z.min (Z.max (52 + 1 + ea - (52 + 1 + eb) - 53) (-1074)) (ea - eb))
      with (- E) by (unfold E; lia).
    replace (ea - eb - - E) with 53 by (unfold E; lia).
    rewrite Z.shiftl_mul_pow2 by lia. rewrite Hqr. reflexivity. }
  assert (HQ : 2 ^ 52 <= Q < 2 ^ 55).
  { assert (EQ : Q = Z.pos ma * 2 ^ 53 / Z.pos mb)
      by (apply (Z.div_unique _ _ Q r); [left; lia | lia]).
    rewrite EQ.
    change (2 ^ 52) with 4503599627370496 in *.
    change (2 ^ 53) with 9007199254740992 in *.
    change (2 ^ 55) with 36028797018963968.
    split.
    - apply Z.div_le_lower_bound; lia.
    - apply Z.div_lt_upper_bound; lia. }
  assert (HlQ : 52 <= Z.log2 Q <= 54).
  { split; [apply Z.log2_le_pow2; lia|].
    assert (Z.log2 Q < 55) by (apply Z.log2_lt_pow2; lia). lia. }
  destruct (new_location_bits (Z.pos mb) r Hr) as [Hexact Hbits].
  set (l := new_location (Z.pos mb) r) in *.
  destruct Q as [|Qp|Qp] eqn:EQ; try lia.
  assert (HM : exists M : positive, Zpos M = 4 * Zpos Qp + loc_bits l).
  { destruct (4 * Zpos Qp + loc_bits l) as [|M|M] eqn:EM; try lia. exists M. reflexivity. }
  destruct HM as [M HM].
  destruct (binary_round_aux_loc Qp (- E) l M HM) as (m & e & Hround & Hv & Hval).
  - unfold E. lia.
  - rewrite fexp64, digits2_log2. lia.
  - unfold E. lia.
  - exists m, e. split.
    + rewrite div_spec, Ea, Eb. unfold SF64div, SFdiv. rewrite Hcore. exact Hround.
    + assert (Hone : 2 ^ 1074 = (4 * 2 ^ E) * 2 ^ (- E - 2 + 1074)).
      { change 4 with (2 ^ 2). rewrite <- !Z.pow_add_r by (unfold E; lia).
        f_equal. lia. }
      assert (Hp : 0 < 2 ^ (- E - 2 + 1074)) by (apply pow2_pos; unfold E; lia).
      assert (Hvalue : Z.pos ma * 2 ^ 53 <= Z.pos mb * 2 ^ E).
      { unfold scaled in Hle.
        pose proof (pow2_pos (ea + 1074) ltac:(lia)) as Hpa.
        replace (eb + 1074) with ((eb - ea) + (ea + 1074)) in Hle by lia.
        rewrite (Z.pow_add_r 2 (eb - ea) (ea + 1074)), Z.mul_assoc in Hle by lia.
        apply Z.mul_le_mono_pos_r in Hle; [|exact Hpa].
        unfold E. replace (53 - ea + eb) with ((eb - ea) + 53) by lia.
        rewrite Z.pow_add_r, Z.mul_assoc by lia.
        apply Z.mul_le_mono_nonneg_r; lia. }
      assert (HhiQ : 4 * Z.pos Qp + loc_bits l <= 4 * 2 ^ E).
      { destruct (Z.eq_dec r 0) as [Er|Er].
        - rewrite (Hexact Er). nia.
        - assert (Z.pos Qp < 2 ^ E) by nia. lia. }
      rewrite Hval, <- RNE_one. unfold scaled. rewrite HM.
      apply RNE_mono; [nia|].
      rewrite Hone. apply Z.mul_le_mono_nonneg_r; lia.
Qed.

(** [t / n] in double arithmetic, for [0 <= t <= n], lies in [[0, 1]]. *)
Lemma ratio_in_unit_interval (n t : Z) :
  1 <= n < SizeT.modulus -> 0 <= t <= n ->
  (0 <=? of_size_t t / of_size_t n)%float = true
  /\ (of_size_t t / of_size_t n <=? 1)%float = true.
Proof.
  intros Hn Ht.
  destruct (of_size_t_wide n ltac:(lia)) as (mb & eb & Eb & Hlb & Heb & Sb).
  rewrite !leb_spec, Prim2SF_zero, Prim2SF_one.
  destruct (Z.eq_dec t 0) as [->|Ht0].
  - rewrite div_spec, Eb. split; reflexivity.
  - destruct (of_size_t_wide t ltac:(lia)) as (ma & ea & Ea & Hla & Hea & Sa).
    destruct (div_le_one _ _ ma mb ea eb Ea Eb Hla Hlb) as (m & e & Hq & Hle);
      [lia | lia | |].
    + rewrite Sa, Sb. pose proof (pow2_pos 1074 ltac:(lia)). apply RNE_mono; nia.
    + rewrite Hq. split; [reflexivity|]. unfold SFleb.
      rewrite compare_scaled;
        [| apply (valid_Prim2SF _ _ _ _ Hq) | apply (valid_Prim2SF 1), Prim2SF_one].
      rewrite scaled_one.
      destruct (Z.compare_spec (scaled m e) (2 ^ 1074)); [reflexivity | reflexivity | lia].
Qed.

(** [1 - t / n] as well. *)
Lemma base_in_unit_interval (n t : Z) :
  1 <= n < SizeT.modulus -> 0 <= t <= n ->
  (0 <=? 1 - of_size_t t / of_size_t n)%float = true
  /\ (1 - of_size_t t / of_size_t n <=? 1)%float = true.
Proof.
  intros Hn Ht. destruct (ratio_in_unit_interval n t Hn Ht) as [H0 H1]. split.
  - change 0%float with (1 - 1)%float at 1.
    apply sub_one_antitone; [exact H0 | exact H1 | reflexivity].
  - change 1%float with (1 - 0)%float at 2.
    apply sub_one_antitone; [reflexivity | exact H0 | exact H1].
Qed.

(** ** SuccessProbability against its specification *)

Section SuccessProbability_facts.

Variable pow : float -> float -> float.

Lemma Choose_binomial (m j jTrans : Z) :
  0 <= m < SizeT.modulus ->
  jTrans = Z.min j (m - j) ->
  jTrans <= m ->
  Choose m jTrans = binomial_spec m j.
Proof.
  intros Hm -> Hle. unfold Choose, binomial_spec.
  rewrite for_range_fold.
  replace (Z.min j (m - j) + 1 - 2) with (Z.min j (m - j) - 1) by lia.
  apply fold_left_seqZ_ext. intros c i Hi.
  unwrap. reflexivity.
Qed.

Lemma sum_step_tail_term (m : Z) (eps : float) (topHalf : bool) (j : Z) (sum : float) :
  0 <= m < SizeT.modulus ->
  0 <= j <= m ->
  (if topHalf then j <= m - j else m - j <= j) ->
  sum_step pow m eps topHalf j sum = (sum + tail_term pow m eps j)%float.
Proof.
  intros Hm Hj Hhalf. unfold sum_step, tail_term.
  rewrite (Choose_binomial m j).
  - unwrap. reflexivity.
  - exact Hm.
  - destruct topHalf; unwrap; lia.
  - destruct topHalf; unwrap; lia.
Qed.

End SuccessProbability_facts.

(** C1 (amended).  Where the [size_t] expressions [n - t + k - 1] and [2 * k]
    do not wrap around, [SuccessProbability] returns what the specification
    says: for [k = 1], [1.0] if [m > n - t] and [1 - (1 - t/n)^m] otherwise;
    for [k > 1], [0.0] if [m < k], [1.0] if [m > n - t + k - 1], and otherwise
    the binomial tail, summed in double precision as the complement
    ([(1 - eps)^m] plus the terms [j = 1 .. k - 1], taken from 1) when
    [2 k < m] and directly ([eps^m] plus the terms [j = k .. m - 1])
    otherwise. *)
Theorem SuccessProbability_refines_spec
    (pow : float -> float -> float) (n k m t : Z) :
  1 <= k <= n -> 0 <= t <= n ->
  n < SizeT.modulus -> 0 <= m < SizeT.modulus ->
  n - t + k <= SizeT.modulus -> 2 * k < SizeT.modulus ->
  SuccessProbability pow n k m t = SuccessProbability_spec pow n k m t.
Proof.
  intros Hk Ht Hn Hm Hsat Hdbl.
  unfold SuccessProbability, SuccessProbability_spec.
  destruct (k =? 1) eqn:Hk1.
  - unwrap. reflexivity.
  - apply Z.eqb_neq in Hk1.
    destruct (m <? k) eqn:Hmk; [reflexivity|]. apply Z.ltb_ge in Hmk.
    rewrite saturation_bound_exact by lia. unwrap.
    destruct (n - t + k - 1 <? m) eqn:Hs; [reflexivity|]. apply Z.ltb_ge in Hs.
    destruct (2 * k <? m) eqn:Hhalf.
    + apply Z.ltb_lt in Hhalf. f_equal.
      rewrite for_range_fold. unfold tail_sum.
      apply fold_left_seqZ_ext. intros sum j Hj.
      apply sum_step_tail_term; [exact Hm | lia | lia].
    + apply Z.ltb_ge in Hhalf.
      rewrite for_range_fold. unfold tail_sum.
      apply fold_left_seqZ_ext. intros sum j Hj.
      apply sum_step_tail_term; [exact Hm | lia | lia].
Qed.

Lemma SuccessProbability_refines_spec_witness :
  SuccessProbability pow_ref 1000 30 100 100
  = SuccessProbability_spec pow_ref 1000 30 100 100.
Proof.
  apply SuccessProbability_refines_spec; pose proof modulus_eq; lia.
Defined.

(** Lines 88-89 and 101-102: the saturation branches. *)
Lemma saturated_single (pow : float -> float -> float) (n m t : Z) :
  0 <= t <= n -> 0 <= m < SizeT.modulus -> n - t < m ->
  SuccessProbability pow n 1 m t = 1%float.
Proof.
  intros Ht Hm Hsat. unfold SuccessProbability. cbn [Z.eqb Pos.eqb].
  unwrap. destruct (n - t <? m) eqn:E; [reflexivity|].
  apply Z.ltb_ge in E. lia.
Qed.

Lemma saturated_several (pow : float -> float -> float) (n k m t : Z) :
  0 <= t <= n -> 0 <= m < SizeT.modulus -> 1 < k -> n - t + k - 1 < m ->
  SuccessProbability pow n k m t = 1%float.
Proof.
  intros Ht Hm Hk Hsat. unfold SuccessProbability.
  destruct (k =? 1) eqn:Hk1; [apply Z.eqb_eq in Hk1; lia|].
  destruct (m <? k) eqn:Hmk; [apply Z.ltb_lt in Hmk; lia|].
  rewrite saturation_bound_exact by lia.
  destruct (n - t + k - 1 <? m) eqn:E; [reflexivity|].
  apply Z.ltb_ge in E. lia.
Qed.

(** C4 (amended).  Saturation is strict: [SuccessProbability (n, 1, m, t)] is
    1 for every [m > n - t], and for [k > 1] [SuccessProbability (n, k, m, t)]
    is 1 for every [m > n - t + k - 1]. *)
Theorem SuccessProbability_saturates
    (pow : float -> float -> float) (n m t : Z) :
  0 <= t <= n -> 0 <= m < SizeT.modulus ->
  (n - t < m -> SuccessProbability pow n 1 m t = 1%float)
  /\ (forall k : Z, 1 < k -> n - t + k - 1 < m ->
        SuccessProbability pow n k m t = 1%float).
Proof.
  intros Ht Hm. split.
  - intros Hsat. apply saturated_single; assumption.
  - intros k Hk Hsat. apply saturated_several; assumption.
Qed.

Lemma SuccessProbability_saturates_witness :
  SuccessProbability pow_ref 10 1 6 5 = 1%float
  /\ SuccessProbability pow_ref 10 2 7 5 = 1%float.
Proof.
  destruct (SuccessProbability_saturates pow_ref 10 7 5) as [_ H2];
    [lia | pose proof modulus_eq; lia |].
  destruct (SuccessProbability_saturates pow_ref 10 6 5) as [H1 _];
    [lia | pose proof modulus_eq; lia |].
  split; [apply H1; lia | apply H2; lia].
Defined.

(** C4: at the boundary values themselves the result is not 1: with [eps = 1/2],
    [m = n - t] for [k = 1] and [m = n - t + k - 1] for [k = 2] give the
    closed form and the binomial tail, and for [n = t] the boundary
    [m = k - 1] gives 0. *)
Lemma SuccessProbability_boundary_not_saturated :
  SuccessProbability pow_ref 10 1 5 5 = 0.96875%float
  /\ SuccessProbability pow_ref 10 2 6 5 = 0.890625%float
  /\ SuccessProbability pow_ref 5 2 1 5 = 0%float.
Proof. repeat split; vm_compute; reflexivity. Qed.

(** On a 64-bit [size_t] the saturation bound [n - t + k - 1] wraps around
    for [n = 2^64 - 1], [t = 0], [k = 2]: the source returns 1 where the
    binomial tail is [0^2 = 0]. *)
Lemma SuccessProbability_saturation_bound_wraps :
  SuccessProbability pow_ref (2 ^ 64 - 1) 2 2 0 = 1%float
  /\ SuccessProbability_spec pow_ref (2 ^ 64 - 1) 2 2 0 = 0%float.
Proof. split; vm_compute; reflexivity. Qed.

(** A NaN sum stays a NaN. *)
Lemma nan_add_l (x : float) : (nan + x)%float = nan.
Proof. apply Prim2SF_inj. rewrite add_spec. reflexivity. Qed.

Lemma sum_nan_absorbs (pow : float -> float -> float) (m : Z) (eps : float)
    (topHalf : bool) (cnt : nat) :
  forall j : Z, for_upto cnt j (sum_step pow m eps topHalf) nan = nan.
Proof.
  induction cnt as [|cnt IH]; intros j; cbn [for_upto]; [reflexivity|].
  unfold sum_step at 2. rewrite nan_add_l. apply IH.
Qed.

(** [2 * k] wraps around for [k = 2^63]: the source takes the complement
    summation over [j = 1 .. k - 1], whose sum is a NaN from [j = 18] on
    (an infinite coefficient times a power that has underflowed to 0), where
    the direct summation is [eps^m = 0]. *)
Lemma SuccessProbability_doubling_wraps :
  SuccessProbability pow_ref (2 ^ 63 + 1) (2 ^ 63) (2 ^ 63) 1 = nan
  /\ SuccessProbability_spec pow_ref (2 ^ 63 + 1) (2 ^ 63) (2 ^ 63) 1 = 0%float.
Proof.
  split; [|vm_compute; reflexivity].
  unfold SuccessProbability.
  change (2 ^ 63 =? 1) with false. cbv iota.
  change (2 ^ 63 <? 2 ^ 63) with false. cbv iota.
  change (SizeT.sub (SizeT.add (SizeT.sub (2 ^ 63 + 1) 1) (2 ^ 63)) 1 <? 2 ^ 63)
    with false. cbv iota.
  change (SizeT.mul 2 (2 ^ 63) <? 2 ^ 63) with true. cbv iota beta zeta.
  assert (H : 1 <= 19 <= 2 ^ 63) by lia.
  pose proof (fun A b => @for_range_split A b 1 19 (2 ^ 63)) as S.
  match goal with
  | |- context [for_range 1 (2 ^ 63) ?f ?a] => rewrite (S _ f a H)
  end.
  clear S.
  match goal with
  | |- context [for_range 1 19 ?f ?a] =>
      assert (N : for_range 1 19 f a = nan) by (vm_compute; reflexivity)
  end.
  rewrite N. unfold for_range. rewrite sum_nan_absorbs. reflexivity.
Qed.

(** C1: the claim fails where [size_t] arithmetic wraps around, both in the
    saturation bound and in the choice of the summation. *)
Lemma SuccessProbability_wraps_around :
  (SuccessProbability pow_ref (2 ^ 64 - 1) 2 2 0 = 1%float
   /\ SuccessProbability_spec pow_ref (2 ^ 64 - 1) 2 2 0 = 0%float)
  /\ (SuccessProbability pow_ref (2 ^ 63 + 1) (2 ^ 63) (2 ^ 63) 1 = nan
      /\ SuccessProbability_spec pow_ref (2 ^ 63 + 1) (2 ^ 63) (2 ^ 63) 1 = 0%float).
Proof.
  split.
  - exact SuccessProbability_saturation_bound_wraps.
  - exact SuccessProbability_doubling_wraps.
Qed.

(** X1.  Lines 98-99: for [k] other than 1 and [m < k] the result is 0,
    whatever [n] and [t] are: fewer than [k] samples cannot hold [k] of the
    top [t]. *)
Theorem SuccessProbability_zero_below_k
    (pow : float -> float -> float) (n k m t : Z) :
  k <> 1 -> m < k -> SuccessProbability pow n k m t = 0%float.
Proof.
  intros Hk Hm. unfold SuccessProbability.
  destruct (Z.eqb_spec k 1) as [E|_]; [contradiction|].
  destruct (Z.ltb_spec m k) as [_|Hge]; [reflexivity | lia].
Qed.

Lemma SuccessProbability_zero_below_k_witness :
  SuccessProbability pow_ref 10 3 2 5 = 0%float.
Proof. apply SuccessProbability_zero_below_k; lia. Defined.

(** X2.  Lines 98-143 with [m = k]: for [k >= 2] and [t < n], where nothing
    wraps around, the direct summation has no term to add and the result is
    [pow (t / n, k)]: all [k] samples in the top [t]. *)
Theorem SuccessProbability_exactly_k
    (pow : float -> float -> float) (n k t : Z) :
  2 <= k -> 0 <= t < n -> n < SizeT.modulus ->
  n - t + k <= SizeT.modulus -> 2 * k < SizeT.modulus ->
  SuccessProbability pow n k k t
  = pow (of_size_t t / of_size_t n)%float (of_size_t k).
Proof.
  intros Hk Ht Hn Hsat Hdbl. pose proof modulus_eq as Hmod.
  unfold SuccessProbability.
  destruct (Z.eqb_spec k 1) as [E|_]; [lia|].
  rewrite Z.ltb_irrefl.
  rewrite saturation_bound_exact by lia.
  destruct (Z.ltb_spec (n - t + k - 1) k) as [Hlt|_]; [lia|].
  replace (SizeT.mul 2 k) with (2 * k) by (unwrap; reflexivity).
  destruct (Z.ltb_spec (2 * k) k) as [Hlt|_]; [lia|].
  unfold for_range. rewrite Z.sub_diag. reflexivity.
Qed.

Lemma SuccessProbability_exactly_k_witness :
  SuccessProbability pow_ref 10 3 3 5 = pow_ref (of_size_t 5 / of_size_t 10)%float (of_size_t 3).
Proof. apply SuccessProbability_exactly_k; pose proof modulus_eq; lia. Defined.

(** X3.  [k = 0] is not answered with 1: below the saturation bound, which
    wraps around when [n = t], the complement summation runs over no [j] and
    the result is that of [k = 1], [1 - pow (1 - t / n, m)]. *)
Theorem SuccessProbability_no_neighbours
    (pow : float -> float -> float) (n m t : Z) :
  0 <= t <= n -> n < SizeT.modulus -> 0 < m < SizeT.modulus ->
  m < n - t \/ n = t ->
  SuccessProbability pow n 0 m t
  = (1 - pow (1 - of_size_t t / of_size_t n) (of_size_t m))%float.
Proof.
  intros Ht Hn Hm Hbelow. pose proof modulus_eq as Hmod.
  unfold SuccessProbability. cbn [Z.eqb].
  destruct (Z.ltb_spec m 0) as [Hneg|_]; [lia|].
  assert (Hbound : m <= SizeT.sub (SizeT.add (SizeT.sub n t) 0) 1).
  { destruct Hbelow as [Hlt | ->].
    - unwrap. lia.
    - unfold SizeT.sub, SizeT.add. rewrite Z.sub_diag.
      change (SizeT.wrap (SizeT.wrap (SizeT.wrap 0 + 0) - 1)) with (SizeT.modulus - 1). lia. }
  destruct (Z.ltb_spec (SizeT.sub (SizeT.add (SizeT.sub n t) 0) 1) m) as [Hlt|_]; [lia|].
  change (SizeT.mul 2 0) with 0.
  destruct (Z.ltb_spec 0 m) as [_|Hle]; [|lia].
  reflexivity.
Qed.

Lemma SuccessProbability_no_neighbours_witness :
  SuccessProbability pow_ref 10 0 3 5
  = (1 - pow_ref (1 - of_size_t 5 / of_size_t 10) (of_size_t 3))%float.
Proof. apply SuccessProbability_no_neighbours; pose proof modulus_eq; lia. Defined.

(** ** The binomial coefficient of a term *)

Lemma binomial_0_r (m : nat) : binomial m 0 = 1.
Proof. destruct m; reflexivity. Qed.

Lemma binomial_S (m j : nat) :
  binomial (S m) (S j) = binomial m j + binomial m (S j).
Proof. reflexivity. Qed.

Lemma binomial_nonneg (m : nat) : forall j : nat, 0 <= binomial m j.
Proof.
  induction m as [|m IH]; intros [|j]; cbn [binomial]; try lia.
  pose proof (IH j). pose proof (IH (S j)). lia.
Qed.

Lemma binomial_pos (m : nat) : forall j : nat, (j <= m)%nat -> 0 < binomial m j.
Proof.
  induction m as [|m IH]; intros [|j] Hj; cbn [binomial]; try lia.
  pose proof (IH j ltac:(lia)). pose proof (binomial_nonneg m (S j)). lia.
Qed.

(** [(j + 1) C(m, j + 1) = (m - j) C(m, j)]. *)
Lemma binomial_absorb (m : nat) :
  forall j : nat,
    Z.of_nat (S j) * binomial m (S j) + Z.of_nat j * binomial m j
    = Z.of_nat m * binomial m j.
Proof.
  induction m as [|m IH]; intros j.
  - destruct j; cbn [binomial]; lia.
  - destruct j as [|j].
    + rewrite binomial_S, !binomial_0_r. pose proof (IH 0%nat) as H0.
      rewrite binomial_0_r in H0. lia.
    + rewrite !binomial_S. pose proof (IH j) as H1. pose proof (IH (S j)) as H2.
      rewrite !Nat2Z.inj_succ in *. nia.
Qed.

(** [j C(m, j)] does not decrease while [j - 1 <= m / 2]. *)
Lemma binomial_product_mono (m : nat) (i j : nat) :
  (i <= j)%nat -> (2 * (j - 1) <= m)%nat ->
  Z.of_nat i * binomial m i <= Z.of_nat j * binomial m j.
Proof.
  intros Hij Hj. induction j as [|j IH].
  - replace i with 0%nat by lia. lia.
  - destruct (Nat.eq_dec i (S j)) as [->|Hne]; [lia|].
    specialize (IH ltac:(lia) ltac:(lia)).
    pose proof (binomial_absorb m j) as Habs.
    pose proof (binomial_nonneg m j) as Hpos.
    assert (Z.of_nat j * binomial m j <= Z.of_nat (S j) * binomial m (S j)) by nia.
    lia.
Qed.

Section Choose_facts.

Variable m : Z.

Local Abbreviation C j := (binomial (Z.to_nat m) (Z.to_nat j)).
Local Abbreviation body :=
  (fun i mCj => (mCj * of_size_t (SizeT.sub m (SizeT.sub i 1)) / of_size_t i)%float).

(** The running product holds [C(m, i)] after the pass for [i], as long as
    the products [i C(m, i)] have at most 53 bits. *)
Lemma Choose_running (cnt : nat) :
  forall i : Z,
    1 <= i -> 2 * (i + Z.of_nat cnt - 1) <= m ->
    (i + Z.of_nat cnt) * C (i + Z.of_nat cnt) <= 2 ^ 53 ->
    for_upto cnt (i + 1) body (of_size_t (C i)) = of_size_t (C (i + Z.of_nat cnt)).
Proof.
  induction cnt as [|cnt IH]; intros i Hi Hhalf Hfit.
  - cbn [for_upto]. do 2 f_equal. lia.
  - cbn [for_upto].
    replace (i + Z.of_nat (S cnt)) with (i + 1 + Z.of_nat cnt) in * by lia.
    set (j := i + 1 + Z.of_nat cnt) in *.
    assert (Hm : m < SizeT.modulus).
    { pose proof modulus_eq. 
      pose proof (binomial_product_mono (Z.to_nat m) 1 (Z.to_nat j) ltac:(lia) ltac:(lia)) as H1.
      change (binomial (Z.to_nat m) 1) with (C 1) in H1.
      assert (E1 : C 1 = m).
      { pose proof (binomial_absorb (Z.to_nat m) 0) as Ha. rewrite binomial_0_r in Ha.
        change (Z.to_nat 1) with 1%nat. lia. }
      rewrite E1 in H1. lia. }
    assert (Hstep : Z.of_nat (Z.to_nat (i + 1)) * C (i + 1) <= Z.of_nat (Z.to_nat j) * C j)
      by (apply binomial_product_mono; lia).
    pose proof (binomial_absorb (Z.to_nat m) (Z.to_nat i)) as Habs.
    replace (S (Z.to_nat i)) with (Z.to_nat (i + 1)) in Habs by lia.
    assert (Hprod : C i * (m - i) = C (i + 1) * (i + 1)) by lia.
    pose proof (binomial_pos (Z.to_nat m) (Z.to_nat i) ltac:(lia)) as Hci.
    pose proof (binomial_pos (Z.to_nat m) (Z.to_nat (i + 1)) ltac:(lia)) as Hci1.
    replace (SizeT.sub m (SizeT.sub (i + 1) 1)) with (m - i) by (unwrap; f_equal; lia).
    rewrite mul_exact by nia.
    rewrite Hprod, div_exact by nia.
    apply IH; [lia | lia | exact Hfit].
Qed.

End Choose_facts.

(** X4.  Lines 148-162: the running product of the inner loop is the
    binomial coefficient [C(m, jTrans)], converted to [double] without
    error, whenever [jTrans - 1 <= m / 2] (as in every call: the loop is
    entered with the smaller of [j] and [m - j]) and [jTrans C(m, jTrans)],
    the largest intermediate product, has at most 53 bits. *)
Theorem Choose_exact (m jTrans : Z) :
  1 <= jTrans -> 2 * (jTrans - 1) <= m ->
  jTrans * binomial (Z.to_nat m) (Z.to_nat jTrans) <= 2 ^ 53 ->
  Choose m jTrans = of_size_t (binomial (Z.to_nat m) (Z.to_nat jTrans)).
Proof.
  intros Hj Hhalf Hfit. unfold Choose, for_range.
  assert (E1 : binomial (Z.to_nat m) (Z.to_nat 1) = m).
  { pose proof (binomial_absorb (Z.to_nat m) 0) as Ha. rewrite binomial_0_r in Ha.
    change (Z.to_nat 1) with 1%nat. lia. }
  pose proof (Choose_running m (Z.to_nat (jTrans + 1 - 2)) 1) as H.
  replace (1 + Z.of_nat (Z.to_nat (jTrans + 1 - 2))) with jTrans in H by lia.
  rewrite E1 in H. apply H; [lia | lia | exact Hfit].
Qed.

Lemma Choose_exact_witness :
  Choose 12 5 = of_size_t 792.
Proof.
  apply (Choose_exact 12 5); [lia | lia | vm_compute; discriminate].
Defined.

(** ** The summation with exact coefficients *)

Lemma binomial_above (m : nat) : forall j : nat, (m < j)%nat -> binomial m j = 0.
Proof.
  induction m as [|m IH]; intros [|j] Hj; cbn [binomial]; try lia.
  rewrite !IH by lia. reflexivity.
Qed.

Lemma binomial_diag (m : nat) : binomial m m = 1.
Proof.
  induction m as [|m IH]; [reflexivity|].
  rewrite binomial_S, IH, binomial_above by lia. reflexivity.
Qed.

(** [C(m, j) = C(m, m - j)]. *)
Lemma binomial_sym (m : nat) : forall j : nat, (j <= m)%nat -> binomial m j = binomial m (m - j).
Proof.
  induction m as [|m IH]; intros j Hj.
  - replace j with 0%nat by lia. reflexivity.
  - destruct j as [|j].
    + rewrite binomial_0_r, Nat.sub_0_r, binomial_diag. reflexivity.
    + destruct (Nat.eq_dec j m) as [->|Hne].
      * rewrite binomial_diag, Nat.sub_diag, binomial_0_r. reflexivity.
      * replace (S m - S j)%nat with (S (m - S j)) by lia.
        rewrite !binomial_S.
        rewrite (IH j) by lia. rewrite (IH (S j)) by lia.
        replace (m - j)%nat with (S (m - S j)) by lia. lia.
Qed.

(** [C(m, j) <= 2^(m - 1)]. *)
Lemma binomial_le_pow2 (m : nat) :
  forall j : nat, binomial (S m) j <= 2 ^ Z.of_nat m.
Proof.
  induction m as [|m IH]; intros j.
  - destruct j as [|[|j]]; cbn; lia.
  - destruct j as [|j].
    + rewrite binomial_0_r. pose proof (pow2_pos (Z.of_nat (S m)) ltac:(lia)). lia.
    + rewrite binomial_S. pose proof (IH j). pose proof (IH (S j)).
      rewrite Nat2Z.inj_succ, Z.pow_succ_r by lia. lia.
Qed.

(** The coefficients of [m <= 49] samples fit. *)
Lemma binomial_fits (m : Z) :
  m <= 49 -> (m / 2) * binomial (Z.to_nat m) (Z.to_nat (m / 2)) <= 2 ^ 53.
Proof.
  intros Hm. destruct (Z_le_gt_dec m 1) as [Hsmall|Hbig].
  - assert (E : m / 2 <= 0) by div_lia.
    pose proof (binomial_nonneg (Z.to_nat m) (Z.to_nat (m / 2))).
    change (2 ^ 53) with 9007199254740992. nia.
  - replace (Z.to_nat m) with (S (Z.to_nat (m - 1))) by lia.
    pose proof (binomial_le_pow2 (Z.to_nat (m - 1)) (Z.to_nat (m / 2))) as Hle.
    rewrite Z2Nat.id in Hle by lia.
    assert (Hpow : 2 ^ (m - 1) <= 2 ^ 48) by (apply Z.pow_le_mono_r; lia).
    pose proof (binomial_nonneg (S (Z.to_nat (m - 1))) (Z.to_nat (m / 2))).
    assert (Hhalf : 0 <= m / 2 <= 24) by div_lia.
    change (2 ^ 48) with 281474976710656 in Hpow.
    change (2 ^ 53) with 9007199254740992. nia.
Qed.

Section Exact_facts.

Variable pow : float -> float -> float.

Lemma sum_step_exact (m : Z) (eps : float) (topHalf : bool) (j : Z) (sum : float) :
  1 <= j < m ->
  (if topHalf then 2 * j <= m else m <= 2 * j) ->
  (m / 2) * binomial (Z.to_nat m) (Z.to_nat (m / 2)) <= 2 ^ 53 ->
  sum_step pow m eps topHalf j sum = (sum + exact_term pow m eps j)%float.
Proof.
  intros Hj Hhalf Hfit. pose proof modulus_eq as Hmod.
  set (jTrans := if topHalf then j else m - j).
  assert (HjT : 1 <= jTrans <= m / 2) by (unfold jTrans; destruct topHalf; div_lia).
  assert (Hhalf' : 2 * (m / 2 - 1) <= m) by div_lia.
  pose proof (binomial_product_mono (Z.to_nat m) (Z.to_nat jTrans) (Z.to_nat (m / 2))
                ltac:(lia) ltac:(lia)) as Hmono.
  rewrite !Z2Nat.id in Hmono by lia.
  assert (Hm : m < SizeT.modulus).
  { pose proof (binomial_product_mono (Z.to_nat m) 1 (Z.to_nat (m / 2)) ltac:(lia) ltac:(lia))
      as H1.
    pose proof (binomial_absorb (Z.to_nat m) 0) as Ha. rewrite binomial_0_r in Ha.
    rewrite Z2Nat.id in H1 by lia. change (2 ^ 53) with 9007199254740992 in Hfit. lia. }
  assert (Hchoose : Choose m jTrans = of_size_t (binomial (Z.to_nat m) (Z.to_nat j))).
  { assert (Esym : binomial (Z.to_nat m) (Z.to_nat j)
                   = binomial (Z.to_nat m) (Z.to_nat jTrans)).
    { unfold jTrans. destruct topHalf; [reflexivity|].
      rewrite (binomial_sym (Z.to_nat m) (Z.to_nat j)) by lia. f_equal. lia. }
    rewrite Esym. unfold Choose, for_range.
    pose proof (Choose_running m (Z.to_nat (jTrans + 1 - 2)) 1) as H.
    replace (1 + Z.of_nat (Z.to_nat (jTrans + 1 - 2))) with jTrans in H by lia.
    assert (E1 : binomial (Z.to_nat m) (Z.to_nat 1) = m).
    { pose proof (binomial_absorb (Z.to_nat m) 0) as Ha. rewrite binomial_0_r in Ha.
      change (Z.to_nat 1) with 1%nat. lia. }
    rewrite E1 in H. apply H; lia. }
  unfold sum_step, exact_term. cbv zeta.
  replace (SizeT.sub m j) with (m - j) by (unwrap; reflexivity).
  fold jTrans. rewrite Hchoose. reflexivity.
Qed.

End Exact_facts.

(** X17.  For [2 <= k <= m] below the saturation bound, where nothing wraps
    around, and [m <= 49] or, more generally, [(m / 2) C(m, m / 2) <= 2^53]:
    the result is the binomial tail with the exact coefficients [C(m, j)],
    summed in double arithmetic as the complement when [2 k < m] and directly
    otherwise; the direct summation's product over [m - j] factors gives
    [C(m, m - j) = C(m, j)]. *)
Theorem SuccessProbability_exact_terms
    (pow : float -> float -> float) (n k m t : Z) :
  2 <= k <= m -> 0 <= t <= n -> n < SizeT.modulus ->
  m <= n - t + k - 1 -> n - t + k <= SizeT.modulus ->
  m <= 49 \/ (m / 2) * binomial (Z.to_nat m) (Z.to_nat (m / 2)) <= 2 ^ 53 ->
  let eps := (of_size_t t / of_size_t n)%float in
  SuccessProbability pow n k m t
  = if 2 * k <? m
    then (1 - exact_sum pow m eps 1 k (pow (1 - eps) (of_size_t m)))%float
    else exact_sum pow m eps k m (pow eps (of_size_t m)).
Proof.
  intros Hk Ht Hn Hsat Hwrap Hsmall eps. pose proof modulus_eq as Hmod.
  assert (Hfit : (m / 2) * binomial (Z.to_nat m) (Z.to_nat (m / 2)) <= 2 ^ 53)
    by (destruct Hsmall as [H|H]; [apply binomial_fits, H | exact H]).
  assert (Hm : m <= 9007199254740992).
  { pose proof (binomial_product_mono (Z.to_nat m) 1 (Z.to_nat (m / 2))
                  ltac:(div_lia) ltac:(div_lia)) as H1.
    pose proof (binomial_absorb (Z.to_nat m) 0) as Ha. rewrite binomial_0_r in Ha.
    rewrite Z2Nat.id in H1 by div_lia. change (2 ^ 53) with 9007199254740992 in Hfit. lia. }
  unfold SuccessProbability.
  destruct (Z.eqb_spec k 1) as [E|_]; [lia|].
  destruct (Z.ltb_spec m k) as [Hlt|_]; [lia|].
  rewrite saturation_bound_exact by lia.
  destruct (Z.ltb_spec (n - t + k - 1) m) as [Hlt|_]; [lia|].
  replace (SizeT.mul 2 k) with (2 * k) by (unwrap; reflexivity).
  fold eps.
  destruct (Z.ltb_spec (2 * k) m) as [Hhalf|Hhalf].
  - f_equal. rewrite for_range_fold. unfold exact_sum.
    apply fold_left_seqZ_ext. intros sum j Hj.
    apply sum_step_exact; [lia | lia | exact Hfit].
  - rewrite for_range_fold. unfold exact_sum.
    apply fold_left_seqZ_ext. intros sum j Hj.
    apply sum_step_exact; [lia | lia | exact Hfit].
Qed.

Lemma SuccessProbability_exact_terms_witness :
  SuccessProbability pow_ref 20 3 12 5
  = if 2 * 3 <? 12
    then (1 - exact_sum pow_ref 12 (of_size_t 5 / of_size_t 20) 1 3
                (pow_ref (1 - of_size_t 5 / of_size_t 20) (of_size_t 12)))%float
    else exact_sum pow_ref 12 (of_size_t 5 / of_size_t 20) 3 12
           (pow_ref (of_size_t 5 / of_size_t 20) (of_size_t 12)).
Proof.
  apply (SuccessProbability_exact_terms pow_ref 20 3 12 5);
    try (pose proof modulus_eq; lia).
Defined.

(** ** The power of the specification

    [power] on a base in [[0, 1]]: its values are in [[0, 1]] and do not
    increase with the exponent, however far below the subnormals the
    exact power lies. *)

Lemma scaled_pos (x : float) (s : bool) (m : positive) (e : Z) :
  Prim2SF x = S754_finite s m e -> 0 < scaled m e.
Proof.
  intros Hx. pose proof (valid_finite _ _ _ (valid_Prim2SF _ _ _ _ Hx)) as [Hc _].
  unfold scaled. pose proof (pow2_pos (e + 1074) ltac:(lia)). nia.
Qed.

Lemma valued_nonneg (x : float) (c V : Z) : valued x c V -> (0 <=? x)%float = true.
Proof.
  rewrite leb_spec, Prim2SF_zero.
  intros [[-> _] | (m & e & -> & _)]; reflexivity.
Qed.

Lemma valued_leb (x y : float) (c V W : Z) :
  0 <= c -> valued x c V -> valued y c W -> V <= W -> (x <=? y)%float = true.
Proof.
  intros Hc Hx Hy Hle. pose proof (pow2_pos c Hc) as Hp.
  rewrite leb_spec. unfold SFleb.
  destruct Hx as [[Ex _] | (mx & ex & Ex & Vx)], Hy as [[Ey Wy] | (my & ey & Ey & Wy)].
  - rewrite Ex, Ey. reflexivity.
  - rewrite Ex, Ey. reflexivity.
  - exfalso. pose proof (scaled_pos _ _ _ _ Ex). nia.
  - rewrite Ex, Ey.
    rewrite compare_scaled;
      [| apply (valid_Prim2SF _ _ _ _ Ex) | apply (valid_Prim2SF _ _ _ _ Ey)].
    destruct (Z.compare_spec (scaled mx ex) (scaled my ey)); [reflexivity | reflexivity | nia].
Qed.

Lemma valued_one (c : Z) : 0 <= c -> valued 1 c (2 ^ (1074 + c)).
Proof.
  intros Hc. right. exists 4503599627370496%positive, (-52).
  split; [apply Prim2SF_one|]. rewrite scaled_one, <- Z.pow_add_r by lia. reflexivity.
Qed.

(** The mantissa of a double that is at most 1. *)
Lemma unit_mantissa (x : float) (m : positive) (e : Z) :
  Prim2SF x = S754_finite false m e -> scaled m e <= 2 ^ 1074 ->
  -1074 <= e <= 0 /\ Zpos m <= 2 ^ (- e).
Proof.
  intros Hx Hle.
  pose proof (valid_finite _ _ _ (valid_Prim2SF _ _ _ _ Hx)) as [Hc _].
  assert (He : -1074 <= e) by lia.
  pose proof (pow2_pos (e + 1074) ltac:(lia)) as Hp.
  unfold scaled in Hle.
  assert (He0 : e <= 0).
  { destruct (Z_le_gt_dec e 0) as [|Hpos]; [assumption | exfalso].
    assert (2 ^ 1074 < 2 ^ (e + 1074)) by (apply Z.pow_lt_mono_r; lia). nia. }
  split; [lia|].
  replace (2 ^ 1074) with (2 ^ (- e) * 2 ^ (e + 1074)) in Hle
    by (rewrite <- Z.pow_add_r by lia; f_equal; lia).
  apply Z.mul_le_mono_pos_r in Hle; assumption.
Qed.

(** The whole powers of a double that is at most 1, in units of [2^(-G)]. *)
Lemma power_value (b y : float) (M : positive) (e z G : Z) :
  Prim2SF b = S754_finite false M e -> scaled M e <= 2 ^ 1074 ->
  whole y = Some z -> 0 <= z ->
  1074 <= G -> 0 <= e * z + G ->
  valued (power b y) (G - 1074) (RNE_at (G - 1074) (Zpos M ^ z * 2 ^ (e * z + G))).
Proof.
  intros Hb Hle Hy Hz HG HeG.
  destruct (unit_mantissa b M e Hb Hle) as [He HM].
  unfold power. rewrite Hy. destruct z as [|p|p]; [| |lia].
  - rewrite Z.mul_0_r, Z.pow_0_r, Z.mul_1_l, Z.add_0_l.
    rewrite RNE_at_pow2 by lia.
    replace G with (1074 + (G - 1074)) at 2 by lia. apply valued_one. lia.
  - rewrite Hb. cbn [exact_power cond_Zopp].
    assert (Hpow : Z.pos M ^ Z.pos p <= 2 ^ (- (e * Z.pos p))).
    { replace (- (e * Z.pos p)) with (- e * Z.pos p) by lia.
      rewrite Z.pow_mul_r by lia. apply Z.pow_le_mono_l. lia. }
    rewrite <- Pos2Z.inj_pow in *. cbn [binary_normalize].
    assert (HL : Z.log2 (Z.pos (M ^ p)) + e * Z.pos p <= 1022).
    { apply Z.log2_le_mono in Hpow. rewrite Z.log2_pow2 in Hpow by nia. lia. }
    destruct (binary_round_at (M ^ p) (e * Z.pos p) G HG HeG HL)
      as [[Hzero Hr] | (m' & e' & Hr & Hv & Hs)].
    + left. rewrite Hr, Prim2SF_SF2Prim by reflexivity. split; [reflexivity | exact Hzero].
    + right. exists m', e'. rewrite Hr, Prim2SF_SF2Prim by exact Hv.
      split; [reflexivity | exact Hs].
Qed.

Lemma power_of_zero (b y : float) (s : bool) (z : Z) :
  Prim2SF b = S754_zero s -> whole y = Some z -> 0 <= z ->
  (z = 0 /\ power b y = 1%float) \/ (0 < z /\ Prim2SF (power b y) = S754_zero false).
Proof.
  intros Hb Hy Hz. unfold power. rewrite Hy. destruct z as [|p|p]; [| |lia].
  - left. split; reflexivity.
  - right. split; [lia|]. rewrite Hb. reflexivity.
Qed.

(** The whole powers of a double of [[0, 1]] are in [[0, 1]] and do not
    increase with the exponent. *)
Lemma power_unit_antitone (b y1 y2 : float) (z1 z2 : Z) :
  (0 <=? b)%float = true -> (b <=? 1)%float = true ->
  whole y1 = Some z1 -> whole y2 = Some z2 -> 0 <= z1 <= z2 ->
  (0 <=? power b y2)%float = true
  /\ (power b y2 <=? power b y1)%float = true
  /\ (power b y1 <=? 1)%float = true.
Proof.
  intros Hb0 Hb1 Hy1 Hy2 Hz.
  destruct (unit_interval_cases b Hb0 Hb1) as [[s Eb] | (M & e & Eb & Hle)].
  - destruct (power_of_zero b y1 s z1 Eb Hy1 ltac:(lia)) as [[E1 P1] | [E1 P1]];
      destruct (power_of_zero b y2 s z2 Eb Hy2 ltac:(lia)) as [[E2 P2] | [E2 P2]];
      try lia; rewrite ?P1, ?P2, ?leb_spec, ?P1, ?P2, ?Prim2SF_one, ?Prim2SF_zero;
      repeat split; reflexivity.
  - destruct (unit_mantissa b M e Eb Hle) as [He HM].
    set (G := 1074 - e * z2).
    assert (HG : 1074 <= G) by (unfold G; nia).
    assert (HG1 : 0 <= e * z1 + G) by (unfold G; nia).
    assert (HG2 : 0 <= e * z2 + G) by (unfold G; lia).
    pose proof (power_value b y1 M e z1 G Eb Hle Hy1 ltac:(lia) HG HG1) as V1.
    pose proof (power_value b y2 M e z2 G Eb Hle Hy2 ltac:(lia) HG HG2) as V2.
    assert (Hpos : forall z : Z, 0 <= z -> 0 < Z.pos M ^ z)
      by (intros z Hz0; apply Z.pow_pos_nonneg; lia).
    assert (Hbound : forall z : Z, 0 <= z -> Z.pos M ^ z <= 2 ^ (- e * z)).
    { intros z Hz0. rewrite Z.pow_mul_r by lia. apply Z.pow_le_mono_l. lia. }
    assert (Hord : Z.pos M ^ z2 * 2 ^ (e * z2 + G) <= Z.pos M ^ z1 * 2 ^ (e * z1 + G)).
    { replace z2 with (z1 + (z2 - z1)) at 1 by lia.
      rewrite Z.pow_add_r by lia.
      replace (e * z1 + G) with (- e * (z2 - z1) + (e * z2 + G)) by lia.
      rewrite (Z.pow_add_r 2 (- e * (z2 - z1))) by nia.
      pose proof (Hbound (z2 - z1) ltac:(lia)).
      pose proof (Hpos z1 ltac:(lia)). pose proof (Hpos (z2 - z1) ltac:(lia)).
      pose proof (pow2_pos (e * z2 + G) HG2).
      rewrite (Z.mul_assoc (Z.pos M ^ z1)).
      apply Z.mul_le_mono_nonneg_r; [lia|].
      apply Z.mul_le_mono_nonneg_l; lia. }
    assert (Htop : Z.pos M ^ z1 * 2 ^ (e * z1 + G) <= 2 ^ G).
    { replace G with (- e * z1 + (e * z1 + G)) at 2 by lia.
      rewrite (Z.pow_add_r 2 (- e * z1)) by nia.
      pose proof (pow2_pos (e * z1 + G) HG1).
      apply Z.mul_le_mono_nonneg_r; [lia|]. apply Hbound. lia. }
    assert (Hlow : 0 < Z.pos M ^ z2 * 2 ^ (e * z2 + G)).
    { pose proof (Hpos z2 ltac:(lia)). pose proof (pow2_pos (e * z2 + G) HG2). nia. }
    split; [exact (valued_nonneg _ _ _ V2)|]. split.
    + apply (valued_leb _ _ (G - 1074) _ _ ltac:(lia) V2 V1).
      apply RNE_at_mono; [lia | exact Hlow | exact Hord].
    + apply (valued_leb _ _ (G - 1074) _ (2 ^ (1074 + (G - 1074))) ltac:(lia) V1).
      * apply valued_one. lia.
      * replace (1074 + (G - 1074)) with G by lia.
        rewrite <- (RNE_at_pow2 (G - 1074) G) by lia.
        apply RNE_at_mono; lia.
Qed.

(** The whole number held by [(double) N]: [N] rounded to 53 bits. *)
Lemma whole_of_size_t (N : Z) :
  0 < N < SizeT.modulus ->
  exists z : Z,
    whole (of_size_t N) = Some z /\ 0 < z /\ z * 2 ^ 1074 = RNE (N * 2 ^ 1074).
Proof.
  intros HN.
  destruct (of_size_t_wide N HN) as (m & e & Hm & _ & He & Hs).
  destruct (RNE_multiple N 1074 ltac:(lia) ltac:(lia)) as [z Hz].
  pose proof (scaled_pos _ _ _ _ Hm) as Hpos.
  pose proof (pow2_pos 1074 ltac:(lia)) as Hp.
  exists z. split; [|split; [nia | congruence]].
  rewrite Hz in Hs. unfold scaled in Hs.
  unfold whole. rewrite Hm.
  destruct (Z.leb_spec 0 e) as [Hbig|Hsmall].
  - f_equal. rewrite Z.pow_add_r, Z.mul_assoc in Hs by lia.
    apply Z.mul_cancel_r in Hs; [exact Hs | lia].
  - pose proof (pow2_pos (e + 1074) ltac:(lia)) as Hp'.
    pose proof (pow2_pos (- e) ltac:(lia)) as Hp''.
    assert (Em : Z.pos m = z * 2 ^ (- e)).
    { replace (2 ^ 1074) with (2 ^ (- e) * 2 ^ (e + 1074)) in Hs
        by (rewrite <- Z.pow_add_r by lia; f_equal; lia).
      rewrite Z.mul_assoc in Hs. apply Z.mul_cancel_r in Hs; [exact Hs | lia]. }
    rewrite Em, Z.mod_mul, Z.div_mul by lia. reflexivity.
Qed.

Lemma whole_of_size_t_mono (N1 N2 : Z) :
  0 <= N1 <= N2 -> N2 < SizeT.modulus ->
  exists z1 z2 : Z,
    whole (of_size_t N1) = Some z1 /\ whole (of_size_t N2) = Some z2
    /\ 0 <= z1 <= z2.
Proof.
  intros HN Hfit. pose proof (pow2_pos 1074 ltac:(lia)) as Hp.
  destruct (Z.eq_dec N2 0) as [E2|E2].
  - assert (N1 = 0) as -> by lia. subst N2. exists 0, 0. repeat split; lia.
  - destruct (whole_of_size_t N2 ltac:(lia)) as (z2 & W2 & Hz2 & V2).
    destruct (Z.eq_dec N1 0) as [->|E1].
    + exists 0, z2. repeat split; [exact W2 | lia | lia].
    + destruct (whole_of_size_t N1 ltac:(lia)) as (z1 & W1 & Hz1 & V1).
      exists z1, z2. repeat split; [exact W1 | exact W2 | lia |].
      assert (RNE (N1 * 2 ^ 1074) <= RNE (N2 * 2 ^ 1074)) by (apply RNE_mono; nia).
      nia.
Qed.

(** ** SuccessProbability for [k = 1] *)

(** For [k = 1] the result does not decrease with [m] when the values of
    [pow] are ordered as the powers of a base in [[0, 1]] are. *)
Lemma single_nondecreasing (pow : float -> float -> float) (n t m1 m2 : Z) :
  1 <= n < SizeT.modulus -> 0 <= t <= n ->
  0 <= m1 <= m2 -> m2 < SizeT.modulus ->
  let base := (1 - of_size_t t / of_size_t n)%float in
  (0 <=? pow base (of_size_t m2))%float = true ->
  (pow base (of_size_t m2) <=? pow base (of_size_t m1))%float = true ->
  (pow base (of_size_t m1) <=? 1)%float = true ->
  (SuccessProbability pow n 1 m1 t <=? SuccessProbability pow n 1 m2 t)%float = true.
Proof.
  intros Hn Ht Hm Hm2 base Hpos Hord Hone. pose proof modulus_eq as Hmod.
  assert (Hsub : SizeT.sub n t = n - t) by (unwrap; reflexivity).
  unfold SuccessProbability. cbn [Z.eqb Pos.eqb]. rewrite Hsub. fold base.
  destruct (Z.ltb_spec (n - t) m1) as [Hs1|Hu1];
    destruct (Z.ltb_spec (n - t) m2) as [Hs2|Hu2]; try lia.
  - reflexivity.
  - change 1%float with (1 - 0)%float at 2.
    apply sub_one_antitone; [reflexivity | | exact Hone].
    exact (leb_nonneg_trans _ _ Hpos Hord).
  - apply sub_one_antitone; assumption.
Qed.

(** C6.  With the power of the specification, [power], for [std::pow]:
    for [n >= 1] and [0 <= t <= n], [SuccessProbability (n, 1, 0, t)] is 0,
    and [m |-> SuccessProbability (n, 1, m, t)] does not decrease over the
    [size_t] values [m >= 0]:
    [SuccessProbability (n, 1, m1, t) <= SuccessProbability (n, 1, m2, t)]
    whenever [m1 <= m2]. *)
Theorem SuccessProbability_single_nondecreasing (n t : Z) :
  1 <= n < SizeT.modulus -> 0 <= t <= n ->
  SuccessProbability power n 1 0 t = 0%float
  /\ (forall m1 m2 : Z,
        0 <= m1 <= m2 -> m2 < SizeT.modulus ->
        (SuccessProbability power n 1 m1 t <=? SuccessProbability power n 1 m2 t)%float
        = true).
Proof.
  intros Hn Ht. pose proof modulus_eq as Hmod. split.
  - unfold SuccessProbability. cbn [Z.eqb Pos.eqb].
    replace (SizeT.sub n t) with (n - t) by (unwrap; reflexivity).
    destruct (Z.ltb_spec (n - t) 0) as [Hneg|_]; [lia|]. reflexivity.
  - intros m1 m2 Hm Hm2.
    destruct (base_in_unit_interval n t Hn Ht) as [Hb0 Hb1].
    destruct (whole_of_size_t_mono m1 m2 Hm Hm2) as (z1 & z2 & W1 & W2 & Hz).
    destruct (power_unit_antitone _ _ _ z1 z2 Hb0 Hb1 W1 W2 Hz) as (Hpos & Hord & Hone).
    apply single_nondecreasing; assumption.
Qed.

Lemma SuccessProbability_single_nondecreasing_witness :
  SuccessProbability power 1000 1 0 10 = 0%float
  /\ (SuccessProbability power 1000 1 100 10
      <=? SuccessProbability power 1000 1 200 10)%float = true.
Proof.
  destruct (SuccessProbability_single_nondecreasing 1000 10) as [H0 Hmono].
  - pose proof modulus_eq. lia.
  - lia.
  - split; [exact H0|]. apply Hmono; [lia | pose proof modulus_eq; lia].
Defined.

(** X5.  For [k = 1] the result is a probability whenever the library's
    [pow] returns one: [0 <= pow (1 - t/n, m) <= 1] gives
    [0 <= SuccessProbability (n, 1, m, t) <= 1], the subtraction from 1
    being rounded inside the interval. *)
Theorem SuccessProbability_single_in_unit_interval
    (pow : float -> float -> float) (n m t : Z) :
  let base := (1 - of_size_t t / of_size_t n)%float in
  (0 <=? pow base (of_size_t m))%float = true ->
  (pow base (of_size_t m) <=? 1)%float = true ->
  (0 <=? SuccessProbability pow n 1 m t)%float = true
  /\ (SuccessProbability pow n 1 m t <=? 1)%float = true.
Proof.
  intros base Hlo Hhi. unfold SuccessProbability. cbn [Z.eqb Pos.eqb].
  destruct (SizeT.sub n t <? m); [split; reflexivity|].
  fold base. split.
  - change 0%float with (1 - 1)%float at 1.
    apply sub_one_antitone; [exact Hlo | exact Hhi | reflexivity].
  - change 1%float with (1 - 0)%float at 2.
    apply sub_one_antitone; [reflexivity | exact Hlo | exact Hhi].
Qed.

Lemma SuccessProbability_single_in_unit_interval_witness :
  (0 <=? SuccessProbability pow_ref 1000 1 100 10)%float = true
  /\ (SuccessProbability pow_ref 1000 1 100 10 <=? 1)%float = true.
Proof.
  apply SuccessProbability_single_in_unit_interval; vm_compute; reflexivity.
Defined.

(** ** The search loop *)

Section Search_facts.

Variable pow : float -> float -> float.
Variables (n k t : Z) (alpha : float).

Local Abbreviation prob m := (SuccessProbability pow n k m t).
Local Abbreviation B := (Z.max n k).

Lemma do_while_S (fuel : nat) (s : search_state) :
  do_while pow (S fuel) n k t alpha s
  = let (s', again) := loop_pass pow n k t alpha s in
    if again then do_while pow fuel n k t alpha s' else Some s'.
Proof. reflexivity. Qed.

(** Once the loop has ended, more fuel changes nothing. *)
Lemma do_while_fuel_mono (fuel : nat) :
  forall (s r : search_state) (extra : nat),
    do_while pow fuel n k t alpha s = Some r ->
    do_while pow (fuel + extra) n k t alpha s = Some r.
Proof.
  induction fuel as [|fuel IH]; intros s r extra; [discriminate|].
  cbn [Nat.add]. rewrite !do_while_S.
  destruct (loop_pass pow n k t alpha s) as [s' []]; [apply IH | trivial].
Qed.

(** A set of states that every pass maps into itself, going round again, is
    never left. *)
Lemma do_while_diverges (P : search_state -> Prop) :
  (forall s, P s -> exists s', loop_pass pow n k t alpha s = (s', true) /\ P s') ->
  forall (fuel : nat) (s : search_state), P s -> do_while pow fuel n k t alpha s = None.
Proof.
  intros Hclosed. induction fuel as [|fuel IH]; intros s Hs; [reflexivity|].
  rewrite do_while_S. destruct (Hclosed s Hs) as (s' & -> & Hs'). apply IH, Hs'.
Qed.

Lemma search_spec_S (exit_test : float -> float -> bool) (fuel : nat) (lb ub m : Z) :
  search_spec pow exit_test (S fuel) n k t alpha lb ub m
  = if (alpha <? prob m)%float then
      if (prob m - alpha <? 0.001)%float || (ub <? lb + 2) then Some m
      else search_spec pow exit_test fuel n k t alpha lb m ((m + lb) / 2)
    else if (prob m <? alpha)%float then
      if m =? lb then search_spec pow exit_test fuel n k t alpha lb ub (m + 1)
      else search_spec pow exit_test fuel n k t alpha m ub ((ub + m) / 2)
    else if exit_test (prob m) alpha then Some m
    else search_spec pow exit_test fuel n k t alpha lb ub ((ub + lb) / 2).
Proof. reflexivity. Qed.

Hypothesis Hn : 0 <= n /\ 2 * n < SizeT.modulus.
Hypothesis Hk : 0 <= k /\ 2 * k < SizeT.modulus.

Lemma search_inv_init : search_inv pow n k t alpha k n k.
Proof. unfold search_inv. lia. Qed.

(** On the invariant the source loop and the specification's loop, which
    leaves through its [else], move in step. *)
Lemma do_while_lockstep (fuel : nat) :
  forall lb ub m : Z,
    search_inv pow n k t alpha lb ub m ->
    match do_while pow fuel n k t alpha (mk_search lb ub m false),
          search_spec pow else_exit fuel n k t alpha lb ub m with
    | Some s, Some m' => s_m s = m' /\ 0 <= m' <= B + 1
    | None, None => True
    | _, _ => False
    end.
Proof.
  pose proof modulus_eq as Hmod.
  induction fuel as [|fuel IH]; intros lb ub m J; [exact I|].
  rewrite do_while_S, search_spec_S. unfold loop_pass, loop_body.
  cbn [s_lb s_ub s_m s_done].
  destruct J as (Hlb & Hub & Hm & HmB & HlbB & HubB).
  replace (SizeT.add lb 2) with (lb + 2) by (unwrap; reflexivity).
  destruct (alpha <? prob m)%float eqn:Hhigh.
  - destruct ((prob m - alpha <? 0.001)%float || (ub <? lb + 2)).
    + cbn. split; [reflexivity | lia].
    + cbv [midpoint s_lb s_ub s_m s_done negb].
      replace (SizeT.add m lb) with (m + lb) by (unwrap; reflexivity).
      apply IH. unfold search_inv. repeat split; try div_lia; try assumption.
      intros E. rewrite <- E. exact Hhigh.
  - destruct (prob m <? alpha)%float eqn:Hlow.
    + destruct (m =? lb) eqn:Hml.
      * apply Z.eqb_eq in Hml. cbv [s_done negb].
        replace (SizeT.add m 1) with (m + 1) by (unwrap; reflexivity).
        apply IH. unfold search_inv. repeat split; try lia; assumption.
      * apply Z.eqb_neq in Hml.
        assert (Hne : ~ (ub = B + 1 /\ m = B + 1)).
        { intros [E1 E2]. specialize (HubB E1). rewrite E2 in Hlow.
          rewrite (ltb_asym _ _ HubB) in Hlow. discriminate. }
        cbv [midpoint s_lb s_ub s_m s_done negb].
        replace (SizeT.add ub m) with (ub + m) by (unwrap; reflexivity).
        apply IH. unfold search_inv. repeat split; try div_lia; try assumption.
        intros E. rewrite <- E. exact Hlow.
    + unfold else_exit. rewrite Hhigh, Hlow. cbn. split; [reflexivity | lia].
Qed.

End Search_facts.

(** ** The specification's loop *)

Section Search_spec_facts.

Variable pow : float -> float -> float.
Variables (n k t : Z) (alpha : float).

Local Abbreviation prob m := (SuccessProbability pow n k m t).

(** What the loop leaves with: a candidate not below [k] whose probability
    is not below [alpha]. *)
Lemma search_spec_result (fuel : nat) :
  forall lb ub m r : Z,
    k <= lb -> k <= ub -> k <= m ->
    search_spec pow else_exit fuel n k t alpha lb ub m = Some r ->
    k <= r /\ (prob r <? alpha)%float = false.
Proof.
  induction fuel as [|fuel IH]; intros lb ub m r Hlb Hub Hm; [discriminate|].
  rewrite search_spec_S.
  destruct (alpha <? prob m)%float eqn:Hhigh.
  - destruct ((prob m - alpha <? 0.001)%float || (ub <? lb + 2)).
    + intros [= <-]. split; [exact Hm | apply ltb_asym, Hhigh].
    + apply IH; div_lia.
  - destruct (prob m <? alpha)%float eqn:Hlow.
    + destruct (m =? lb); apply IH; div_lia.
    + unfold else_exit. rewrite Hhigh, Hlow. cbn.
      intros [= <-]. split; [exact Hm | exact Hlow].
Qed.

(** A candidate at the midpoint whose probability passes none of the three
    tests is evaluated again and again. *)
Lemma search_spec_stuck (exit_test : float -> float -> bool) (lb ub m : Z) :
  (alpha <? prob m)%float = false ->
  (prob m <? alpha)%float = false ->
  exit_test (prob m) alpha = false ->
  (ub + lb) / 2 = m ->
  forall fuel : nat, search_spec pow exit_test fuel n k t alpha lb ub m = None.
Proof.
  intros Hhigh Hlow Hexit Hmid. induction fuel as [|fuel IH]; [reflexivity|].
  rewrite search_spec_S, Hhigh, Hlow, Hexit, Hmid. exact IH.
Qed.

(** The bounds keep [tight_inv], and the loop ends as [tight] says. *)
Lemma search_spec_tight (fuel : nat) :
  forall lb ub m r : Z,
    tight_inv pow n k t alpha lb ub m ->
    search_spec pow else_exit fuel n k t alpha lb ub m = Some r ->
    tight pow n k t alpha r.
Proof.
  induction fuel as [|fuel IH]; intros lb ub m r Hinv; [discriminate|].
  destruct Hinv as (Hlb & Hleft & Hpos).
  rewrite search_spec_S.
  destruct (alpha <? SuccessProbability pow n k m t)%float eqn:Hhigh.
  - assert (Hnormal : lb <= m /\ lb <= ub /\ (m <= ub \/ m = lb + 1)).
    { destruct Hpos as [H|(_ & _ & Hlow)]; [exact H|].
      rewrite (ltb_asym _ _ Hlow) in Hhigh. discriminate. }
    destruct (SuccessProbability pow n k m t - alpha <? 0.001)%float eqn:Hnear.
    + cbn [orb]. intros [= <-]. right. left. exact Hnear.
    + cbn [orb]. destruct (Z.ltb_spec ub (lb + 2)) as [Hnarrow|Hwide].
      * intros [= <-]. right. right.
        destruct (Z.eq_dec m lb) as [E|E].
        -- destruct Hlb as [Hk|Hlow]; [left; lia|].
           rewrite E in Hhigh. rewrite (ltb_asym _ _ Hlow) in Hhigh. discriminate.
        -- right. replace (m - 1) with lb by lia. apply Hleft, E.
      * apply IH. unfold tight_inv. split; [exact Hlb|]. split.
        -- intros Hne. apply Hleft. intros ->. apply Hne. div_lia.
        -- left. div_lia.
  - destruct (SuccessProbability pow n k m t <? alpha)%float eqn:Hlow.
    + destruct (Z.eqb_spec m lb) as [E|E].
      * apply IH. unfold tight_inv. split; [exact Hlb|]. split.
        -- intros _. rewrite <- E. exact Hlow.
        -- left. destruct Hpos as [H|(Hodd & Hm & _)]; lia.
      * apply IH. unfold tight_inv. split; [right; exact Hlow|]. split.
        -- intros _. exact Hlow.
        -- destruct Hpos as [(Hlm & Hlu & [Hmu|Hm1])|(Hodd & Hm & _)].
           ++ left. div_lia.
           ++ destruct (Z_le_gt_dec m ub) as [Hmu|Hmu]; [left; div_lia|].
              right. assert (Eub : ub = lb) by lia.
              assert (Emid : (ub + m) / 2 = ub) by div_lia.
              rewrite Emid. split; [lia|]. split; [reflexivity|].
              rewrite Eub. apply Hleft, E.
           ++ left. div_lia.
    + unfold else_exit. rewrite Hhigh, Hlow. cbn. intros [= <-]. left. exact Hhigh.
Qed.

(** The bisection ends when the probability at [n] is not below [alpha]. *)
Hypothesis top_not_low : (prob n <? alpha)%float = false.

Lemma search_spec_terminates (fuel : nat) :
  forall lb ub m : Z,
    bisect_inv pow n k t alpha lb ub m ->
    (bisect_measure lb ub m < fuel)%nat ->
    exists r : Z, search_spec pow else_exit fuel n k t alpha lb ub m = Some r.
Proof.
  induction fuel as [|fuel IH]; intros lb ub m Hinv Hfuel; [lia|].
  destruct Hinv as (Hlb & Hub & Hopen & Htop).
  rewrite search_spec_S.
  destruct (alpha <? prob m)%float eqn:Hhigh.
  - destruct ((prob m - alpha <? 0.001)%float || (ub <? lb + 2)) eqn:Hexit;
      [eexists; reflexivity|].
    apply orb_false_elim in Hexit. destruct Hexit as [_ Hwide].
    apply Z.ltb_ge in Hwide.
    apply IH.
    + unfold bisect_inv. repeat split; try div_lia. right. exact Hhigh.
    + revert Hfuel. unfold bisect_measure.
      destruct (Z.eqb_spec m lb), (Z.eqb_spec ((m + lb) / 2) lb); div_lia.
  - destruct (prob m <? alpha)%float eqn:Hlow.
    + destruct (Z.eqb_spec m lb) as [Hml|Hml].
      * assert (Hnarrow : lb < ub).
        { destruct (Z.eq_dec lb ub) as [E|E]; [exfalso | lia].
          rewrite Hml, E in Hlow. destruct Htop as [Hn|Hh].
          - rewrite Hn in Hlow. congruence.
          - rewrite (ltb_asym _ _ Hh) in Hlow. discriminate. }
        apply IH.
        -- unfold bisect_inv. repeat split; try lia. exact Htop.
        -- revert Hfuel. unfold bisect_measure.
           destruct (Z.eqb_spec m lb), (Z.eqb_spec (m + 1) lb); lia.
      * apply IH.
        -- unfold bisect_inv. repeat split; try div_lia. exact Htop.
        -- revert Hfuel. unfold bisect_measure.
           destruct (Z.eqb_spec m lb), (Z.eqb_spec ((ub + m) / 2) m); div_lia.
    + unfold else_exit. rewrite Hhigh, Hlow. cbn. eexists; reflexivity.
Qed.

End Search_spec_facts.

(** ** MinimumSamplesReqd *)

(** C2 (amended).  For [n, k < 2^63], where the [size_t] arithmetic of the
    loop does not wrap around, and [alpha <= 1], [MinimumSamplesReqd] computes
    its result by the specified loop, whose exit "if prob == alpha" is the
    [else] of the two comparisons: it is taken whenever [prob] is neither
    greater nor less than [alpha], so also when [prob] is a NaN. *)
Theorem MinimumSamplesReqd_refines_spec
    (pow : float -> float -> float) (oor : float -> Z)
    (fuel : nat) (n k : Z) (tau alpha : float) :
  0 <= n -> 2 * n < SizeT.modulus ->
  0 <= k -> 2 * k < SizeT.modulus ->
  (alpha <=? 1)%float = true ->
  MinimumSamplesReqd pow oor fuel n k tau alpha
  = MinimumSamplesReqd_spec pow oor else_exit fuel n k tau alpha.
Proof.
  intros Hn0 Hn Hk0 Hk Halpha.
  unfold MinimumSamplesReqd, MinimumSamplesReqd_spec, Log_Assert.
  rewrite Halpha.
  pose proof (do_while_lockstep pow n k (rank_window oor n tau) alpha
                (conj Hn0 Hn) (conj Hk0 Hk) fuel k n k
                (search_inv_init pow n k _ alpha (conj Hn0 Hn) (conj Hk0 Hk)))
    as Hstep.
  destruct (do_while pow fuel n k (rank_window oor n tau) alpha (mk_search k n k false))
    as [s|];
    destruct (search_spec pow else_exit fuel n k (rank_window oor n tau) alpha k n k)
    as [m'|]; try contradiction; [|reflexivity].
  destruct Hstep as [-> Hm']. pose proof modulus_eq. unwrap. reflexivity.
Qed.

Lemma MinimumSamplesReqd_refines_spec_witness :
  MinimumSamplesReqd pow_ref oor_ref 40 1000 1 1 0.95
  = MinimumSamplesReqd_spec pow_ref oor_ref else_exit 40 1000 1 1 0.95.
Proof.
  apply MinimumSamplesReqd_refines_spec;
    try (pose proof modulus_eq; lia); reflexivity.
Defined.

(** On a 64-bit [size_t], [m + 1] wraps around for [n = k = 2^64 - 1]: the
    source returns 0 where the specified loop returns [n]. *)
Lemma MinimumSamplesReqd_margin_wraps :
  MinimumSamplesReqd pow_ref oor_ref 1 (2 ^ 64 - 1) (2 ^ 64 - 1) 50 1 = Returned 0
  /\ MinimumSamplesReqd_spec pow_ref oor_ref equal_exit 1 (2 ^ 64 - 1) (2 ^ 64 - 1) 50 1
     = Returned (2 ^ 64 - 1).
Proof. split; vm_compute; reflexivity. Qed.

(** For [n = 10^6], [k = 300], [tau = 1], [alpha = 0.95] the third
    candidate, [m = 500150], has a NaN for probability (a binomial
    coefficient overflows to infinity and [0.99^(m - j)] underflows to 0):
    the source leaves the loop with it. *)
Lemma SuccessProbability_nan :
  SuccessProbability pow_ref 1000000 300 500150 10000 = nan.
Proof. vm_compute. reflexivity. Qed.

Lemma MinimumSamplesReqd_leaves_on_nan :
  MinimumSamplesReqd pow_ref oor_ref 3 1000000 300 1 0.95 = Returned 500151.
Proof. vm_compute. reflexivity. Qed.

(** The loop that leaves only when [prob == alpha] never does. *)
Lemma MinimumSamplesReqd_spec_stuck_on_nan (fuel : nat) :
  MinimumSamplesReqd_spec pow_ref oor_ref equal_exit fuel 1000000 300 1 0.95 = OutOfFuel.
Proof.
  unfold MinimumSamplesReqd_spec.
  change (rank_window oor_ref 1000000 1) with 10000.
  assert (Hlow300 :
    (0.95 <? SuccessProbability pow_ref 1000000 300 300 10000)%float = false
    /\ (SuccessProbability pow_ref 1000000 300 300 10000 <? 0.95)%float = true)
    by (split; vm_compute; reflexivity).
  assert (Hlow301 :
    (0.95 <? SuccessProbability pow_ref 1000000 300 301 10000)%float = false
    /\ (SuccessProbability pow_ref 1000000 300 301 10000 <? 0.95)%float = true)
    by (split; vm_compute; reflexivity).
  destruct fuel as [|[|fuel]]; [reflexivity| |].
  - rewrite search_spec_S, (proj1 Hlow300), (proj2 Hlow300). reflexivity.
  - rewrite search_spec_S, (proj1 Hlow300), (proj2 Hlow300).
    change (300 =? 300) with true. cbv iota.
    change (300 + 1) with 301.
    rewrite search_spec_S, (proj1 Hlow301), (proj2 Hlow301).
    change (301 =? 300) with false. cbv iota.
    change ((1000000 + 301) / 2) with 500150.
    rewrite search_spec_stuck; [reflexivity | | | | reflexivity];
      rewrite SuccessProbability_nan; reflexivity.
Qed.

(** C2: the claim fails where [size_t] arithmetic wraps around, and where
    the probability is a NaN. *)
Lemma MinimumSamplesReqd_not_the_literal_loop :
  (MinimumSamplesReqd pow_ref oor_ref 1 (2 ^ 64 - 1) (2 ^ 64 - 1) 50 1 = Returned 0
   /\ MinimumSamplesReqd_spec pow_ref oor_ref equal_exit 1 (2 ^ 64 - 1) (2 ^ 64 - 1) 50 1
      = Returned (2 ^ 64 - 1))
  /\ (MinimumSamplesReqd pow_ref oor_ref 3 1000000 300 1 0.95 = Returned 500151
      /\ forall fuel : nat,
           MinimumSamplesReqd_spec pow_ref oor_ref equal_exit fuel 1000000 300 1 0.95
           = OutOfFuel).
Proof.
  split; [exact MinimumSamplesReqd_margin_wraps|].
  split; [exact MinimumSamplesReqd_leaves_on_nan|].
  exact MinimumSamplesReqd_spec_stuck_on_nan.
Qed.

(** An example: the search for [n = 1000], [k = 1], [tau = 1] ([t = 10]),
    [alpha = 0.95] returns 300 within 12 passes; the closed form
    [ceil (ln 0.05 / ln 0.99) + 1] is 300. *)
Example MinimumSamplesReqd_1000_1 :
  MinimumSamplesReqd pow_ref oor_ref 12 1000 1 1 0.95 = Returned 300.
Proof. vm_compute. reflexivity. Qed.

(** With [k <= t <= n] and [alpha <= 1] the probability at [n] is 1, which
    is not below [alpha]. *)
Lemma top_saturated (pow : float -> float -> float) (n k t : Z) (alpha : float) :
  1 <= k <= t -> t <= n < SizeT.modulus ->
  (alpha <=? 1)%float = true ->
  (SuccessProbability pow n k n t <? alpha)%float = false.
Proof.
  intros Hk Ht Halpha.
  assert (E : SuccessProbability pow n k n t = 1%float).
  { destruct (Z.eq_dec k 1) as [->|Hk1].
    - apply saturated_single; lia.
    - apply saturated_several; lia. }
  rewrite E. apply leb_not_gt, Halpha.
Qed.



(** Proves that the loop never ends from a state of the finite set [states],
    by running one pass from each of them. *)
Ltac never_leaves states :=
  apply do_while_diverges with (P := fun s => List.In s states);
  [ intros ? Hs; cbn [List.In] in Hs;
    repeat (destruct Hs as [<-|Hs]); [..|contradiction];
    eexists; (split; [vm_compute; reflexivity | cbn [List.In]; tauto])
  | cbn [List.In]; tauto ].



(** C5.  [MinimumSamplesReqd (4, 4, 25.0, 0.95)] never returns: with
    [t = 1 < k - 1] the probability is below [alpha] at [m = n = 4] and at
    [m = 5], and the loop goes round
    [(lb, ub, m) = (4, 4, 4), (4, 4, 5), (5, 4, 4)] for ever. *)
Theorem MinimumSamplesReqd_never_returns (fuel : nat) :
  MinimumSamplesReqd pow_ref oor_ref fuel 4 4 25 0.95 = OutOfFuel.
Proof.
  unfold MinimumSamplesReqd, Log_Assert.
  change (rank_window oor_ref 4 25) with 1.
  change (0.95 <=? 1)%float with true. cbv iota.
  replace (do_while pow_ref fuel 4 4 1 0.95 (mk_search 4 4 4 false)) with (@None search_state);
    [reflexivity|].
  symmetry.
  never_leaves [mk_search 4 4 4 false; mk_search 4 4 5 false; mk_search 5 4 4 false].
Qed.

(** C9.  The assertion [alpha <= 1]: a call with [alpha > 1] aborts and
    produces no result; a call with [alpha <= 1] passes the assertion and
    goes on to the loop, whose outcome is the call's. *)
Theorem MinimumSamplesReqd_asserts
    (pow : float -> float -> float) (oor : float -> Z)
    (fuel : nat) (n k : Z) (tau alpha : float) :
  ((1 <? alpha)%float = true ->
     MinimumSamplesReqd pow oor fuel n k tau alpha = AssertFailed)
  /\ ((alpha <=? 1)%float = true ->
        MinimumSamplesReqd pow oor fuel n k tau alpha
        = match do_while pow fuel n k (rank_window oor n tau) alpha
                  (mk_search k n k false) with
          | Some s => Returned (Z.min (SizeT.add (s_m s) 1) n)
          | None => OutOfFuel
          end
        /\ MinimumSamplesReqd pow oor fuel n k tau alpha <> AssertFailed).
Proof.
  unfold MinimumSamplesReqd, Log_Assert. split.
  - intros Hgt. rewrite (ltb_not_ge _ _ Hgt). reflexivity.
  - intros Hle. rewrite Hle. split; [reflexivity|].
    destruct (do_while pow fuel n k (rank_window oor n tau) alpha
                (mk_search k n k false)); discriminate.
Qed.

Lemma MinimumSamplesReqd_asserts_witness :
  MinimumSamplesReqd pow_ref oor_ref 40 1000 1 1 2 = AssertFailed
  /\ MinimumSamplesReqd pow_ref oor_ref 40 1000 1 1 0.95 <> AssertFailed.
Proof.
  split.
  - apply (MinimumSamplesReqd_asserts pow_ref oor_ref 40 1000 1 1 2). reflexivity.
  - apply (MinimumSamplesReqd_asserts pow_ref oor_ref 40 1000 1 1 0.95). reflexivity.
Defined.

(** ** Where the search ends *)

Section Search_more.

Variable pow : float -> float -> float.
Variables (n k t : Z) (alpha : float).

(** When the first candidate, [m = k], is not below [alpha], the loop ends
    with it, within two passes. *)
Lemma first_candidate_exit (fuel : nat) :
  0 <= k -> 2 * k < SizeT.modulus ->
  (SuccessProbability pow n k k t <? alpha)%float = false ->
  exists s : search_state,
    do_while pow (S (S fuel)) n k t alpha (mk_search k n k false) = Some s
    /\ s_m s = k.
Proof.
  intros Hk0 Hk Hlow. pose proof modulus_eq as Hmod.
  rewrite do_while_S. unfold loop_pass, loop_body. cbn [s_lb s_ub s_m s_done].
  rewrite Hlow.
  destruct (alpha <? SuccessProbability pow n k k t)%float eqn:Hhigh.
  - destruct ((SuccessProbability pow n k k t - alpha <? 0.001)%float
              || (n <? SizeT.add k 2)).
    + eexists. split; reflexivity.
    + cbv [midpoint s_lb s_ub s_m s_done negb].
      replace (SizeT.add k k / 2) with k by (unwrap; div_lia).
      rewrite do_while_S. unfold loop_pass, loop_body. cbn [s_lb s_ub s_m s_done].
      rewrite Hhigh.
      replace (k <? SizeT.add k 2) with true
        by (symmetry; apply Z.ltb_lt; unwrap; lia).
      rewrite orb_true_r. eexists. split; reflexivity.
  - eexists. split; reflexivity.
Qed.

(** When the probability at [m = n] is not below [alpha], the loop ends
    within [2 (n - k) + 2] passes, at a candidate between [k] and [n]. *)
Lemma search_returns :
  0 <= k <= n -> 2 * n < SizeT.modulus ->
  (SuccessProbability pow n k n t <? alpha)%float = false ->
  exists s : search_state,
    do_while pow (Z.to_nat (2 * (n - k) + 2)) n k t alpha (mk_search k n k false)
    = Some s
    /\ k <= s_m s <= n + 1.
Proof.
  intros Hk Hn Htop. pose proof modulus_eq as Hmod.
  assert (Hn' : 0 <= n /\ 2 * n < SizeT.modulus) by lia.
  assert (Hk' : 0 <= k /\ 2 * k < SizeT.modulus) by lia.
  set (fuel0 := Z.to_nat (2 * (n - k) + 2)).
  destruct (search_spec_terminates pow n k t alpha Htop fuel0 k n k) as [m Hspec].
  - unfold bisect_inv. repeat split; lia.
  - unfold bisect_measure, fuel0. rewrite Z.eqb_refl. lia.
  - pose proof (do_while_lockstep pow n k t alpha Hn' Hk' fuel0 k n k
                  (search_inv_init pow n k t alpha Hn' Hk')) as Hstep.
    rewrite Hspec in Hstep.
    destruct (do_while pow fuel0 n k t alpha (mk_search k n k false)) as [s|] eqn:Hrun;
      [|contradiction].
    destruct Hstep as [Hs Hm].
    destruct (search_spec_result pow n k t alpha fuel0 k n k m) as [Hkm _];
      [lia | lia | lia | exact Hspec |].
    exists s. split; [reflexivity | lia].
Qed.

End Search_more.

(** X6.  When [k] samples already reach [alpha], that is when
    [SuccessProbability (n, k, k, t)] is not less than [alpha], the search
    ends within two passes and the result is [min (k + 1, n)]. *)
Theorem MinimumSamplesReqd_first_candidate
    (pow : float -> float -> float) (oor : float -> Z)
    (fuel : nat) (n k : Z) (tau alpha : float) :
  0 <= k -> 2 * k < SizeT.modulus ->
  (alpha <=? 1)%float = true ->
  (SuccessProbability pow n k k (rank_window oor n tau) <? alpha)%float = false ->
  (2 <= fuel)%nat ->
  MinimumSamplesReqd pow oor fuel n k tau alpha = Returned (Z.min (k + 1) n).
Proof.
  intros Hk0 Hk Halpha Hlow Hfuel. pose proof modulus_eq as Hmod.
  unfold MinimumSamplesReqd, Log_Assert. rewrite Halpha.
  destruct fuel as [|[|fuel]]; [lia | lia |].
  destruct (first_candidate_exit pow n k _ alpha fuel Hk0 Hk Hlow) as (s & -> & ->).
  unwrap. reflexivity.
Qed.

Lemma MinimumSamplesReqd_first_candidate_witness :
  MinimumSamplesReqd pow_ref oor_ref 2 10 2 50 0.2 = Returned (Z.min (2 + 1) 10).
Proof.
  apply MinimumSamplesReqd_first_candidate.
  - lia.
  - pose proof modulus_eq. lia.
  - reflexivity.
  - vm_compute. reflexivity.
  - lia.
Defined.

(** X7.  For [k <= n < 2^63] and [alpha <= 1], the call returns, after at
    most [2 (n - k) + 2] passes of its loop and with a result between [k] and
    [n], whenever the probability at [m = n] is not less than [alpha]. *)
Theorem MinimumSamplesReqd_returns
    (pow : float -> float -> float) (oor : float -> Z)
    (n k : Z) (tau alpha : float) :
  0 <= k <= n -> 2 * n < SizeT.modulus ->
  (alpha <=? 1)%float = true ->
  (SuccessProbability pow n k n (rank_window oor n tau) <? alpha)%float = false ->
  exists r : Z,
    k <= r <= n
    /\ forall fuel : nat,
         (Z.to_nat (2 * (n - k) + 2) <= fuel)%nat ->
         MinimumSamplesReqd pow oor fuel n k tau alpha = Returned r.
Proof.
  intros Hk Hn Halpha Htop. pose proof modulus_eq as Hmod.
  destruct (search_returns pow n k _ alpha Hk Hn Htop) as (s & Hrun & Hm).
  exists (Z.min (s_m s + 1) n). split; [lia|].
  intros fuel Hfuel. unfold MinimumSamplesReqd, Log_Assert. rewrite Halpha.
  replace fuel with (Z.to_nat (2 * (n - k) + 2) + (fuel - Z.to_nat (2 * (n - k) + 2)))%nat
    by lia.
  rewrite (do_while_fuel_mono pow n k _ alpha _ _ s _ Hrun).
  unwrap. reflexivity.
Qed.

Lemma MinimumSamplesReqd_returns_witness :
  exists r : Z,
    1 <= r <= 1000
    /\ forall fuel : nat,
         (Z.to_nat (2 * (1000 - 1) + 2) <= fuel)%nat ->
         MinimumSamplesReqd pow_ref oor_ref fuel 1000 1 1 0.95 = Returned r.
Proof.
  apply (MinimumSamplesReqd_returns pow_ref oor_ref 1000 1 1 0.95).
  - lia.
  - pose proof modulus_eq. lia.
  - reflexivity.
  - vm_compute. reflexivity.
Defined.

(** X8.  For [k <= n < 2^63] and [alpha <= 1], the call never returns when
    no sample size reaches [alpha]: if [SuccessProbability (n, k, m, t)] is
    less than [alpha] for every [m] from [k] to [n + 1], the loop climbs to
    [lb = ub = m = n] and goes round
    [(n, n, n), (n, n, n + 1), (n + 1, n, n)] for ever. *)
Theorem MinimumSamplesReqd_out_of_reach
    (pow : float -> float -> float) (oor : float -> Z)
    (n k : Z) (tau alpha : float) :
  0 <= k <= n -> 2 * n + 1 < SizeT.modulus ->
  (alpha <=? 1)%float = true ->
  (forall m : Z, k <= m <= n + 1 ->
     (SuccessProbability pow n k m (rank_window oor n tau) <? alpha)%float = true) ->
  forall fuel : nat, MinimumSamplesReqd pow oor fuel n k tau alpha = OutOfFuel.
Proof.
  intros Hk Hn Halpha Hlow fuel. pose proof modulus_eq as Hmod.
  unfold MinimumSamplesReqd, Log_Assert. rewrite Halpha.
  set (t := rank_window oor n tau) in *.
  rewrite (do_while_diverges pow n k t alpha
             (fun s => s_ub s = n /\ s_done s = false
                       /\ k <= s_lb s <= n + 1 /\ k <= s_m s <= n + 1
                       /\ (s_m s = n + 1 -> s_lb s = n)
                       /\ (s_lb s = n + 1 -> s_m s = n))).
  - reflexivity.
  - intros [lb ub m done]. cbn [s_lb s_ub s_m s_done].
    intros (-> & -> & Hlb & Hm & Hm1 & Hlb1).
    unfold loop_pass, loop_body. cbn [s_lb s_ub s_m s_done].
    rewrite (Hlow m Hm), (ltb_asym _ _ (Hlow m Hm)).
    destruct (Z.eqb_spec m lb) as [E|E].
    + eexists. split; [reflexivity|]. cbn [s_lb s_ub s_m s_done].
      replace (SizeT.add m 1) with (m + 1) by (unwrap; reflexivity).
      repeat split; lia.
    + eexists. split; [reflexivity|]. cbv [midpoint s_lb s_ub s_m s_done].
      replace (SizeT.add n m) with (n + m) by (unwrap; reflexivity).
      repeat split; div_lia.
  - cbn [s_lb s_ub s_m s_done]. repeat split; lia.
Qed.

Lemma MinimumSamplesReqd_out_of_reach_witness :
  MinimumSamplesReqd pow_ref oor_ref 1000 10 5 10 0.99 = OutOfFuel.
Proof.
  apply MinimumSamplesReqd_out_of_reach.
  - lia.
  - pose proof modulus_eq; lia.
  - reflexivity.
  - change (rank_window oor_ref 10 10) with 1. intros m Hm.
    assert (Hcase : m = 5 \/ m = 6 \/ m = 7 \/ m = 8 \/ m = 9 \/ m = 10 \/ m = 11) by lia.
    repeat (destruct Hcase as [-> | Hcase]); try subst m; vm_compute; reflexivity.
Defined.

(** X16.  What the bisection guarantees, for [k <= n < 2^63]: the last
    candidate [m] of a call that returns [min (m + 1, n)] was left by the
    [else] (its probability is neither above nor below [alpha]), or its
    probability exceeds [alpha] by less than 0.001, or it is the first
    candidate [k], or the candidate before it, [m - 1], is below [alpha]. *)
Theorem MinimumSamplesReqd_tight
    (pow : float -> float -> float) (oor : float -> Z)
    (fuel : nat) (n k : Z) (tau alpha : float) (r : Z) :
  0 <= k <= n -> 2 * n < SizeT.modulus ->
  MinimumSamplesReqd pow oor fuel n k tau alpha = Returned r ->
  let t := rank_window oor n tau in
  exists m : Z,
    r = Z.min (m + 1) n /\ k <= m
    /\ ((alpha <? SuccessProbability pow n k m t)%float = false
        \/ (SuccessProbability pow n k m t - alpha <? 0.001)%float = true
        \/ m = k
        \/ (SuccessProbability pow n k (m - 1) t <? alpha)%float = true).
Proof.
  intros Hk Hn Hret t. revert Hret. pose proof modulus_eq as Hmod.
  assert (Hn' : 0 <= n /\ 2 * n < SizeT.modulus) by lia.
  assert (Hk' : 0 <= k /\ 2 * k < SizeT.modulus) by lia.
  unfold MinimumSamplesReqd, Log_Assert. fold t.
  destruct (alpha <=? 1)%float; [|discriminate].
  pose proof (do_while_lockstep pow n k t alpha Hn' Hk' fuel k n k
                (search_inv_init pow n k t alpha Hn' Hk')) as Hstep.
  destruct (do_while pow fuel n k t alpha (mk_search k n k false)) as [s|];
    [|discriminate].
  destruct (search_spec pow else_exit fuel n k t alpha k n k) as [m|] eqn:Hspec;
    [|contradiction].
  destruct Hstep as [Hs Hm]. rewrite Hs. intros [= <-].
  destruct (search_spec_result pow n k t alpha fuel k n k m) as [Hkm _];
    [lia | lia | lia | exact Hspec |].
  exists m. split; [unwrap; reflexivity|]. split; [exact Hkm|].
  apply (search_spec_tight pow n k t alpha fuel k n k m); [|exact Hspec].
  unfold tight_inv. split; [left; reflexivity|]. split; [intros H; contradiction|].
  left. lia.
Qed.

Lemma MinimumSamplesReqd_tight_witness :
  exists m : Z,
    3 = Z.min (m + 1) 10 /\ 1 <= m
    /\ ((0.5 <? SuccessProbability pow_ref 10 1 m (rank_window oor_ref 10 30))%float = false
        \/ (SuccessProbability pow_ref 10 1 m (rank_window oor_ref 10 30) - 0.5 <? 0.001)%float
           = true
        \/ m = 1
        \/ (SuccessProbability pow_ref 10 1 (m - 1) (rank_window oor_ref 10 30) <? 0.5)%float
           = true).
Proof.
  apply (MinimumSamplesReqd_tight pow_ref oor_ref 4 10 1 30 0.5 3).
  - lia.
  - pose proof modulus_eq. lia.
  - vm_compute. reflexivity.
Defined.

(** ** The rank window *)

(** X9.  Line 30 for a whole percentage: with [tau] the double of an integer
    [T >= 0] and [T n <= 2^52], [t] is exactly [ceil (T n / 100)]: the
    rounding of the product and of the quotient never moves the ceiling.  So
    [t <= n] for [T <= 100], and [t >= 1] for [T, n >= 1]. *)
Theorem rank_window_whole_percent (oor : float -> Z) (n T : Z) :
  0 <= n < SizeT.modulus -> 0 <= T <= 2 ^ 52 -> T * n <= 2 ^ 52 ->
  rank_window oor n (of_size_t T) = (T * n + 99) / 100
  /\ (T <= 100 -> rank_window oor n (of_size_t T) <= n)
  /\ (0 < T -> 0 < n -> 1 <= rank_window oor n (of_size_t T)).
Proof.
  intros Hn HT Hfit.
  assert (Hwin : rank_window oor n (of_size_t T) = (T * n + 99) / 100)
    by (unfold rank_window; apply whole_percent_window; assumption).
  rewrite Hwin. split; [reflexivity|]. split.
  - intros H100. assert (T * n <= 100 * n) by nia. div_lia.
  - intros HT0 Hn0. assert (1 <= T * n) by nia. div_lia.
Qed.

Lemma rank_window_whole_percent_witness :
  rank_window oor_ref 1000 (of_size_t 5) = (5 * 1000 + 99) / 100
  /\ (5 <= 100 -> rank_window oor_ref 1000 (of_size_t 5) <= 1000)
  /\ (0 < 5 -> 0 < 1000 -> 1 <= rank_window oor_ref 1000 (of_size_t 5)).
Proof.
  apply rank_window_whole_percent.
  - pose proof modulus_eq. lia.
  - split; vm_compute; discriminate.
  - vm_compute. discriminate.
Defined.

(** X10.  A whole percentage [0 < T <= 100] of [n >= 1] points, with
    [T n <= 2^52], [1 <= k <= ceil (T n / 100)] and [alpha <= 1]: the call
    returns, after at most [2 (n - k) + 2] passes, a result between [k] and
    [n]. *)
Theorem MinimumSamplesReqd_whole_percent
    (pow : float -> float -> float) (oor : float -> Z)
    (n k T : Z) (alpha : float) :
  0 < T <= 100 -> 0 < n -> T * n <= 2 ^ 52 ->
  1 <= k <= (T * n + 99) / 100 ->
  (alpha <=? 1)%float = true ->
  exists r : Z,
    k <= r <= n
    /\ forall fuel : nat,
         (Z.to_nat (2 * (n - k) + 2) <= fuel)%nat ->
         MinimumSamplesReqd pow oor fuel n k (of_size_t T) alpha = Returned r.
Proof.
  intros HT Hn Hfit Hk Halpha. pose proof modulus_eq as Hmod.
  change (2 ^ 52) with 4503599627370496 in Hfit.
  assert (Hn52 : n <= 4503599627370496) by nia.
  assert (Hwin : rank_window oor n (of_size_t T) = (T * n + 99) / 100).
  { unfold rank_window.
    apply whole_percent_window; change (2 ^ 52) with 4503599627370496; lia. }
  assert (Ht : (T * n + 99) / 100 <= n).
  { assert (T * n <= 100 * n) by nia. div_lia. }
  assert (Hn64 : 2 * n < SizeT.modulus) by lia.
  destruct (search_returns pow n k ((T * n + 99) / 100) alpha ltac:(lia) Hn64)
    as (s & Hrun & Hm).
  { apply top_saturated; [lia | lia | exact Halpha]. }
  exists (Z.min (s_m s + 1) n). split; [lia|].
  intros fuel Hfuel. unfold MinimumSamplesReqd, Log_Assert. rewrite Halpha, Hwin.
  replace fuel with (Z.to_nat (2 * (n - k) + 2) + (fuel - Z.to_nat (2 * (n - k) + 2)))%nat
    by lia.
  rewrite (do_while_fuel_mono pow n k _ alpha _ _ s _ Hrun).
  unwrap. reflexivity.
Qed.

Lemma MinimumSamplesReqd_whole_percent_witness :
  exists r : Z,
    3 <= r <= 1000
    /\ forall fuel : nat,
         (Z.to_nat (2 * (1000 - 3) + 2) <= fuel)%nat ->
         MinimumSamplesReqd pow_ref oor_ref fuel 1000 3 (of_size_t 5) 0.95 = Returned r.
Proof.
  apply (MinimumSamplesReqd_whole_percent pow_ref oor_ref 1000 3 5 0.95).
  - lia.
  - lia.
  - vm_compute. discriminate.
  - split; vm_compute; discriminate.
  - reflexivity.
Defined.

(** X11.  [tau = 100]: the window is the whole reference set, [k] samples
    hold [k] of it with probability 1, and the result is [min (k + 1, n)]
    whatever [alpha <= 1] is. *)
Theorem MinimumSamplesReqd_full_window
    (pow : float -> float -> float) (oor : float -> Z)
    (fuel : nat) (n k : Z) (alpha : float) :
  1 <= k <= n -> 100 * n <= 2 ^ 52 ->
  (alpha <=? 1)%float = true -> (2 <= fuel)%nat ->
  MinimumSamplesReqd pow oor fuel n k 100 alpha = Returned (Z.min (k + 1) n).
Proof.
  intros Hk Hfit Halpha Hfuel. pose proof modulus_eq as Hmod.
  change (2 ^ 52) with 4503599627370496 in Hfit.
  assert (Hwin : rank_window oor n 100 = n).
  { unfold rank_window. rewrite <- of_size_t_100 at 1.
    rewrite whole_percent_window; change (2 ^ 52) with 4503599627370496; try lia.
    div_lia. }
  assert (Hprob : SuccessProbability pow n k k n = 1%float).
  { destruct (Z.eq_dec k 1) as [->|Hk1].
    - apply saturated_single; lia.
    - apply saturated_several; lia. }
  unfold MinimumSamplesReqd, Log_Assert. rewrite Halpha, Hwin.
  destruct fuel as [|[|fuel]]; [lia | lia |].
  destruct (first_candidate_exit pow n k n alpha fuel) as (s & -> & ->); [lia | lia | |].
  - rewrite Hprob. apply leb_not_gt, Halpha.
  - unwrap. reflexivity.
Qed.

Lemma MinimumSamplesReqd_full_window_witness :
  MinimumSamplesReqd pow_ref oor_ref 2 1000 3 100 0.95 = Returned (Z.min (3 + 1) 1000).
Proof.
  apply MinimumSamplesReqd_full_window.
  - lia.
  - vm_compute. discriminate.
  - reflexivity.
  - lia.
Defined.

(** X12.  An empty reference set: for [n = 0], [k >= 1], [0 <= tau <= 100]
    and [alpha <= 1] the first pass leaves the loop and the result is 0. *)
Theorem MinimumSamplesReqd_empty_set
    (pow : float -> float -> float) (oor : float -> Z)
    (fuel : nat) (k : Z) (tau alpha : float) :
  1 <= k -> k + 2 < SizeT.modulus ->
  (0 <=? tau)%float = true -> (tau <=? 100)%float = true ->
  (alpha <=? 1)%float = true -> (1 <= fuel)%nat ->
  MinimumSamplesReqd pow oor fuel 0 k tau alpha = Returned 0.
Proof.
  intros Hk Hfit Htau0 Htau Halpha Hfuel. pose proof modulus_eq as Hmod.
  assert (Hwin : rank_window oor 0 tau = 0).
  { unfold rank_window.
    destruct (percentage_cases tau Htau0 Htau) as [[s Hs] | (m & e & Hs)].
    - apply (window_of_zero oor _ s). rewrite mul_spec, Hs. destruct s; reflexivity.
    - apply (window_of_zero oor _ false). rewrite mul_spec, Hs. reflexivity. }
  assert (Hprob : SuccessProbability pow 0 k k 0 = 1%float).
  { destruct (Z.eq_dec k 1) as [->|Hk1].
    - apply saturated_single; lia.
    - apply saturated_several; lia. }
  unfold MinimumSamplesReqd, Log_Assert. rewrite Halpha, Hwin.
  destruct fuel as [|fuel]; [lia|].
  rewrite do_while_S. unfold loop_pass, loop_body. cbn [s_lb s_ub s_m s_done].
  rewrite Hprob, (leb_not_gt _ _ Halpha).
  replace (0 <? SizeT.add k 2) with true by (symmetry; apply Z.ltb_lt; unwrap; lia).
  rewrite orb_true_r.
  destruct (alpha <? 1)%float; cbn [s_m]; unwrap; f_equal; lia.
Qed.

Lemma MinimumSamplesReqd_empty_set_witness :
  MinimumSamplesReqd pow_ref oor_ref 1 0 3 5 0.95 = Returned 0.
Proof.
  apply MinimumSamplesReqd_empty_set; try reflexivity; lia.
Defined.

(** X18.  Line 30 for any percentage: for every double [tau] from 1 to 100
    and [1 <= n] with [100 n <= 2^52], the window satisfies [1 <= t <= n];
    the roundings of the product and of the quotient never push the ceiling
    past [n]. *)
Theorem rank_window_percentage (oor : float -> Z) (n : Z) (tau : float) :
  0 < n -> 100 * n <= 2 ^ 52 ->
  (1 <=? tau)%float = true -> (tau <=? 100)%float = true ->
  1 <= rank_window oor n tau <= n.
Proof.
  intros Hn Hfit H1 H100. unfold rank_window. apply percentage_window; assumption.
Qed.

Lemma rank_window_percentage_witness :
  1 <= rank_window oor_ref 1000 2.5 <= 1000.
Proof.
  apply rank_window_percentage.
  - lia.
  - vm_compute. discriminate.
  - reflexivity.
  - reflexivity.
Defined.

(** X19.  The nearest neighbour, [k = 1]: for every [tau] from 1 to 100,
    [alpha <= 1] and [1 <= n] with [100 n <= 2^52], the call returns, after
    at most [2 n] passes of its loop, a result between 1 and [n]. *)
Theorem MinimumSamplesReqd_single_returns
    (pow : float -> float -> float) (oor : float -> Z)
    (n : Z) (tau alpha : float) :
  0 < n -> 100 * n <= 2 ^ 52 ->
  (1 <=? tau)%float = true -> (tau <=? 100)%float = true ->
  (alpha <=? 1)%float = true ->
  exists r : Z,
    1 <= r <= n
    /\ forall fuel : nat,
         (Z.to_nat (2 * n) <= fuel)%nat ->
         MinimumSamplesReqd pow oor fuel n 1 tau alpha = Returned r.
Proof.
  intros Hn Hfit H1 H100 Halpha. pose proof modulus_eq as Hmod.
  assert (Hwin : 1 <= rank_window oor n tau <= n)
    by (unfold rank_window; apply percentage_window; assumption).
  change (2 ^ 52) with 4503599627370496 in Hfit.
  assert (Hn64 : 2 * n < SizeT.modulus) by lia.
  destruct (search_returns pow n 1 (rank_window oor n tau) alpha ltac:(lia) Hn64)
    as (s & Hrun & Hm).
  { apply top_saturated; [lia | lia | exact Halpha]. }
  exists (Z.min (s_m s + 1) n). split; [lia|].
  intros fuel Hfuel. unfold MinimumSamplesReqd, Log_Assert. rewrite Halpha.
  replace (2 * (n - 1) + 2) with (2 * n) in Hrun by lia.
  replace fuel with (Z.to_nat (2 * n) + (fuel - Z.to_nat (2 * n)))%nat by lia.
  rewrite (do_while_fuel_mono pow n 1 _ alpha _ _ s _ Hrun).
  unwrap. reflexivity.
Qed.

Lemma MinimumSamplesReqd_single_returns_witness :
  exists r : Z,
    1 <= r <= 1000
    /\ forall fuel : nat,
         (Z.to_nat (2 * 1000) <= fuel)%nat ->
         MinimumSamplesReqd pow_ref oor_ref fuel 1000 1 2.5 0.95 = Returned r.
Proof.
  apply (MinimumSamplesReqd_single_returns pow_ref oor_ref 1000 2.5 0.95).
  - lia.
  - vm_compute. discriminate.
  - reflexivity.
  - reflexivity.
  - reflexivity.
Defined.

(** ** Sampler *)

Section Sampler_facts.

Variable RandInt : nat -> Z -> Z.
Variable rangeUpperBound : Z.

Local Abbreviation draw i := (RandInt i rangeUpperBound).

Lemma tallied_zeros : tallied RandInt rangeUpperBound 0 (zeros rangeUpperBound).
Proof.
  unfold tallied, zeros. split; [apply length_replicate|].
  intros x c Hx. apply lookup_replicate in Hx. destruct Hx as [-> _].
  split; [lia|]. split; [lia|]. intros (j & Hj & _). lia.
Qed.

Hypothesis draws_in_range : forall i : nat, 0 <= draw i < rangeUpperBound.
Hypothesis range_fits : rangeUpperBound <= SizeT.modulus.

Lemma tally_tallied (cnt : nat) :
  forall (i : nat) (v : list Z),
    tallied RandInt rangeUpperBound i v ->
    Z.of_nat (i + cnt) < SizeT.modulus ->
    exists v' : list Z,
      tally RandInt rangeUpperBound cnt i v = Some v'
      /\ tallied RandInt rangeUpperBound (i + cnt) v'.
Proof.
  induction cnt as [|cnt IH]; intros i v Hv Hfit.
  - exists v. rewrite Nat.add_0_r. split; [reflexivity | exact Hv].
  - destruct Hv as [Hlen Hv]. cbn [tally]. unfold increment.
    pose proof (draws_in_range i) as Hi.
    rewrite (wrap_small (draw i)) by lia.
    destruct (lookup_lt_is_Some_2 v (Z.to_nat (draw i))) as [c Hc]; [lia|].
    rewrite Hc. destruct (Hv _ _ Hc) as [Hcount Hpos].
    replace (SizeT.add c 1) with (c + 1) by (unwrap; reflexivity).
    replace (i + S cnt)%nat with (S i + cnt)%nat in * by lia.
    apply IH; [|exact Hfit].
    split; [rewrite length_insert; exact Hlen|].
    intros x c' Hx.
    destruct (Nat.eq_dec (Z.to_nat (draw i)) x) as [<-|Hne].
    + rewrite list_lookup_insert_eq in Hx by lia. injection Hx as <-.
      split; [lia|]. split; [|lia]. intros _. exists i. split; [lia | reflexivity].
    + rewrite list_lookup_insert_ne in Hx by exact Hne.
      destruct (Hv _ _ Hx) as [Hcount' Hpos']. split; [lia|].
      rewrite Hpos'. split; intros (j & Hj & Ej); exists j; split; try exact Ej; try lia.
      destruct (Nat.eq_dec j i) as [->|]; [contradiction | lia].
Qed.

End Sampler_facts.

(** [find_positive] lists, in increasing order, the positions of the
    positive elements. *)
Lemma find_positive_In (v : list Z) :
  forall i x : Z,
    In x (find_positive i v)
    <-> i <= x /\ exists c : Z, v !! Z.to_nat (x - i) = Some c /\ 0 < c.
Proof.
  induction v as [|c v IH]; intros i x; cbn [find_positive].
  - split; [contradiction | intros (_ & c & Hc & _); discriminate].
  - assert (Htail : In x (find_positive (i + 1) v)
                    <-> i < x /\ exists c', (c :: v) !! Z.to_nat (x - i) = Some c' /\ 0 < c').
    { rewrite IH. split; intros (Hx & c' & Hc' & Hpos); (split; [lia|]); exists c'.
      - replace (Z.to_nat (x - i)) with (S (Z.to_nat (x - (i + 1)))) by lia.
        split; assumption.
      - replace (Z.to_nat (x - i)) with (S (Z.to_nat (x - (i + 1)))) in Hc' by lia.
        split; assumption. }
    destruct (Z.ltb_spec 0 c) as [Hc|Hc]; cbn [In]; rewrite Htail.
    + split.
      * intros [<-| (Hx & He)]; [|split; [lia | exact He]].
        split; [lia|]. exists c. rewrite Z.sub_diag. split; [reflexivity | exact Hc].
      * intros (Hx & He). destruct (Z.eq_dec i x) as [E|E]; [left; exact E|].
        right. split; [lia | exact He].
    + split.
      * intros (Hx & He). split; [lia | exact He].
      * intros (Hx & c' & Hc' & Hpos). split; [|exists c'; split; assumption].
        destruct (Z.eq_dec i x) as [<-|E]; [|lia].
        rewrite Z.sub_diag in Hc'. injection Hc' as <-. lia.
Qed.

Lemma find_positive_sorted (v : list Z) :
  forall i : Z, StronglySorted Z.lt (find_positive i v).
Proof.
  induction v as [|c v IH]; intros i; cbn [find_positive]; [constructor|].
  destruct (0 <? c); [|apply IH].
  constructor; [apply IH|].
  apply Forall_forall. intros x Hx. apply list_elem_of_In, find_positive_In in Hx. lia.
Qed.

Lemma find_positive_length (v : list Z) :
  forall i : Z, (length (find_positive i v) <= length v)%nat.
Proof.
  induction v as [|c v IH]; intros i; cbn [find_positive length]; [lia|].
  specialize (IH (i + 1)). destruct (0 <? c); cbn [length]; lia.
Qed.

Lemma StronglySorted_lt_NoDup (l : list Z) : StronglySorted Z.lt l -> NoDup l.
Proof.
  induction 1 as [|x l _ IH Hx]; constructor; [|exact IH].
  intros Hin. rewrite Forall_forall in Hx. specialize (Hx x Hin). lia.
Qed.

(** C7.  For [numSamples >= 0] and [rangeUpperBound >= 1] (both [size_t]
    values) and any sequence of draws in [[0, rangeUpperBound)],
    [ObtainDistinctSamples] produces a strictly increasing sequence that
    contains exactly the indices drawn at least once; so its elements lie in
    [[0, rangeUpperBound)], there are at most [min (numSamples, rangeUpperBound)]
    of them, and none when [numSamples = 0]. *)
Theorem ObtainDistinctSamples_sorted_distinct
    (RandInt : nat -> Z -> Z) (numSamples rangeUpperBound : Z)
    (distinctSamples : list Z) :
  RandInt_contract RandInt ->
  0 <= numSamples < SizeT.modulus ->
  1 <= rangeUpperBound < SizeT.modulus ->
  exists samples : list Z,
    ObtainDistinctSamples RandInt numSamples rangeUpperBound distinctSamples
    = Some samples
    /\ StronglySorted Z.lt samples
    /\ (forall x : Z,
          In x samples
          <-> exists i : nat,
                (i < Z.to_nat numSamples)%nat /\ RandInt i rangeUpperBound = x)
    /\ (forall x : Z, In x samples -> 0 <= x < rangeUpperBound)
    /\ Z.of_nat (length samples) <= Z.min numSamples rangeUpperBound
    /\ (numSamples = 0 -> samples = []).
Proof.
  intros Hrand Hnum Hrange.
  assert (Hdraw : forall i : nat, 0 <= RandInt i rangeUpperBound < rangeUpperBound)
    by (intros i; apply Hrand; lia).
  destruct (tally_tallied RandInt rangeUpperBound Hdraw ltac:(lia)
              (Z.to_nat numSamples) 0 (zeros rangeUpperBound)
              (tallied_zeros RandInt rangeUpperBound) ltac:(lia))
    as (v & Htally & Hlen & Hv).
  cbn [Nat.add] in Hv.
  unfold ObtainDistinctSamples. rewrite Htally.
  exists (find_positive 0 v).
  assert (Hin : forall x : Z,
            In x (find_positive 0 v)
            <-> exists i : nat,
                  (i < Z.to_nat numSamples)%nat /\ RandInt i rangeUpperBound = x).
  { intros x. rewrite find_positive_In, Z.sub_0_r. split.
    - intros (Hx & c & Hc & Hpos). destruct (Hv _ _ Hc) as [_ Hdrawn].
      apply Hdrawn in Hpos. destruct Hpos as (j & Hj & Ej).
      exists j. split; [exact Hj|]. specialize (Hdraw j). lia.
    - intros (i & Hi & <-). specialize (Hdraw i). split; [lia|].
      destruct (lookup_lt_is_Some_2 v (Z.to_nat (RandInt i rangeUpperBound)))
        as [c Hc]; [lia|].
      exists c. split; [exact Hc|]. apply (Hv _ _ Hc). exists i. split; [exact Hi | reflexivity]. }
  split; [reflexivity|]. split; [apply find_positive_sorted|].
  split; [exact Hin|]. split; [|split].
  - intros x Hx. apply Hin in Hx. destruct Hx as (i & _ & <-). apply Hdraw.
  - pose proof (find_positive_length v 0) as Hshort.
    assert (Hfew : (length (find_positive 0 v)
                    <= length (map (fun i => RandInt i rangeUpperBound)
                                 (seq 0 (Z.to_nat numSamples))))%nat).
    { apply submseteq_length, NoDup_submseteq.
      - apply StronglySorted_lt_NoDup, find_positive_sorted.
      - intros x Hx. apply list_elem_of_In, Hin in Hx. destruct Hx as (i & Hi & <-).
        apply list_elem_of_In, (in_map (fun j => RandInt j rangeUpperBound)), in_seq.
        lia. }
    rewrite length_map, length_seq in Hfew. lia.
  - intros ->. destruct (find_positive 0 v) as [|x l]; [reflexivity|].
    destruct (proj1 (Hin x) (or_introl eq_refl)) as (i & Hi & _).
    change (Z.to_nat 0) with 0%nat in Hi. lia.
Qed.

Lemma ObtainDistinctSamples_sorted_distinct_witness :
  exists samples : list Z,
    ObtainDistinctSamples (fun i hi => (7 * Z.of_nat i) mod hi) 5 10 [3; 3]
    = Some samples
    /\ StronglySorted Z.lt samples
    /\ (forall x : Z,
          In x samples
          <-> exists i : nat, (i < Z.to_nat 5)%nat /\ (7 * Z.of_nat i) mod 10 = x)
    /\ (forall x : Z, In x samples -> 0 <= x < 10)
    /\ Z.of_nat (length samples) <= Z.min 5 10
    /\ (5 = 0 -> samples = []).
Proof.
  apply (ObtainDistinctSamples_sorted_distinct
           (fun i hi => (7 * Z.of_nat i) mod hi) 5 10 [3; 3]).
  - intros i hi Hhi. apply Z.mod_pos_bound. exact Hhi.
  - pose proof modulus_eq. lia.
  - pose proof modulus_eq. lia.
Defined.

(** C8 (amended).  [ObtainDistinctSamples] validates nothing: with
    [rangeUpperBound = 0] it returns the empty result when [numSamples = 0],
    and when [numSamples > 0] its first update indexes the empty tally
    vector, which is undefined. *)
Theorem ObtainDistinctSamples_empty_range
    (RandInt : nat -> Z -> Z) (numSamples : Z) (distinctSamples : list Z) :
  (numSamples <= 0 ->
     ObtainDistinctSamples RandInt numSamples 0 distinctSamples = Some [])
  /\ (0 < numSamples ->
        ObtainDistinctSamples RandInt numSamples 0 distinctSamples = None).
Proof.
  unfold ObtainDistinctSamples, zeros. cbn [Z.to_nat replicate]. split.
  - intros Hnone. replace (Z.to_nat numSamples) with 0%nat by lia. reflexivity.
  - intros Hsome. destruct (Z.to_nat numSamples) as [|cnt] eqn:E; [lia|].
    reflexivity.
Qed.

Lemma ObtainDistinctSamples_empty_range_witness :
  ObtainDistinctSamples (fun _ _ => 0) 0 0 [1; 2] = Some []
  /\ ObtainDistinctSamples (fun _ _ => 0) 3 0 [1; 2] = None.
Proof.
  split.
  - apply (ObtainDistinctSamples_empty_range (fun _ _ => 0) 0 [1; 2]). lia.
  - apply (ObtainDistinctSamples_empty_range (fun _ _ => 0) 3 [1; 2]). lia.
Defined.

(** C8: with [rangeUpperBound = 0] and [numSamples = 0] the call is not
    rejected: it produces the empty result. *)
Lemma ObtainDistinctSamples_accepts_empty_range :
  ObtainDistinctSamples (fun _ _ => 0) 0 0 [] = Some [].
Proof. reflexivity. Qed.

(** C10.  The contents of [distinctSamples] after the call do not depend on
    its contents before: the tally starts from zeros and the assignment of
    line 187 replaces the vector. *)
Theorem ObtainDistinctSamples_overwrites
    (RandInt : nat -> Z -> Z) (numSamples rangeUpperBound : Z)
    (before before' : list Z) :
  ObtainDistinctSamples RandInt numSamples rangeUpperBound before
  = ObtainDistinctSamples RandInt numSamples rangeUpperBound before'.
Proof.
  unfold ObtainDistinctSamples.
  destruct (tally RandInt rangeUpperBound (Z.to_nat numSamples) 0
              (zeros rangeUpperBound)); reflexivity.
Qed.

(** ** Draws outside the range *)

Section Sampler_more.

Variable RandInt : nat -> Z -> Z.
Variable rangeUpperBound : Z.

Lemma increment_length (idx : Z) (v v' : list Z) :
  increment idx v = Some v' -> length v' = length v.
Proof.
  unfold increment. destruct (v !! Z.to_nat idx); [|discriminate].
  intros [= <-]. apply length_insert.
Qed.

Lemma tally_out_of_bounds (i : nat) :
  rangeUpperBound <= SizeT.wrap (RandInt i rangeUpperBound) ->
  forall (cnt i0 : nat) (v : list Z),
    length v = Z.to_nat rangeUpperBound ->
    (i0 <= i < i0 + cnt)%nat ->
    tally RandInt rangeUpperBound cnt i0 v = None.
Proof.
  intros Hout. induction cnt as [|cnt IH]; intros i0 v Hlen Hi; [lia|].
  cbn [tally].
  destruct (increment (SizeT.wrap (RandInt i0 rangeUpperBound)) v) as [v1|] eqn:E;
    [|reflexivity].
  destruct (Nat.eq_dec i0 i) as [->|Hne].
  - exfalso. unfold increment in E.
    assert (Hwrap : 0 <= SizeT.wrap (RandInt i rangeUpperBound))
      by (apply Z.mod_pos_bound; reflexivity).
    rewrite lookup_ge_None_2 in E by lia. discriminate.
  - apply IH; [|lia]. rewrite (increment_length _ _ _ E). exact Hlen.
Qed.

End Sampler_more.

(** X13.  The index is never checked (line 185): if one of the first
    [numSamples] draws, converted to [size_t], is not below
    [rangeUpperBound], the update writes outside the tally vector and the
    call is undefined. *)
Theorem ObtainDistinctSamples_unchecked_index
    (RandInt : nat -> Z -> Z) (numSamples rangeUpperBound : Z)
    (distinctSamples : list Z) (i : nat) :
  (i < Z.to_nat numSamples)%nat ->
  rangeUpperBound <= SizeT.wrap (RandInt i rangeUpperBound) ->
  ObtainDistinctSamples RandInt numSamples rangeUpperBound distinctSamples = None.
Proof.
  intros Hi Hout. unfold ObtainDistinctSamples.
  rewrite (tally_out_of_bounds RandInt rangeUpperBound i Hout); [reflexivity| |lia].
  unfold zeros. apply length_replicate.
Qed.

Lemma ObtainDistinctSamples_unchecked_index_witness :
  ObtainDistinctSamples (fun i _ => if Nat.eqb i 2 then 10 else 3) 5 10 [] = None.
Proof.
  apply (ObtainDistinctSamples_unchecked_index _ 5 10 [] 2); [lia | vm_compute; discriminate].
Defined.

(** ** The result as a set *)

(** What a call within the contract produces: the sorted list of the indices
    drawn. *)
Lemma ObtainDistinctSamples_drawn
    (RandInt : nat -> Z -> Z) (numSamples rangeUpperBound : Z)
    (distinctSamples : list Z) :
  RandInt_contract RandInt ->
  0 <= numSamples < SizeT.modulus ->
  1 <= rangeUpperBound < SizeT.modulus ->
  exists samples : list Z,
    ObtainDistinctSamples RandInt numSamples rangeUpperBound distinctSamples
    = Some samples
    /\ StronglySorted Z.lt samples
    /\ (forall x : Z,
          In x samples
          <-> exists i : nat,
                (i < Z.to_nat numSamples)%nat /\ RandInt i rangeUpperBound = x).
Proof.
  intros Hrand Hnum Hrange.
  assert (Hdraw : forall i : nat, 0 <= RandInt i rangeUpperBound < rangeUpperBound)
    by (intros i; apply Hrand; lia).
  destruct (tally_tallied RandInt rangeUpperBound Hdraw ltac:(lia)
              (Z.to_nat numSamples) 0 (zeros rangeUpperBound)
              (tallied_zeros RandInt rangeUpperBound) ltac:(lia))
    as (v & Htally & Hlen & Hv).
  cbn [Nat.add] in Hv.
  unfold ObtainDistinctSamples. rewrite Htally.
  exists (find_positive 0 v).
  split; [reflexivity|]. split; [apply find_positive_sorted|].
  intros x. rewrite find_positive_In, Z.sub_0_r. split.
  - intros (Hx & c & Hc & Hpos). destruct (Hv _ _ Hc) as [_ Hdrawn].
    apply Hdrawn in Hpos. destruct Hpos as (j & Hj & Ej).
    exists j. split; [exact Hj|]. specialize (Hdraw j). lia.
  - intros (i & Hi & <-). specialize (Hdraw i). split; [lia|].
    destruct (lookup_lt_is_Some_2 v (Z.to_nat (RandInt i rangeUpperBound)))
      as [c Hc]; [lia|].
    exists c. split; [exact Hc|]. apply (Hv _ _ Hc). exists i. split; [exact Hi | reflexivity].
Qed.

(** A strictly increasing list is determined by its elements. *)
Lemma StronglySorted_lt_ext (l1 : list Z) :
  forall l2 : list Z,
    StronglySorted Z.lt l1 -> StronglySorted Z.lt l2 ->
    (forall x : Z, In x l1 <-> In x l2) -> l1 = l2.
Proof.
  induction l1 as [|a l1 IH]; intros [|b l2] H1 H2 Hsame.
  - reflexivity.
  - destruct (proj2 (Hsame b) (or_introl eq_refl)).
  - destruct (proj1 (Hsame a) (or_introl eq_refl)).
  - apply StronglySorted_inv in H1. destruct H1 as [H1 Ha].
    apply StronglySorted_inv in H2. destruct H2 as [H2 Hb].
    rewrite Forall_forall in Ha, Hb.
    assert (Hab : a = b).
    { destruct (proj1 (Hsame a) (or_introl eq_refl)) as [E|Hin]; [congruence|].
      destruct (proj2 (Hsame b) (or_introl eq_refl)) as [E|Hin']; [congruence|].
      apply list_elem_of_In in Hin, Hin'.
      specialize (Ha _ Hin'). specialize (Hb _ Hin). lia. }
    subst b. f_equal. apply IH; [exact H1 | exact H2 |].
    intros x. split; intros Hx.
    + destruct (proj1 (Hsame x) (or_intror Hx)) as [E|Hin]; [|exact Hin].
      apply list_elem_of_In in Hx. specialize (Ha _ Hx). lia.
    + destruct (proj2 (Hsame x) (or_intror Hx)) as [E|Hin]; [|exact Hin].
      apply list_elem_of_In in Hx. specialize (Hb _ Hx). lia.
Qed.

(** X14.  The result is a function of the set of indices drawn: two calls
    whose draws cover the same indices, in whatever order, however often and
    with whatever [numSamples], produce the same sequence. *)
Theorem ObtainDistinctSamples_set_of_draws
    (RandInt RandInt' : nat -> Z -> Z) (numSamples numSamples' rangeUpperBound : Z)
    (distinctSamples distinctSamples' : list Z) :
  RandInt_contract RandInt -> RandInt_contract RandInt' ->
  0 <= numSamples < SizeT.modulus -> 0 <= numSamples' < SizeT.modulus ->
  1 <= rangeUpperBound < SizeT.modulus ->
  (forall x : Z,
     (exists i : nat, (i < Z.to_nat numSamples)%nat /\ RandInt i rangeUpperBound = x)
     <-> (exists j : nat, (j < Z.to_nat numSamples')%nat /\ RandInt' j rangeUpperBound = x)) ->
  ObtainDistinctSamples RandInt numSamples rangeUpperBound distinctSamples
  = ObtainDistinctSamples RandInt' numSamples' rangeUpperBound distinctSamples'.
Proof.
  intros Hrand Hrand' Hnum Hnum' Hrange Hsame.
  destruct (ObtainDistinctSamples_drawn RandInt numSamples rangeUpperBound
              distinctSamples Hrand Hnum Hrange) as (l & -> & Hsorted & Hin).
  destruct (ObtainDistinctSamples_drawn RandInt' numSamples' rangeUpperBound
              distinctSamples' Hrand' Hnum' Hrange) as (l' & -> & Hsorted' & Hin').
  f_equal. apply StronglySorted_lt_ext; [exact Hsorted | exact Hsorted' |].
  intros x. rewrite Hin, Hin'. apply Hsame.
Qed.

Lemma ObtainDistinctSamples_set_of_draws_witness :
  ObtainDistinctSamples (fun i hi => Z.of_nat i mod hi) 3 10 []
  = ObtainDistinctSamples (fun i hi => (2 - Z.of_nat i) mod 3 mod hi) 5 10 [7].
Proof.
  apply ObtainDistinctSamples_set_of_draws.
  - intros i hi Hhi. apply Z.mod_pos_bound. exact Hhi.
  - intros i hi Hhi. apply Z.mod_pos_bound. exact Hhi.
  - pose proof modulus_eq. lia.
  - pose proof modulus_eq. lia.
  - pose proof modulus_eq. lia.
  - intros x. split.
    + intros (i & Hi & <-).
      destruct i as [|[|[|i]]]; [exists 2%nat | exists 1%nat | exists 0%nat | lia];
        (split; [vm_compute; lia | reflexivity]).
    + intros (j & Hj & <-).
      destruct j as [|[|[|[|[|j]]]]];
        [exists 2%nat | exists 1%nat | exists 0%nat | exists 2%nat | exists 1%nat | lia];
        (split; [vm_compute; lia | reflexivity]).
Defined.

(** X15.  The number of samples produced: at least one when
    [numSamples >= 1], and exactly [numSamples] if and only if the draws are
    pairwise distinct; a repeated draw makes the result shorter than
    asked for. *)
Theorem ObtainDistinctSamples_count
    (RandInt : nat -> Z -> Z) (numSamples rangeUpperBound : Z)
    (distinctSamples : list Z) :
  RandInt_contract RandInt ->
  0 <= numSamples < SizeT.modulus ->
  1 <= rangeUpperBound < SizeT.modulus ->
  exists samples : list Z,
    ObtainDistinctSamples RandInt numSamples rangeUpperBound distinctSamples
    = Some samples
    /\ (1 <= numSamples -> samples <> [])
    /\ (Z.of_nat (length samples) = numSamples
        <-> forall i j : nat,
              (i < Z.to_nat numSamples)%nat -> (j < Z.to_nat numSamples)%nat ->
              RandInt i rangeUpperBound = RandInt j rangeUpperBound -> i = j).
Proof.
  intros Hrand Hnum Hrange.
  destruct (ObtainDistinctSamples_drawn RandInt numSamples rangeUpperBound
              distinctSamples Hrand Hnum Hrange) as (l & -> & Hsorted & Hin).
  exists l. split; [reflexivity|].
  set (cnt := Z.to_nat numSamples) in *.
  set (draws := (fun i => RandInt i rangeUpperBound) <$> seq 0 cnt).
  assert (Hdraws : forall i, (i < cnt)%nat -> draws !! i = Some (RandInt i rangeUpperBound)).
  { intros i Hi. unfold draws. rewrite list_lookup_fmap, lookup_seq_lt by exact Hi.
    reflexivity. }
  assert (Hlen : length draws = cnt) by (unfold draws; rewrite length_fmap, length_seq; reflexivity).
  assert (Hel : forall x, x ∈ l <-> x ∈ draws).
  { intros x. rewrite list_elem_of_In, Hin. unfold draws.
    rewrite list_elem_of_fmap. split.
    - intros (i & Hi & <-). exists i. split; [reflexivity|]. apply elem_of_seq. lia.
    - intros (i & -> & Hi). apply elem_of_seq in Hi. exists i. split; [lia | reflexivity]. }
  assert (Hnodup : NoDup l) by (apply StronglySorted_lt_NoDup, Hsorted).
  assert (Hsub : l ⊆+ draws) by (apply NoDup_submseteq; [exact Hnodup | intros x; apply Hel]).
  assert (Hinj : NoDup draws
                 <-> forall i j : nat, (i < cnt)%nat -> (j < cnt)%nat ->
                       RandInt i rangeUpperBound = RandInt j rangeUpperBound -> i = j).
  { rewrite NoDup_alt. split.
    - intros H i j Hi Hj E. apply (H i j (RandInt i rangeUpperBound)).
      + apply Hdraws, Hi.
      + rewrite E. apply Hdraws, Hj.
    - intros H i j x Hi Hj.
      assert (Hi' : (i < cnt)%nat) by (rewrite <- Hlen; eapply lookup_lt_Some; exact Hi).
      assert (Hj' : (j < cnt)%nat) by (rewrite <- Hlen; eapply lookup_lt_Some; exact Hj).
      rewrite Hdraws in Hi, Hj by assumption. apply H; congruence. }
  split.
  - intros Hone Hnil. subst l.
    assert (H0 : RandInt 0%nat rangeUpperBound ∈ draws)
      by (eapply list_elem_of_lookup_2, Hdraws; unfold cnt; lia).
    apply Hel in H0. inversion H0.
  - rewrite <- Hinj. split.
    + intros Hfull. apply (submseteq_length_Permutation l draws) in Hsub; [|lia].
      rewrite <- Hsub. exact Hnodup.
    + intros Hd.
      assert (Hsup : draws ⊆+ l) by (apply NoDup_submseteq; [exact Hd | intros x; apply Hel]).
      apply submseteq_length in Hsub, Hsup. unfold cnt in *. lia.
Qed.

Lemma ObtainDistinctSamples_count_witness :
  exists samples : list Z,
    ObtainDistinctSamples (fun i hi => (7 * Z.of_nat i) mod hi) 5 10 [] = Some samples
    /\ (1 <= 5 -> samples <> [])
    /\ (Z.of_nat (length samples) = 5
        <-> forall i j : nat,
              (i < Z.to_nat 5)%nat -> (j < Z.to_nat 5)%nat ->
              (7 * Z.of_nat i) mod 10 = (7 * Z.of_nat j) mod 10 -> i = j).
Proof.
  apply (ObtainDistinctSamples_count (fun i hi => (7 * Z.of_nat i) mod hi) 5 10 []).
  - intros i hi Hhi. apply Z.mod_pos_bound. exact Hhi.
  - pose proof modulus_eq. lia.
  - pose proof modulus_eq. lia.
Defined.
